(** * basicstats.c: a growable buffer of doubles and its statistics

    A shallow embedding of [basicstats.c] (Xianhe-Zheng-SP-Lab-3) and the
    properties its specification states about it.

    Conventions of the embedding
    - [double] is IEEE-754 binary64: Rocq's primitive [float], whose
      operations round to nearest, ties to even.  No excess precision and
      no fused multiply-add are assumed.
    - [int] is a 32-bit two's complement integer, carried as a [Z] with
      the wrap-around written out; [size_t] is 64 bits wide (LP64).
    - The block behind [double* data] is a [list float], one entry per
      allocated slot.  The buffer owns it exclusively, so no aliasing needs
      to be modelled.  An access outside the block is [Undef].
    - [malloc], [realloc], [qsort], [fopen], [fscanf] and [printf] belong
      to the C library, not to the program; each gets a small model that is
      introduced where it is used.  Where the C standard leaves a choice
      to the library (a request for zero bytes, the order [qsort] gives to
      elements the comparison function does not order, the sign [printf]
      shows for a NaN), the model follows glibc on x86-64 or takes the
      choice from the environment. *)

From Stdlib Require Import ZArith List Floats QArith Qabs Lia Ascii String DecimalString.
From Stdlib Require Import Sorted Permutation.
From stdpp Require Import base list numbers.

Set Warnings "-inexact-float".
Local Open Scope Z_scope.

(** ** C integers *)

Module CInt.

Definition INT_MAX : Z := 2147483647.
Definition INT_MIN : Z := -2147483648.
Definition PTRDIFF_MAX : Z := 9223372036854775807.

Definition in_range (z : Z) : Prop := INT_MIN <= z <= INT_MAX.

(** Reduction of a mathematical integer to the 32-bit signed range. *)
Definition wrap (z : Z) : Z := (z + 2147483648) mod 4294967296 - 2147483648.

Definition add (a b : Z) : Z := wrap (a + b).
Definition sub (a b : Z) : Z := wrap (a - b).
Definition mul (a b : Z) : Z := wrap (a * b).

(** [/] and [%] of C truncate toward zero. *)
Definition div (a b : Z) : Z := wrap (Z.quot a b).
Definition rem (a b : Z) : Z := Z.rem a b.

(** Conversion of an [int] to [size_t], and the product of two [size_t]. *)
Definition to_size_t (z : Z) : Z := z mod 18446744073709551616.
Definition size_mul (a b : Z) : Z := (a * b) mod 18446744073709551616.

End CInt.

(** ** Outcomes of a computation *)

Inductive outcome (A : Type) : Type :=
| Ret (a : A)        (* normal completion with a value *)
| Exit (status : Z)  (* the process ended through [exit] *)
| Undef              (* an access outside the allocated block *)
| Loops.             (* the iteration budget ran out before the loop ended *)

Arguments Ret {A} a.
Arguments Exit {A} status.
Arguments Undef {A}.
Arguments Loops {A}.

Definition obind {A B : Type} (c : outcome A) (k : A -> outcome B) : outcome B :=
  match c with
  | Ret a => k a
  | Exit s => Exit s
  | Undef => Undef
  | Loops => Loops
  end.

Notation "x <~ c ; k" := (obind c (fun x => k))
  (at level 20, c at level 100, k at level 200).

Definition EXIT_SUCCESS : Z := 0.
Definition EXIT_FAILURE : Z := 1.

(** A counted loop [for (int i = lo; i < hi; i++) body]: [body] receives the
    index and the current values of the variables the loop updates. *)
Fixpoint for_count {S : Type} (n : nat) (i : Z) (body : Z -> S -> outcome S) (s : S)
  : outcome S :=
  match n with
  | O => Ret s
  | S n' => s' <~ body i s ; for_count n' (i + 1) body s'
  end.

Definition for_range {S : Type} (lo hi : Z) (body : Z -> S -> outcome S) (s : S)
  : outcome S :=
  for_count (Z.to_nat (hi - lo)) lo body s.

(** ** Doubles *)

Module Double.

Definition sizeof_double : Z := 8.

(** Conversion of an [int] to [double]; exact, as |z| < 2^31. *)
Definition of_int (z : Z) : float :=
  if z <? 0 then PrimFloat.opp (PrimFloat.of_uint63 (Uint63.of_Z (- z)))
  else PrimFloat.of_uint63 (Uint63.of_Z z).

(** The exact value of a finite double as a rational. *)
Definition to_Q (x : float) : option Q :=
  match Prim2SF x with
  | S754_zero _ => Some 0%Q
  | S754_finite s m e =>
      let q := (match e with
                | Z0 => inject_Z (Zpos m)
                | Zpos p => inject_Z (Zpos m * 2 ^ Zpos p)
                | Zneg p => Qmake (Zpos m) (2 ^ p)
                end) in
      Some (if s then Qopp q else q)
  | _ => None
  end.

(** [within x c eps]: the double [x] is finite and |x - c| <= eps. *)
Definition within (x : float) (c eps : Q) : bool :=
  match to_Q x with
  | Some q => Qle_bool (Qabs (q - c)) eps
  | None => false
  end.

End Double.

(** ** The allocator

    [grants alloc n] tells whether a request for [n] bytes is served, and
    [junk alloc] is what a fresh slot holds.  No request above
    [PTRDIFF_MAX] bytes is ever served.  A single buffer asks for a given
    size at most once (its capacity only grows), so an oracle on the size
    loses no generality here.

    What [realloc(p, 0)] does is the library's choice, [realloc_zero]: it
    may return a block with no slot, return NULL and leave [p] allocated,
    or free [p] and return NULL (glibc). *)

Inductive zero_size : Type :=
| ZeroBlock   (* a block with no slot *)
| ZeroNull    (* NULL, the old block untouched *)
| ZeroFree.   (* NULL, the old block freed *)

Record allocator : Type := {
  grants : Z -> bool;
  junk : float;
  realloc_zero : zero_size
}.

Abbreviation block := (list float).

Definition served (alloc : allocator) (bytes : Z) : bool :=
  (bytes <=? CInt.PTRDIFF_MAX) && grants alloc bytes.

Definition malloc (alloc : allocator) (bytes : Z) : option block :=
  if served alloc bytes
  then Some (replicate (Z.to_nat (bytes / Double.sizeof_double)) (junk alloc))
  else None.

(** What [realloc] answers: the new block, NULL with the old block still
    allocated, or NULL with the old block gone. *)
Inductive reallocation : Type :=
| Moved (b : block)
| Refused
| Released.

Definition realloc (alloc : allocator) (old : block) (bytes : Z) : reallocation :=
  if bytes =? 0 then
    match realloc_zero alloc with
    | ZeroBlock => Moved []
    | ZeroNull => Refused
    | ZeroFree => Released
    end
  else if served alloc bytes
  then Moved (resize (Z.to_nat (bytes / Double.sizeof_double)) (junk alloc) old)
  else Refused.

(** [b[i]] as an rvalue and [b[i] = v]. *)
Definition load (b : block) (i : Z) : outcome float :=
  if 0 <=? i then
    match b !! Z.to_nat i with
    | Some v => Ret v
    | None => Undef
    end
  else Undef.

Definition store (b : block) (i : Z) (v : float) : outcome block :=
  if (0 <=? i) && (i <? Z.of_nat (length b))
  then Ret (<[Z.to_nat i := v]> b)
  else Undef.

(** ** The growable buffer *)

Record DynamicArray : Type := {
  data : block;       (* the dynamically allocated array of data points *)
  size : Z;           (* number of elements currently stored *)
  capacity : Z        (* total capacity of the array *)
}.

Definition sizeof_DynamicArray : Z := 16.

(** [create_dynamic_array]: [None] is the NULL result. *)
Definition create_dynamic_array (alloc : allocator) (initial_capacity : Z)
  : option DynamicArray :=
  match malloc alloc sizeof_DynamicArray with
  | None => None
  | Some _ =>
      match malloc alloc (CInt.size_mul (CInt.to_size_t initial_capacity)
                                        Double.sizeof_double) with
      | None => None
      | Some d => Some {| data := d; size := 0; capacity := initial_capacity |}
      end
  end.

Definition resize_array_if_needed (alloc : allocator) (array : DynamicArray)
  : outcome DynamicArray :=
  if size array =? capacity array then
    let new_capacity := CInt.mul 2 (capacity array) in
    match realloc alloc (data array)
            (CInt.size_mul (CInt.to_size_t new_capacity) Double.sizeof_double) with
    | Moved new_data =>
        Ret {| data := new_data; size := size array; capacity := new_capacity |}
    | Refused => Exit EXIT_FAILURE
    | Released => Undef    (* [free_dynamic_array] frees [data] a second time *)
    end
  else Ret array.

(** The body of the read loop (lines 100-101): make room, then
    [array->data[array->size++] = value].  This is the specification's
    [append]. *)
Definition append (alloc : allocator) (array : DynamicArray) (value : float)
  : outcome DynamicArray :=
  array <~ resize_array_if_needed alloc array ;
  d <~ store (data array) (size array) value ;
  Ret {| data := d; size := CInt.add (size array) 1; capacity := capacity array |}.

(** Appending the values of a list one after the other. *)
Fixpoint append_all (alloc : allocator) (array : DynamicArray) (values : list float)
  : outcome DynamicArray :=
  match values with
  | [] => Ret array
  | v :: rest => array <~ append alloc array v ; append_all alloc array rest
  end.

(** ** The statistics *)

Definition compute_mean (array : DynamicArray) : outcome float :=
  sum <~ for_range 0 (size array)
           (fun i sum => x <~ load (data array) i ; Ret (sum + x)%float)
           0%float ;
  Ret (sum / Double.of_int (size array))%float.

(** [babylonian_sqrt]: the [while] loop, with a budget of iterations. *)
Fixpoint babylonian_loop (fuel : nat) (value x y e : float) : outcome float :=
  if (e <? x - y)%float then
    match fuel with
    | O => Loops
    | S fuel' =>
        let x := ((x + y) / 2)%float in
        let y := (value / x)%float in
        babylonian_loop fuel' value x y e
    end
  else Ret x.

Definition babylonian_sqrt (fuel : nat) (value : float) : outcome float :=
  babylonian_loop fuel value value 1%float 0.000001%float.

Definition compute_stddev (fuel : nat) (array : DynamicArray) (mean : float)
  : outcome float :=
  sum_sq <~ for_range 0 (size array)
              (fun i sum_sq =>
                 x <~ load (data array) i ;
                 let diff := (x - mean)%float in
                 Ret (sum_sq + diff * diff)%float)
              0%float ;
  babylonian_sqrt fuel (sum_sq / Double.of_int (size array))%float.

Definition compute_median (array : DynamicArray) : outcome float :=
  let middle_index := CInt.div (size array) 2 in
  if CInt.rem (size array) 2 =? 0 then
    a <~ load (data array) (CInt.sub middle_index 1) ;
    b <~ load (data array) middle_index ;
    Ret ((a + b) / 2)%float
  else load (data array) middle_index.

(** The variables of the loop of [compute_mode]. *)
Record mode_vars : Type := {
  mode : float;
  max_count : Z;
  current_count : Z
}.

Definition mode_body (array : DynamicArray) (i : Z) (v : mode_vars)
  : outcome mode_vars :=
  cur <~ load (data array) i ;
  prev <~ load (data array) (i - 1) ;
  if (cur =? prev)%float then
    Ret {| mode := mode v; max_count := max_count v;
           current_count := CInt.add (current_count v) 1 |}
  else if current_count v >? max_count v then
    Ret {| mode := prev; max_count := current_count v; current_count := 1 |}
  else
    Ret {| mode := mode v; max_count := max_count v; current_count := 1 |}.

Definition compute_mode (array : DynamicArray) : outcome float :=
  first <~ load (data array) 0 ;
  v <~ for_range 1 (size array) (mode_body array)
         {| mode := first; max_count := 1; current_count := 1 |} ;
  Ret (mode v).

Definition compute_harmonic_mean (array : DynamicArray) : outcome float :=
  denominator_sum <~ for_range 0 (size array)
                       (fun i sum => x <~ load (data array) i ; Ret (sum + 1 / x)%float)
                       0%float ;
  Ret (Double.of_int (size array) / denominator_sum)%float.

(** ** Sorting *)

Definition compare_double (a b : float) : Z :=
  let diff := (a - b)%float in
  Z.b2z (0 <? diff)%float - Z.b2z (diff <? 0)%float.

(** [qsort] is the C library's.  It is modelled as the merge sort glibc
    runs ([msort_with_tmp]): the first [n / 2] elements and the rest are
    sorted separately and then merged, the next element being taken from
    the first part unless the comparison function says it is greater than
    the next one of the second part.  On data the comparison function
    orders consistently any [qsort] gives the same order of values; with a
    NaN in the data ([compare_double] answers 0 for it against everything)
    the result depends on the algorithm, and this is glibc's. *)
Fixpoint merge (compar : float -> float -> Z) (b1 : list float)
  : list float -> list float :=
  fix merge_b1 (b2 : list float) : list float :=
    match b1, b2 with
    | [], _ => b2
    | _, [] => b1
    | x1 :: b1', x2 :: b2' =>
        if compar x1 x2 <=? 0 then x1 :: merge compar b1' b2
        else x2 :: merge_b1 b2'
    end.

(** [depth] bounds the nesting of the recursive calls; the number of
    elements is bound enough. *)
Fixpoint msort_with_tmp (depth : nat) (compar : float -> float -> Z) (b : list float)
  : list float :=
  match depth with
  | O => b
  | S depth' =>
      if (length b <=? 1)%nat then b
      else
        let n1 := (length b / 2)%nat in
        merge compar (msort_with_tmp depth' compar (take n1 b))
                     (msort_with_tmp depth' compar (drop n1 b))
  end.

Definition qsort (base : block) (nmemb : Z) (compar : float -> float -> Z)
  : outcome block :=
  if (0 <=? nmemb) && (nmemb <=? Z.of_nat (length base))
  then Ret (msort_with_tmp (Z.to_nat nmemb) compar (take (Z.to_nat nmemb) base)
              ++ drop (Z.to_nat nmemb) base)
  else Undef.

(** What [main] does at line 44. *)
Definition sort_array (array : DynamicArray) : outcome DynamicArray :=
  d <~ qsort (data array) (size array) compare_double ;
  Ret {| data := d; size := size array; capacity := capacity array |}.

(** A buffer whose [size] elements are the given values, in a block with
    room for [cap] of them. *)
Definition buffer_of (values : list float) (cap : Z) : DynamicArray :=
  {| data := resize (Z.to_nat cap) 0%float values;
     size := Z.of_nat (length values);
     capacity := cap |}.

(** The elements of a buffer: the first [size] slots of its block. *)
Definition elements (array : DynamicArray) : list float :=
  take (Z.to_nat (size array)) (data array).

(** ** Ingestion

    An open [FILE*] is the list of the characters still to be read.  The
    environment of the process supplies the allocator, the files that can be
    opened, and the behaviour of [fscanf(file, "%lf", &value)]: [Some] of the
    converted value and the rest of the stream when it returns 1, [None]
    when it returns anything else (0 or [EOF]).

    A NaN has a sign bit that a [float] here does not carry, and [printf]
    shows it.  [env_nan_sign k] tells whether the [k]-th number of the
    report, when it is a NaN, has its sign bit set: the NaN that 0/0 or
    [inf - inf] produces on x86-64 has. *)

Abbreviation FILE := (list ascii).

Definition scanner : Type := FILE -> option (float * FILE).

Record environment : Type := {
  env_alloc : allocator;
  env_files : string -> option FILE;
  env_fscanf_lf : scanner;
  env_nan_sign : nat -> bool
}.

Definition fopen (env : environment) (filename : string) : option FILE :=
  env_files env filename.

(** The [while] loop of [read_data_from_file]. *)
Fixpoint read_loop (fuel : nat) (env : environment) (file : FILE) (array : DynamicArray)
  : outcome DynamicArray :=
  match env_fscanf_lf env file with
  | Some (value, file') =>
      match fuel with
      | O => Loops
      | S fuel' =>
          array <~ append (env_alloc env) array value ;
          read_loop fuel' env file' array
      end
  | None => Ret array
  end.

(** The result pairs the returned [int] with the buffer as the call leaves
    it.  Every successful conversion consumes a character, so one iteration
    per character of the file is budget enough. *)
Definition read_data_from_file (env : environment) (filename : string)
    (array : DynamicArray) : outcome (Z * DynamicArray) :=
  match fopen env filename with
  | None => Ret (0, array)
  | Some file =>
      array <~ read_loop (length file) env file array ;
      Ret (1, array)
  end.

(** A conversion that succeeds leaves a strictly shorter stream. *)
Definition consuming (scan : scanner) : Prop :=
  forall s v s', scan s = Some (v, s') -> (length s' < length s)%nat.

(** What the file holds, as the repeated conversion sees it: the values
    converted up to the first conversion that does not succeed. *)
Inductive scans (scan : scanner) : FILE -> list float -> Prop :=
| scans_stop s : scan s = None -> scans scan s []
| scans_value s v s' vs :
    scan s = Some (v, s') -> scans scan s' vs -> scans scan s (v :: vs).

(** *** A model of the ["%lf"] conversion for decimal numerals

    White space is skipped; then come an optional sign, decimal digits with
    an optional fraction, and an optional exponent.  The numeral is
    converted with correct rounding.  A sequence that is only the prefix of
    a numeral (a lone sign, [1e] with no digit after it) is a matching
    failure, as the C standard has it.  Hexadecimal numerals and the
    spellings of infinity and NaN are not recognised. *)

Module Scan.

Definition isspace (c : ascii) : bool :=
  let n := Z.of_nat (nat_of_ascii c) in
  (n =? 32) || ((9 <=? n) && (n <=? 13)).

Definition digit_of (c : ascii) : option Z :=
  let n := Z.of_nat (nat_of_ascii c) in
  if (48 <=? n) && (n <=? 57) then Some (n - 48) else None.

Fixpoint skip_space (s : FILE) : FILE :=
  match s with
  | c :: s' => if isspace c then skip_space s' else s
  | [] => []
  end.

(** Reads digits on top of the number [acc] read so far; [n] counts them. *)
Fixpoint scan_digits (s : FILE) (acc : Z) (n : nat) : Z * nat * FILE :=
  match s with
  | c :: s' =>
      match digit_of c with
      | Some d => scan_digits s' (10 * acc + d) (S n)
      | None => (acc, n, s)
      end
  | [] => (acc, n, [])
  end.

Definition scan_sign (s : FILE) : bool * FILE :=
  match s with
  | c :: s' =>
      if Ascii.eqb c "-" then (true, s')
      else if Ascii.eqb c "+" then (false, s')
      else (false, s)
  | [] => (false, [])
  end.

Definition scan_fraction (s : FILE) (acc : Z) : Z * nat * FILE :=
  match s with
  | c :: s' => if Ascii.eqb c "." then scan_digits s' acc 0 else (acc, 0%nat, s)
  | [] => (acc, 0%nat, [])
  end.

Definition scan_exponent (s : FILE) : option (Z * FILE) :=
  match s with
  | c :: s' =>
      if Ascii.eqb c "e" || Ascii.eqb c "E" then
        let '(neg, s1) := scan_sign s' in
        let '(x, n, s2) := scan_digits s1 0 0 in
        match n with
        | O => None
        | S _ => Some (if neg then - x else x, s2)
        end
      else Some (0, s)
  | [] => Some (0, [])
  end.

(** The double nearest to [(-1)^neg * m * 10^e]. *)
Definition decimal_to_double (neg : bool) (m e : Z) : float :=
  SF2Prim
    (match m with
     | Zpos _ =>
         if 0 <=? e then binary_normalize prec emax ((if neg then - m else m) * 10 ^ e) 0 false
         else
           let '(q, e', l) := SFdiv_core_binary prec emax m 0 (10 ^ (- e)) 0 in
           binary_round_aux prec emax neg q e' l
     | _ => S754_zero neg
     end).

Definition fscanf_lf : scanner := fun s =>
  let '(neg, s1) := scan_sign (skip_space s) in
  let '(ip, ni, s2) := scan_digits s1 0 0 in
  let '(m, nf, s3) := scan_fraction s2 ip in
  match (ni + nf)%nat with
  | O => None
  | S _ =>
      match scan_exponent s3 with
      | Some (x, s4) => Some (decimal_to_double neg m (x - Z.of_nat nf), s4)
      | None => None
      end
  end.

End Scan.

(** ** The report

    [printf] with ["%d"] and ["%.3f"]: the latter prints the exact value of
    the double rounded to three decimals, ties to even. *)

Module Printf.

Definition nl : string := String (ascii_of_nat 10) EmptyString.

Definition fmt_d (z : Z) : string := NilZero.string_of_int (Z.to_int z).

Definition digit_char (d : Z) : ascii := ascii_of_nat (48 + Z.to_nat d).

(** [num / den] rounded to the nearest integer, for [0 <= num], [0 < den]. *)
Definition round_half_even (num den : Z) : Z :=
  let q := num / den in
  match 2 * (num mod den) ?= den with
  | Lt => q
  | Gt => q + 1
  | Eq => if Z.even q then q else q + 1
  end.

Definition fmt_thousandths (n : Z) : string :=
  (fmt_d (n / 1000) ++ "." ++
   String (digit_char (n / 100 mod 10))
     (String (digit_char (n / 10 mod 10))
        (String (digit_char (n mod 10)) EmptyString)))%string.

Definition fmt_3f (x : float) : string :=
  match Prim2SF x with
  | S754_nan => "nan"%string
  | S754_infinity s => if s then "-inf"%string else "inf"%string
  | S754_zero s => if s then "-0.000"%string else "0.000"%string
  | S754_finite s m e =>
      let n := match e with
               | Zneg p => round_half_even (Zpos m * 1000) (2 ^ Zpos p)
               | _ => Zpos m * 2 ^ e * 1000
               end in
      ((if s then "-" else "") ++ fmt_thousandths n)%string
  end.

(** [printf("%.3f", x)] when the sign bit of [x], should it be a NaN, is
    [negative]; [fmt_3f] shows a NaN whose sign bit is clear. *)
Definition fmt_3f_signed (negative : bool) (x : float) : string :=
  if is_nan x then (if negative then "-nan"%string else "nan"%string)
  else fmt_3f x.

End Printf.

(** What [print_statistics] writes to the standard output; [nan_sign] is
    the environment's [env_nan_sign]. *)
Definition print_statistics (nan_sign : nat -> bool) (size capacity : Z)
    (mean median mode stddev harmonic_mean : float) : string :=
  ("Results:" ++ Printf.nl ++ "--------" ++ Printf.nl ++
   "Num values: " ++ Printf.fmt_d size ++ Printf.nl ++
   "Mean: " ++ Printf.fmt_3f_signed (nan_sign 0%nat) mean ++ Printf.nl ++
   "Median: " ++ Printf.fmt_3f_signed (nan_sign 1%nat) median ++ Printf.nl ++
   "Mode: " ++ Printf.fmt_3f_signed (nan_sign 2%nat) mode ++ Printf.nl ++
   "Standard Deviation: " ++ Printf.fmt_3f_signed (nan_sign 3%nat) stddev ++ Printf.nl ++
   "Harmonic Mean: " ++ Printf.fmt_3f_signed (nan_sign 4%nat) harmonic_mean ++ Printf.nl ++
   "Unused array capacity: " ++ Printf.fmt_d (CInt.sub capacity size) ++ Printf.nl)%string.

(** ** The driver

    [main] yields the exit status, what was written to the standard output,
    and the buffer as it was when the report was made ([None] when no report
    was made).  [fuel] is the budget of [babylonian_sqrt]. *)
Definition main (fuel : nat) (env : environment) (argv : list string)
  : outcome (Z * string * option DynamicArray) :=
  match argv with
  | [_; filename] =>
      match create_dynamic_array (env_alloc env) 20 with
      | None => Ret (EXIT_FAILURE, EmptyString, None)
      | Some data_array =>
          r <~ read_data_from_file env filename data_array ;
          let '(ok, data_array) := r in
          if ok =? 0 then Ret (EXIT_FAILURE, EmptyString, None)
          else
            data_array <~ sort_array data_array ;
            mean <~ compute_mean data_array ;
            median <~ compute_median data_array ;
            mode <~ compute_mode data_array ;
            stddev <~ compute_stddev fuel data_array mean ;
            harmonic_mean <~ compute_harmonic_mean data_array ;
            Ret (EXIT_SUCCESS,
                 print_statistics (env_nan_sign env)
                   (size data_array) (capacity data_array)
                   mean median mode stddev harmonic_mean,
                 Some data_array)
      end
  | _ => Ret (EXIT_FAILURE, EmptyString, None)
  end.

(** An environment for the examples: every request up to [limit] bytes is
    served, fresh slots hold zero, [realloc(p, 0)] frees [p], numerals are
    decimal, and a NaN in the report has its sign bit set. *)
Definition example_alloc (limit : Z) : allocator :=
  {| grants := fun bytes => bytes <=? limit; junk := 0%float;
     realloc_zero := ZeroFree |}.

Definition example_env (limit : Z) (name contents : string) : environment :=
  {| env_alloc := example_alloc limit;
     env_files := fun f => if String.eqb f name
                           then Some (list_ascii_of_string contents) else None;
     env_fscanf_lf := Scan.fscanf_lf;
     env_nan_sign := fun _ => true |}.

(** ** The specification's wording, as definitions

    These follow the text of the specification, not the code; the theorems
    below compare the two. *)

Module Spec.

(** The sum of a list of doubles, added from left to right. *)
Definition fsum (l : list float) : float := fold_left PrimFloat.add l 0%float.

Definition count (l : list float) : float := Double.of_int (Z.of_nat (length l)).

(** "arithmetic mean = sum(values) / size" *)
Definition mean (values : list float) : float :=
  (fsum values / count values)%float.

(** "size / (sum of 1/value over all values)" *)
Definition harmonic_mean (values : list float) : float :=
  (count values / fsum (map (fun v => 1 / v) values))%float.

(** "mean of squared deviations from the mean", divisor = size *)
Definition variance (values : list float) (mean : float) : float :=
  (fsum (map (fun v => (v - mean) * (v - mean)) values) / count values)%float.

(** "population standard deviation = sqrt(mean of squared deviations)",
    with the correctly rounded square root of IEEE-754. *)
Definition stddev (values : list float) : float :=
  PrimFloat.sqrt (variance values (mean values)).

(** The runs of adjacent equal elements, each with its value and length. *)
Fixpoint runs (l : list float) : list (float * Z) :=
  match l with
  | [] => []
  | x :: l' =>
      match runs l' with
      | (y, n) :: rs => if (x =? y)%float then (x, n + 1) :: rs
                        else (x, 1) :: (y, n) :: rs
      | [] => [(x, 1)]
      end
  end.

(** The first run of greatest length: a later run replaces the best one
    only when it is strictly longer. *)
Fixpoint longest (rs : list (float * Z)) (best : float * Z) : float * Z :=
  match rs with
  | [] => best
  | r :: rs' => longest rs' (if snd best <? snd r then r else best)
  end.

Definition mode (values : list float) : option float :=
  match runs values with
  | [] => None
  | r :: rs => Some (fst (longest rs r))
  end.

(** "the smallest power of two >= N" *)
Definition smallest_pow2_geq (c N : Z) : Prop :=
  (exists k, 0 <= k /\ c = 2 ^ k) /\ N <= c /\
  (forall k, 0 <= k -> N <= 2 ^ k -> c <= 2 ^ k).

(** "0 <= size <= capacity" *)
Definition invariant (array : DynamicArray) : Prop :=
  0 <= size array <= capacity array.

End Spec.

(** A buffer is well formed when, besides the invariant, its block has
    exactly [capacity] slots and the capacity is an [int]. *)
Definition well_formed (array : DynamicArray) : Prop :=
  Spec.invariant array /\
  Z.of_nat (length (data array)) = capacity array /\
  capacity array <= CInt.INT_MAX.

(** [has_sign s x]: [x] is not a NaN and its sign bit is [s]. *)
Definition has_sign (s : bool) (x : spec_float) : Prop :=
  match x with
  | S754_zero s' | S754_infinity s' | S754_finite s' _ _ => s' = s
  | S754_nan => False
  end.

(** [before compar a b]: the comparison function lets [a] stand before
    [b]. *)
Definition before (compar : float -> float -> Z) (a b : float) : Prop :=
  compar a b <= 0.

(** Neighbours in the list are in order as the comparison function sees
    it. *)
Fixpoint in_order (compar : float -> float -> Z) (l : list float) : Prop :=
  match l with
  | x :: ((y :: _) as l') => compar x y <= 0 /\ in_order compar l'
  | _ => True
  end.

(** A key for the order of doubles: an integer that grows with the double.
    Finite doubles are ranked by exponent, then mantissa; the two zeros
    share the key 0; NaN has no place in the order and gets 0 as well. *)
Definition order_key (x : spec_float) : Z :=
  match x with
  | S754_zero _ => 0
  | S754_infinity s => if s then - (3000 * 2 ^ 53) else 3000 * 2 ^ 53
  | S754_nan => 0
  | S754_finite s m e =>
      let k := (e + 1075) * 2 ^ 53 + Zpos m in
      if s then - k else k
  end.

(** [x <= y] on doubles, as a relation. *)
Definition double_le (x y : float) : Prop := (x <=? y)%float = true.

(** The block an append writes into: the old one, or the old one extended
    to twice the capacity when the buffer was full; and the capacity that
    goes with it. *)
Definition grown (alloc : allocator) (array : DynamicArray) : block :=
  if size array =? capacity array
  then resize (Z.to_nat (2 * capacity array)) (junk alloc) (data array)
  else data array.

Definition grown_capacity (array : DynamicArray) : Z :=
  if size array =? capacity array then 2 * capacity array else capacity array.

(** The capacity of a buffer that started with capacity 1 and grew by
    doubling: a power of two, and the previous power of two was too small
    for the elements held now. *)
Definition doubled (array : DynamicArray) : Prop :=
  exists k, 0 <= k /\ capacity array = 2 ^ k /\ (k = 0 \/ 2 ^ (k - 1) < size array).


(** The capacity of a buffer that started with capacity [c0] and grew by
    doubling: [c0 * 2^k], where the previous capacity was too small for the
    elements held now. *)
Definition grown_from (c0 : Z) (array : DynamicArray) : Prop :=
  exists k, 0 <= k /\ capacity array = c0 * 2 ^ k /\
            (k = 0 \/ c0 * 2 ^ (k - 1) < size array).

(** The variables [x] and [y] of [babylonian_sqrt] after [k] passes through
    the body of its loop, if the loop condition held before each of them. *)
Fixpoint babylonian_after (k : nat) (value x y e : float) : option (float * float) :=
  match k with
  | O => Some (x, y)
  | S k' =>
      if (e <? x - y)%float then
        let x := ((x + y) / 2)%float in
        let y := (value / x)%float in
        babylonian_after k' value x y e
      else None
  end.

(** ** Ownership of storage

    The same program, with the blocks it obtains and releases tracked: a
    block is a number in [live] from the [malloc] or [realloc] that returns
    it to the [free] or [realloc] that takes it back, and [streams] counts
    the open files.  Releasing a block that is not live is a fault.  The
    contents of the buffer are computed by the definitions above. *)

Module Mem.

Record memory : Type := {
  live : list nat;     (* the blocks allocated and not yet freed *)
  fresh : nat;         (* the next block to hand out *)
  streams : nat        (* the number of open files *)
}.

Definition empty : memory := {| live := []; fresh := 0; streams := 0 |}.

Inductive result (A : Type) : Type :=
| Done (a : A) (m : memory)        (* normal completion *)
| Exited (status : Z) (m : memory) (* the process ended through [exit] *)
| Fault                            (* undefined behaviour *)
| OutOfFuel.                       (* the iteration budget ran out *)

Arguments Done {A} a m.
Arguments Exited {A} status m.
Arguments Fault {A}.
Arguments OutOfFuel {A}.

Definition bind {A B : Type} (c : memory -> result A) (k : A -> memory -> result B)
  : memory -> result B :=
  fun m =>
    match c m with
    | Done a m' => k a m'
    | Exited s m' => Exited s m'
    | Fault => Fault
    | OutOfFuel => OutOfFuel
    end.

Notation "x <~~ c ; k" := (bind c (fun x => k))
  (at level 20, c at level 100, k at level 200).

Definition ret {A : Type} (a : A) : memory -> result A := fun m => Done a m.

Definition exit {A : Type} (status : Z) : memory -> result A :=
  fun m => Exited status m.

(** A computation that touches no storage. *)
Definition lift {A : Type} (c : outcome A) : memory -> result A :=
  fun m =>
    match c with
    | Ret a => Done a m
    | Exit s => Exited s m
    | Undef => Fault
    | Loops => OutOfFuel
    end.

(** What is left of a result when the memory is forgotten. *)
Definition forget {A : Type} (r : result A) : outcome A :=
  match r with
  | Done a _ => Ret a
  | Exited s _ => Exit s
  | Fault => Undef
  | OutOfFuel => Loops
  end.

(** [malloc]: the pointer and the block, or NULL. *)
Definition allocate (alloc : allocator) (bytes : Z)
  : memory -> result (option (nat * block)) :=
  fun m =>
    match malloc alloc bytes with
    | Some b =>
        Done (Some (fresh m, b))
             {| live := fresh m :: live m; fresh := S (fresh m); streams := streams m |}
    | None => Done None m
    end.

(** [free]. *)
Definition release (p : nat) : memory -> result unit :=
  fun m =>
    if in_dec Nat.eq_dec p (live m)
    then Done tt {| live := List.remove Nat.eq_dec p (live m);
                    fresh := fresh m; streams := streams m |}
    else Fault.

(** [realloc]: on success the old block is taken back and a new one handed
    out; on failure the old block stays as it is, unless the request was
    for zero bytes and the library frees the block then. *)
Definition reallocate (alloc : allocator) (p : nat) (old : block) (bytes : Z)
  : memory -> result (option (nat * block)) :=
  fun m =>
    if in_dec Nat.eq_dec p (live m) then
      match realloc alloc old bytes with
      | Moved b =>
          Done (Some (fresh m, b))
               {| live := fresh m :: List.remove Nat.eq_dec p (live m);
                  fresh := S (fresh m); streams := streams m |}
      | Refused => Done None m
      | Released =>
          Done None {| live := List.remove Nat.eq_dec p (live m);
                       fresh := fresh m; streams := streams m |}
      end
    else Fault.

Definition open_stream : memory -> result unit :=
  fun m => Done tt {| live := live m; fresh := fresh m; streams := S (streams m) |}.

(** [fclose]. *)
Definition close_stream : memory -> result unit :=
  fun m =>
    match streams m with
    | O => Fault
    | S n => Done tt {| live := live m; fresh := fresh m; streams := n |}
    end.

(** A [DynamicArray*]: the block of the struct, the block [data] points
    to, and the fields. *)
Record handle : Type := {
  self : nat;
  storage : nat;
  contents : DynamicArray
}.

Definition create_dynamic_array (alloc : allocator) (initial_capacity : Z)
  : memory -> result (option handle) :=
  a <~~ allocate alloc sizeof_DynamicArray ;
  match a with
  | None => ret None
  | Some (array, _) =>
      d <~~ allocate alloc (CInt.size_mul (CInt.to_size_t initial_capacity)
                                          Double.sizeof_double) ;
      match d with
      | None => _ <~~ release array ; ret None
      | Some (p, b) =>
          ret (Some {| self := array; storage := p;
                       contents := {| data := b; size := 0;
                                      capacity := initial_capacity |} |})
      end
  end.

Definition free_dynamic_array (array : option handle) : memory -> result unit :=
  match array with
  | Some h => _ <~~ release (storage h) ; release (self h)
  | None => ret tt
  end.

Definition resize_array_if_needed (alloc : allocator) (h : handle)
  : memory -> result handle :=
  let array := contents h in
  if size array =? capacity array then
    let new_capacity := CInt.mul 2 (capacity array) in
    r <~~ reallocate alloc (storage h) (data array)
            (CInt.size_mul (CInt.to_size_t new_capacity) Double.sizeof_double) ;
    match r with
    | None => _ <~~ free_dynamic_array (Some h) ; exit EXIT_FAILURE
    | Some (p, new_data) =>
        ret {| self := self h; storage := p;
               contents := {| data := new_data; size := size array;
                              capacity := new_capacity |} |}
    end
  else ret h.

Fixpoint read_loop (fuel : nat) (env : environment) (file : FILE) (h : handle)
  : memory -> result handle :=
  match env_fscanf_lf env file with
  | Some (value, file') =>
      match fuel with
      | O => fun _ => OutOfFuel
      | S fuel' =>
          h <~~ resize_array_if_needed (env_alloc env) h ;
          d <~~ lift (store (data (contents h)) (size (contents h)) value) ;
          read_loop fuel' env file'
            {| self := self h; storage := storage h;
               contents := {| data := d; size := CInt.add (size (contents h)) 1;
                              capacity := capacity (contents h) |} |}
      end
  | None => ret h
  end.

Definition read_data_from_file (env : environment) (filename : string) (h : handle)
  : memory -> result (Z * handle) :=
  match fopen env filename with
  | None => ret (0, h)
  | Some file =>
      _ <~~ open_stream ;
      h <~~ read_loop (length file) env file h ;
      _ <~~ close_stream ;
      ret (1, h)
  end.

Definition main (fuel : nat) (env : environment) (argv : list string)
  : memory -> result (Z * string * option DynamicArray) :=
  match argv with
  | [_; filename] =>
      data_array <~~ create_dynamic_array (env_alloc env) 20 ;
      match data_array with
      | None => ret (EXIT_FAILURE, EmptyString, None)
      | Some h =>
          r <~~ read_data_from_file env filename h ;
          let '(ok, h) := r in
          if ok =? 0 then
            _ <~~ free_dynamic_array (Some h) ;
            ret (EXIT_FAILURE, EmptyString, None)
          else
            sorted <~~ lift (sort_array (contents h)) ;
            mean <~~ lift (compute_mean sorted) ;
            median <~~ lift (compute_median sorted) ;
            mode <~~ lift (compute_mode sorted) ;
            stddev <~~ lift (compute_stddev fuel sorted mean) ;
            harmonic_mean <~~ lift (compute_harmonic_mean sorted) ;
            _ <~~ free_dynamic_array
                    (Some {| self := self h; storage := storage h; contents := sorted |}) ;
            ret (EXIT_SUCCESS,
                 print_statistics (env_nan_sign env)
                   (size sorted) (capacity sorted)
                   mean median mode stddev harmonic_mean,
                 Some sorted)
      end
  | _ => ret (EXIT_FAILURE, EmptyString, None)
  end.

(** The blocks of a buffer are the only live ones. *)
Definition owns (m : memory) (h : handle) : Prop :=
  live m = [storage h; self h] /\ storage h <> self h /\
  (storage h < fresh m)%nat /\ (self h < fresh m)%nat.

(** What holds of a step [r] that started in memory [m]: seen through
    [view], with the memory forgotten, it is the step [pure]; if it
    completes, [owned] holds of its value and the memory then; if it ends
    the process, every block has been released; and it leaves as many
    files open as it found. *)
Definition keeps_ownership {A B : Type} (m : memory) (r : result A)
    (view : A -> B) (pure : outcome B) (owned : A -> memory -> Prop) : Prop :=
  match r with
  | Done a m' => pure = Ret (view a) /\ owned a m' /\ streams m' = streams m
  | Exited s m' => pure = Exit s /\ live m' = [] /\ streams m' = streams m
  | Fault => pure = Undef
  | OutOfFuel => pure = Loops
  end.

End Mem.
(** * Properties *)

(** ** C integers *)

Lemma wrap_in_range z : CInt.in_range z -> CInt.wrap z = z.
Proof.
  unfold CInt.in_range, CInt.INT_MIN, CInt.INT_MAX, CInt.wrap. intros H.
  rewrite Z.mod_small; lia.
Qed.

Lemma wrap_range z : CInt.in_range (CInt.wrap z).
Proof.
  unfold CInt.in_range, CInt.INT_MIN, CInt.INT_MAX, CInt.wrap.
  pose proof (Z.mod_pos_bound (z + 2147483648) 4294967296 ltac:(lia)). lia.
Qed.

Lemma int_add_small a b :
  CInt.INT_MIN <= a + b <= CInt.INT_MAX -> CInt.add a b = a + b.
Proof. intros H. apply wrap_in_range, H. Qed.

Lemma int_sub_small a b :
  CInt.INT_MIN <= a - b <= CInt.INT_MAX -> CInt.sub a b = a - b.
Proof. intros H. apply wrap_in_range, H. Qed.

(** ** Loads and counted loops *)

Lemma load_lookup (b : block) (i : Z) (v : float) :
  0 <= i -> b !! Z.to_nat i = Some v -> load b i = Ret v.
Proof.
  intros Hi Hv. unfold load.
  destruct (0 <=? i) eqn:E; [ now rewrite Hv | lia ].
Qed.

Lemma load_in_bounds (b : block) (i : Z) :
  0 <= i < Z.of_nat (length b) -> exists v, b !! Z.to_nat i = Some v /\ load b i = Ret v.
Proof.
  intros Hi.
  destruct (lookup_lt_is_Some_2 b (Z.to_nat i)) as [v Hv]; [ lia | ].
  exists v. split; [ exact Hv | apply load_lookup; [ lia | exact Hv ] ].
Qed.

(** A loop that folds [f] over the slots [i, i + n) computes the fold of
    the corresponding slice of the block. *)
Lemma for_count_fold (b : block) (f : float -> float -> float) (n : nat) :
  forall (i : Z) (s : float),
    0 <= i -> (Z.to_nat i + n <= length b)%nat ->
    for_count n i (fun i s => x <~ load b i ; Ret (f s x)) s
    = Ret (fold_left f (take n (drop (Z.to_nat i) b)) s).
Proof.
  induction n as [| n IH]; intros i s Hi Hn.
  - reflexivity.
  - destruct (load_in_bounds b i) as (v & Hv & Hl); [ lia | ].
    cbn [for_count]. rewrite Hl. cbn [obind].
    rewrite IH by lia.
    rewrite (drop_S b v (Z.to_nat i) Hv).
    replace (Z.to_nat (i + 1)) with (S (Z.to_nat i)) by lia.
    reflexivity.
Qed.

Lemma for_range_fold (array : DynamicArray) (f : float -> float -> float) (s : float) :
  0 <= size array <= Z.of_nat (length (data array)) ->
  for_range 0 (size array) (fun i s => x <~ load (data array) i ; Ret (f s x)) s
  = Ret (fold_left f (elements array) s).
Proof.
  intros H. unfold for_range, elements.
  rewrite for_count_fold by lia.
  rewrite Z.sub_0_r. reflexivity.
Qed.

Lemma fold_left_map_add (g : float -> float) (l : list float) (s : float) :
  fold_left (fun acc x => (acc + g x)%float) l s = fold_left PrimFloat.add (map g l) s.
Proof.
  revert s. induction l as [| x l IH]; intros s; [ reflexivity | apply IH ].
Qed.

Lemma elements_buffer_of (values : list float) (cap : Z) :
  Z.of_nat (length values) <= cap -> elements (buffer_of values cap) = values.
Proof.
  intros H. unfold elements, buffer_of. cbn [size data].
  rewrite Nat2Z.id. rewrite take_resize_le by lia.
  rewrite resize_all. reflexivity.
Qed.

Lemma length_elements (array : DynamicArray) :
  0 <= size array <= Z.of_nat (length (data array)) ->
  Z.of_nat (length (elements array)) = size array.
Proof.
  intros H. unfold elements. rewrite length_take. lia.
Qed.

(** ** Mean and harmonic mean *)

Lemma compute_mean_elements (array : DynamicArray) :
  0 <= size array <= Z.of_nat (length (data array)) ->
  compute_mean array = Ret (Spec.mean (elements array)).
Proof.
  intros H. unfold compute_mean, Spec.mean, Spec.count, Spec.fsum.
  rewrite (for_range_fold array PrimFloat.add) by exact H.
  cbn [obind]. now rewrite length_elements.
Qed.

Lemma compute_harmonic_mean_elements (array : DynamicArray) :
  0 <= size array <= Z.of_nat (length (data array)) ->
  compute_harmonic_mean array = Ret (Spec.harmonic_mean (elements array)).
Proof.
  intros H. unfold compute_harmonic_mean, Spec.harmonic_mean, Spec.count, Spec.fsum.
  rewrite (for_range_fold array (fun s x => (s + 1 / x)%float)) by exact H.
  cbn [obind]. rewrite fold_left_map_add. now rewrite length_elements.
Qed.

(** C7.  For every non-empty buffer with no zero element,
    [compute_harmonic_mean] returns size divided by the sum of the
    reciprocals of the elements, and [compute_mean] returns their sum
    divided by size; for [1,2,3,4,5] the harmonic mean is 2.189 to within
    0.001 and the mean is 3. *)
Theorem harmonic_mean_is_size_over_reciprocals :
  (forall array : DynamicArray,
      0 < size array <= Z.of_nat (length (data array)) ->
      (forall v, In v (elements array) -> (v =? 0)%float = false) ->
      compute_harmonic_mean array = Ret (Spec.harmonic_mean (elements array)) /\
      compute_mean array = Ret (Spec.mean (elements array))) /\
  (exists h, compute_harmonic_mean (buffer_of [1; 2; 3; 4; 5]%float 20) = Ret h /\
             Double.within h (2189 # 1000) (1 # 1000) = true) /\
  compute_mean (buffer_of [1; 2; 3; 4; 5]%float 20) = Ret 3%float.
Proof.
  split; [ | split ].
  - intros array Hsize _. split.
    + apply compute_harmonic_mean_elements. lia.
    + apply compute_mean_elements. lia.
  - eexists. split; vm_compute; reflexivity.
  - vm_compute. reflexivity.
Qed.

Lemma harmonic_mean_is_size_over_reciprocals_witness :
  compute_harmonic_mean (buffer_of [2; 4; 4]%float 4)
  = Ret (Spec.harmonic_mean [2; 4; 4]%float).
Proof.
  destruct harmonic_mean_is_size_over_reciprocals as [H _].
  destruct (H (buffer_of [2; 4; 4]%float 4)) as [Hh _].
  - vm_compute. split; [ reflexivity | discriminate ].
  - intros v Hv. vm_compute in Hv.
    destruct Hv as [<- | [<- | [<- | []]]]; vm_compute; reflexivity.
  - exact Hh.
Defined.

(** ** Median *)

(** Linear arithmetic with division and remainder by a constant. *)
Ltac zdiv := Z.div_mod_to_equations; lia.

Lemma int_half (n : Z) :
  0 <= n <= CInt.INT_MAX -> CInt.div n 2 = n / 2 /\ CInt.rem n 2 = n mod 2.
Proof.
  intros H. unfold CInt.div, CInt.rem.
  rewrite Z.quot_div_nonneg, Z.rem_mod_nonneg by lia.
  split; [ | reflexivity ].
  apply wrap_in_range. unfold CInt.in_range, CInt.INT_MIN, CInt.INT_MAX in *.
  zdiv.
Qed.

(** C3.  For a buffer of even size n >= 2, [compute_median] returns the
    average of the elements at indices n/2 - 1 and n/2; for a buffer of odd
    size it returns the element at index n/2 (integer division).  The
    median of [1,2,3,4] is 2.5, printed 2.500, and that of [1,2,3] is 2,
    printed 2.000. *)
Theorem compute_median_central_elements :
  (forall array : DynamicArray,
      0 < size array <= Z.of_nat (length (data array)) ->
      size array <= CInt.INT_MAX ->
      (size array mod 2 = 0 ->
       exists a b,
         data array !! Z.to_nat (size array / 2 - 1) = Some a /\
         data array !! Z.to_nat (size array / 2) = Some b /\
         compute_median array = Ret ((a + b) / 2)%float) /\
      (size array mod 2 = 1 ->
       exists c,
         data array !! Z.to_nat (size array / 2) = Some c /\
         compute_median array = Ret c)) /\
  (compute_median (buffer_of [1; 2; 3; 4]%float 4) = Ret 2.5%float /\
   Printf.fmt_3f 2.5 = "2.500"%string) /\
  (compute_median (buffer_of [1; 2; 3]%float 3) = Ret 2%float /\
   Printf.fmt_3f 2 = "2.000"%string).
Proof.
  split; [ | split; split; vm_compute; reflexivity ].
  intros array Hsize Hmax.
  destruct (int_half (size array)) as [Hdiv Hrem]; [ lia | ].
  unfold compute_median. rewrite Hdiv, Hrem.
  split; intros Hpar.
  - assert (Hn : 2 <= size array).
    { destruct (Z.eq_dec (size array) 1) as [E | E]; [ rewrite E in Hpar; discriminate | lia ]. }
    rewrite Hpar. cbn [Z.eqb].
    rewrite int_sub_small by (unfold CInt.INT_MIN, CInt.INT_MAX in *; zdiv).
    destruct (load_in_bounds (data array) (size array / 2 - 1)) as (a & Ha & La); [ zdiv | ].
    destruct (load_in_bounds (data array) (size array / 2)) as (b & Hb & Lb); [ zdiv | ].
    exists a, b. rewrite La, Lb. auto.
  - rewrite Hpar. cbn [Z.eqb Pos.eqb].
    destruct (load_in_bounds (data array) (size array / 2)) as (c & Hc & Lc); [ zdiv | ].
    exists c. auto.
Qed.

Lemma compute_median_central_elements_witness :
  exists a b,
    data (buffer_of [1; 3; 5; 9]%float 8) !! 1%nat = Some a /\
    data (buffer_of [1; 3; 5; 9]%float 8) !! 2%nat = Some b /\
    compute_median (buffer_of [1; 3; 5; 9]%float 8) = Ret ((a + b) / 2)%float.
Proof.
  destruct compute_median_central_elements as [H _].
  destruct (H (buffer_of [1; 3; 5; 9]%float 8)) as [Heven _].
  - vm_compute. split; [ reflexivity | discriminate ].
  - vm_compute. discriminate.
  - apply Heven. reflexivity.
Defined.

(** ** Mode *)

(** C1.  The code against the claim: on the sorted buffer [1,1,2,3,3,3] the
    longest run is that of 3, yet [compute_mode] returns 1, because the run
    that ends the buffer is never compared with the best one.  On [1,1,2,2]
    both agree on 1. *)
Theorem compute_mode_drops_last_run :
  compute_mode (buffer_of [1; 1; 2; 3; 3; 3]%float 6) = Ret 1%float /\
  Spec.mode [1; 1; 2; 3; 3; 3]%float = Some 3%float /\
  compute_mode (buffer_of [1; 1; 2; 2]%float 4) = Ret 1%float /\
  Spec.mode [1; 1; 2; 2]%float = Some 1%float.
Proof. repeat split; vm_compute; reflexivity. Qed.

(** ** The square root *)

Lemma babylonian_loop_more_fuel (k : nat) (value e : float) (fuel : nat) :
  forall (x y r : float),
    babylonian_loop fuel value x y e = Ret r ->
    babylonian_loop (fuel + k) value x y e = Ret r.
Proof.
  induction fuel as [| fuel IH]; intros x y r H.
  - cbn [babylonian_loop] in H.
    destruct k; cbn [Nat.add babylonian_loop];
      destruct (e <? x - y)%float; congruence.
  - cbn [Nat.add babylonian_loop] in *.
    destruct (e <? x - y)%float; [ apply IH, H | exact H ].
Qed.

Lemma babylonian_sqrt_enough (n : nat) (value r : float) :
  babylonian_sqrt n value = Ret r ->
  forall fuel, (n <= fuel)%nat -> babylonian_sqrt fuel value = Ret r.
Proof.
  intros H fuel Hle. unfold babylonian_sqrt in *.
  replace fuel with (n + (fuel - n))%nat by lia.
  apply babylonian_loop_more_fuel, H.
Qed.

(** C8.  On 2.0 the iteration ends (four rounds are enough, and any larger
    budget gives the same result) with a result within 1e-6 of 1.41421356;
    on 0 it returns 0 at once. *)
Theorem babylonian_sqrt_of_two_and_zero :
  (exists r,
      (forall fuel, (4 <= fuel)%nat -> babylonian_sqrt fuel 2 = Ret r) /\
      Double.within r (141421356 # 100000000) (1 # 1000000) = true) /\
  (forall fuel, babylonian_sqrt fuel 0 = Ret 0%float).
Proof.
  split.
  - exists 1.4142135623746899%float. split.
    + apply babylonian_sqrt_enough. vm_compute. reflexivity.
    + vm_compute. reflexivity.
  - intros fuel. destruct fuel; vm_compute; reflexivity.
Qed.

Lemma babylonian_sqrt_of_two_and_zero_witness :
  exists r,
    babylonian_sqrt 10 2 = Ret r /\
    Double.within r (141421356 # 100000000) (1 # 1000000) = true.
Proof.
  destruct babylonian_sqrt_of_two_and_zero as [[r [Hr Hw]] _].
  exists r. split; [ apply Hr; lia | exact Hw ].
Defined.

(** ** Standard deviation *)

(** C6.  The code against the claim: for [1,2] the mean of the squared
    deviations is 0.25 and the population standard deviation is 0.5, yet
    [compute_stddev] returns 0.25.  For [1,2,3,4,5] it returns 1.414 to
    within 0.001. *)
Theorem compute_stddev_below_one :
  compute_mean (buffer_of [1; 2]%float 2) = Ret 1.5%float /\
  Spec.variance [1; 2]%float 1.5 = 0.25%float /\
  Spec.stddev [1; 2]%float = 0.5%float /\
  (forall fuel, compute_stddev fuel (buffer_of [1; 2]%float 2) 1.5 = Ret 0.25%float) /\
  (exists s, compute_stddev 10 (buffer_of [1; 2; 3; 4; 5]%float 5) 3 = Ret s /\
             Double.within s (1414 # 1000) (1 # 1000) = true).
Proof.
  repeat split; try (vm_compute; reflexivity).
  - intros fuel. destruct fuel; vm_compute; reflexivity.
  - eexists. split; vm_compute; reflexivity.
Qed.

(** ** The growable buffer *)

Lemma size_request (c : Z) :
  0 <= c <= CInt.INT_MAX ->
  CInt.size_mul (CInt.to_size_t c) Double.sizeof_double = 8 * c.
Proof.
  unfold CInt.size_mul, CInt.to_size_t, Double.sizeof_double, CInt.INT_MAX.
  intros H. rewrite (Z.mod_small c) by lia. rewrite Z.mod_small; lia.
Qed.

(** The request of a grow step from capacity [c]: either the doubled
    capacity is an [int] and 16 c bytes are asked for, or it is not and the
    request exceeds what any allocation can serve. *)
Lemma grow_request (c : Z) :
  0 <= c <= CInt.INT_MAX ->
  let bytes := CInt.size_mul (CInt.to_size_t (CInt.mul 2 c)) Double.sizeof_double in
  (2 * c <= CInt.INT_MAX /\ CInt.mul 2 c = 2 * c /\ bytes = 16 * c) \/
  (CInt.INT_MAX < 2 * c /\ CInt.PTRDIFF_MAX < bytes).
Proof.
  intros H bytes. subst bytes.
  unfold CInt.size_mul, CInt.to_size_t, CInt.mul, CInt.wrap, Double.sizeof_double,
    CInt.INT_MAX, CInt.PTRDIFF_MAX in *.
  destruct (Z_le_gt_dec (2 * c) 2147483647) as [Hs | Hb]; [ left | right ]; zdiv.
Qed.

Lemma served_bound (alloc : allocator) (bytes : Z) :
  served alloc bytes = true -> bytes <= CInt.PTRDIFF_MAX.
Proof. unfold served. intros H. apply andb_prop in H as [H _]. lia. Qed.

Lemma resize_array_no_grow (alloc : allocator) (array : DynamicArray) :
  size array <> capacity array -> resize_array_if_needed alloc array = Ret array.
Proof.
  intros H. unfold resize_array_if_needed.
  destruct (Z.eqb_spec (size array) (capacity array)); [ contradiction | reflexivity ].
Qed.

(** What a grow step does when the buffer is full and holds something. *)
Lemma resize_array_grow (alloc : allocator) (array : DynamicArray) :
  size array = capacity array -> 0 < capacity array <= CInt.INT_MAX ->
  (2 * capacity array <= CInt.INT_MAX /\
   served alloc (16 * capacity array) = true /\
   resize_array_if_needed alloc array
   = Ret {| data := resize (Z.to_nat (2 * capacity array)) (junk alloc) (data array);
            size := size array;
            capacity := 2 * capacity array |}) \/
  ((CInt.INT_MAX < 2 * capacity array \/ served alloc (16 * capacity array) = false) /\
   resize_array_if_needed alloc array = Exit EXIT_FAILURE).
Proof.
  intros Hfull Hcap. unfold resize_array_if_needed, realloc.
  rewrite Hfull, Z.eqb_refl. cbv zeta.
  destruct (grow_request (capacity array) ltac:(lia)) as [(Hs & Hm & Hb) | (Hbig & Hb)].
  - rewrite Hb, Hm.
    destruct (Z.eqb_spec (16 * capacity array) 0) as [E | _]; [ lia | ].
    destruct (served alloc (16 * capacity array)) eqn:Hserved.
    + left. repeat split; try assumption.
      do 3 f_equal. unfold Double.sizeof_double. zdiv.
    + right. auto.
  - right. split; [ auto | ].
    destruct (Z.eqb_spec (CInt.size_mul (CInt.to_size_t (CInt.mul 2 (capacity array)))
                            Double.sizeof_double) 0) as [E | _];
      [ unfold CInt.PTRDIFF_MAX in Hb; lia | ].
    destruct (served alloc _) eqn:Hserved; [ | reflexivity ].
    apply served_bound in Hserved. lia.
Qed.

(** A grow step of a buffer with capacity 0 asks for zero bytes: what it
    gets is the library's choice, and it makes no room. *)
Lemma resize_array_empty (alloc : allocator) (array : DynamicArray) :
  size array = 0 -> capacity array = 0 ->
  resize_array_if_needed alloc array
  = match realloc_zero alloc with
    | ZeroBlock => Ret {| data := []; size := 0; capacity := 0 |}
    | ZeroNull => Exit EXIT_FAILURE
    | ZeroFree => Undef
    end.
Proof.
  intros Hsize Hcap. unfold resize_array_if_needed, realloc. rewrite Hsize, Hcap.
  cbn. destruct (realloc_zero alloc); reflexivity.
Qed.

Lemma append_empty (alloc : allocator) (array : DynamicArray) (v : float) :
  size array = 0 -> capacity array = 0 ->
  append alloc array v
  = match realloc_zero alloc with
    | ZeroNull => Exit EXIT_FAILURE
    | _ => Undef
    end.
Proof.
  intros Hsize Hcap. unfold append.
  rewrite (resize_array_empty alloc array Hsize Hcap).
  destruct (realloc_zero alloc); reflexivity.
Qed.

Lemma store_ret (b b' : block) (i : Z) (v : float) :
  store b i v = Ret b' ->
  0 <= i < Z.of_nat (length b) /\ b' = <[Z.to_nat i := v]> b.
Proof.
  unfold store. destruct (0 <=? i) eqn:E1; destruct (i <? Z.of_nat (length b)) eqn:E2;
    cbn [andb]; intros H; inversion H. split; [ lia | reflexivity ].
Qed.

Lemma store_in_bounds (b : block) (i : Z) (v : float) :
  0 <= i < Z.of_nat (length b) -> store b i v = Ret (<[Z.to_nat i := v]> b).
Proof.
  intros H. unfold store.
  destruct (0 <=? i) eqn:E1; destruct (i <? Z.of_nat (length b)) eqn:E2; try lia.
  reflexivity.
Qed.

(** Every append that completes has stored the value at index [size],
    incremented [size], and doubled the capacity exactly when the buffer was
    full. *)
Lemma append_ret (alloc : allocator) (array array' : DynamicArray) (v : float) :
  Spec.invariant array -> capacity array <= CInt.INT_MAX ->
  append alloc array v = Ret array' ->
  size array < Z.of_nat (length (grown alloc array)) /\
  array' = {| data := <[Z.to_nat (size array) := v]> (grown alloc array);
              size := size array + 1;
              capacity := grown_capacity array |} /\
  (size array = capacity array ->
   0 < capacity array /\ 2 * capacity array <= CInt.INT_MAX /\
   served alloc (16 * capacity array) = true).
Proof.
  unfold Spec.invariant. intros Hinv Hmax.
  destruct (Z.eq_dec (capacity array) 0) as [Hzero | Hpos].
  { rewrite (append_empty alloc array v) by lia.
    destruct (realloc_zero alloc); discriminate. }
  unfold append, grown, grown_capacity.
  destruct (Z.eqb_spec (size array) (capacity array)) as [Hfull | Hroom].
  - destruct (resize_array_grow alloc array Hfull ltac:(lia))
      as [(Hs & Hserved & ->) | (_ & ->)]; [ | discriminate ].
    cbn [obind data size capacity].
    destruct (store _ _ _) as [d | | |] eqn:Hstore; try discriminate.
    apply store_ret in Hstore as [Hi ->]. cbn [obind]. intros [= <-].
    rewrite length_resize in Hi.
    rewrite int_add_small by (unfold CInt.INT_MIN, CInt.INT_MAX in *; lia).
    rewrite length_resize.
    repeat split; try assumption; lia.
  - rewrite resize_array_no_grow by assumption. cbn [obind].
    destruct (store _ _ _) as [d | | |] eqn:Hstore; try discriminate.
    apply store_ret in Hstore as [Hi ->]. cbn [obind]. intros [= <-].
    rewrite int_add_small by (unfold CInt.INT_MIN, CInt.INT_MAX in *; lia).
    repeat split; try assumption; lia.
Qed.

Lemma append_preserves_invariant (alloc : allocator) (array array' : DynamicArray)
    (v : float) :
  Spec.invariant array -> capacity array <= CInt.INT_MAX ->
  append alloc array v = Ret array' ->
  Spec.invariant array' /\ capacity array' <= CInt.INT_MAX.
Proof.
  intros Hinv Hmax Happ.
  destruct (append_ret alloc array array' v Hinv Hmax Happ) as (_ & -> & Hfull).
  unfold Spec.invariant, grown_capacity in *. cbn [size capacity].
  destruct (Z.eqb_spec (size array) (capacity array)) as [E | E]; [ specialize (Hfull E) | ]; lia.
Qed.

(** An append completes when the buffer is well formed and, if it is full,
    the doubled capacity is an [int] and the grow step is served. *)
Lemma append_returns (alloc : allocator) (array : DynamicArray) (v : float) :
  well_formed array ->
  (size array = capacity array ->
   0 < capacity array /\ 2 * capacity array <= CInt.INT_MAX /\
   served alloc (16 * capacity array) = true) ->
  exists array', append alloc array v = Ret array' /\ well_formed array'.
Proof.
  unfold well_formed, Spec.invariant. intros (Hinv & Hlen & Hmax) Hfull.
  unfold append.
  destruct (Z.eq_dec (size array) (capacity array)) as [E | E].
  - destruct (Hfull E) as (Hpos & Hdbl & Hserved).
    destruct (resize_array_grow alloc array E ltac:(lia))
      as [(_ & _ & ->) | ([Hbig | Hno] & _)]; [ | lia | congruence ].
    cbn [obind data size capacity].
    rewrite store_in_bounds by (rewrite length_resize; lia).
    cbn [obind]. eexists. split; [ reflexivity | ].
    cbn [data size capacity]. rewrite length_insert, length_resize.
    rewrite int_add_small by (unfold CInt.INT_MIN, CInt.INT_MAX in *; lia). lia.
  - rewrite resize_array_no_grow by assumption. cbn [obind].
    rewrite store_in_bounds by lia.
    cbn [obind]. eexists. split; [ reflexivity | ].
    cbn [data size capacity]. rewrite length_insert.
    rewrite int_add_small by (unfold CInt.INT_MIN, CInt.INT_MAX in *; lia). lia.
Qed.

(** The elements after an append are the elements before it, then the
    value. *)
Lemma append_elements (alloc : allocator) (array array' : DynamicArray) (v : float) :
  well_formed array ->
  append alloc array v = Ret array' ->
  elements array' = elements array ++ [v].
Proof.
  unfold well_formed. intros (Hinv & Hlen & Hmax) Happ.
  destruct (append_ret alloc array array' v Hinv Hmax Happ) as (Hi & -> & Hfull).
  unfold Spec.invariant in Hinv.
  unfold elements. cbn [data size].
  replace (Z.to_nat (size array + 1)) with (S (Z.to_nat (size array))) by lia.
  rewrite (take_S_r _ _ v) by (apply list_lookup_insert_eq; lia).
  rewrite take_insert_ge by lia. f_equal.
  unfold grown. destruct (Z.eqb_spec (size array) (capacity array)) as [E | E]; [ | reflexivity ].
  rewrite take_resize_le by lia. apply resize_le. lia.
Qed.

Lemma append_all_app (alloc : allocator) (vs ws : list float) :
  forall array,
    append_all alloc array (vs ++ ws)
    = (a <~ append_all alloc array vs ; append_all alloc a ws).
Proof.
  induction vs as [| v vs IH]; intros array; [ reflexivity | ].
  cbn [app append_all]. destruct (append alloc array v); cbn [obind]; auto.
Qed.

Lemma pow2_pos (k : Z) : 0 <= k -> 0 < 2 ^ k.
Proof. intros. apply Z.pow_pos_nonneg; lia. Qed.

Lemma pow2_lt_inv (j k : Z) : 0 <= j -> 0 <= k -> 2 ^ j < 2 ^ k -> j < k.
Proof. intros Hj Hk H. apply (Z.pow_lt_mono_r_iff 2); lia. Qed.

Lemma pow2_succ (k : Z) : 0 <= k -> 2 ^ (k + 1) = 2 * 2 ^ k.
Proof. intros. rewrite Z.pow_add_r by lia. lia. Qed.

(** A doubled buffer's capacity is the smallest power of two that holds its
    elements. *)
Lemma doubled_smallest (array : DynamicArray) :
  Spec.invariant array -> doubled array -> 1 <= size array ->
  Spec.smallest_pow2_geq (capacity array) (size array).
Proof.
  unfold Spec.invariant. intros Hinv (k & Hk & Hcap & Htight) Hsize.
  split; [ exists k; auto | ]. split; [ lia | ].
  intros k' Hk' Hle. rewrite Hcap.
  destruct (Z.eq_dec k 0) as [-> | Hnz].
  - pose proof (pow2_pos k' Hk'). change (2 ^ 0) with 1. lia.
  - destruct Htight as [-> | Hlt]; [ contradiction | ].
    apply Z.pow_le_mono_r; [ lia | ].
    assert (k - 1 < k') by (apply pow2_lt_inv; lia). lia.
Qed.

(** Appending a list of values to a doubled buffer: as long as the final
    size is at most 2^30 and every grow step on the way is served, all
    appends complete. *)
Lemma append_all_doubling (alloc : allocator) (values : list float) :
  forall array,
    well_formed array -> doubled array ->
    size array + Z.of_nat (length values) <= 2 ^ 30 ->
    (forall k, 0 <= k -> size array <= 2 ^ k < size array + Z.of_nat (length values) ->
               served alloc (16 * 2 ^ k) = true) ->
    exists array',
      append_all alloc array values = Ret array' /\
      well_formed array' /\ doubled array' /\
      size array' = size array + Z.of_nat (length values) /\
      elements array' = elements array ++ values.
Proof.
  induction values as [| v values IH]; intros array Hwf Hdbl HN Hserved.
  - exists array. cbn [append_all length]. rewrite app_nil_r.
    split; [ reflexivity | ]. split; [ assumption | ]. split; [ assumption | ].
    split; [ lia | reflexivity ].
  - cbn [length] in *. cbn [append_all].
    pose proof Hwf as (Hinv & Hlen & Hmax). unfold Spec.invariant in Hinv.
    pose proof Hdbl as (k & Hk & Hcap & Htight).
    destruct (append_returns alloc array v Hwf) as (array1 & Happ & Hwf1).
    { intros Hfull. pose proof (pow2_pos k Hk).
      assert (k < 30) by (apply pow2_lt_inv; lia).
      assert (2 ^ (k + 1) <= 2 ^ 30) by (apply Z.pow_le_mono_r; lia).
      rewrite pow2_succ in * by lia.
      repeat split; [ lia | unfold CInt.INT_MAX; change (2 ^ 30) with 1073741824 in *; lia | ].
      rewrite Hcap. apply Hserved; [ exact Hk | lia ]. }
    rewrite Happ. cbn [obind].
    pose proof (append_elements alloc array array1 v Hwf Happ) as Hel.
    destruct (append_ret alloc array array1 v (proj1 Hwf) Hmax Happ) as (_ & Heq & Hfull).
    assert (Hsize1 : size array1 = size array + 1) by (rewrite Heq; reflexivity).
    assert (Hcap1 : capacity array1 = grown_capacity array) by (rewrite Heq; reflexivity).
    destruct (IH array1) as (array' & Hall & Hwf' & Hdbl' & Hsize' & Hel'); try assumption.
    + unfold doubled, grown_capacity in *. rewrite Hsize1, Hcap1.
      destruct (Z.eqb_spec (size array) (capacity array)) as [E | E].
      * exists (k + 1). rewrite pow2_succ by lia.
        replace (k + 1 - 1) with k by lia. repeat split; lia.
      * exists k. repeat split; try assumption. destruct Htight; [ left | right ]; lia.
    + lia.
    + intros j Hj Hrange. apply Hserved; [ exact Hj | lia ].
    + exists array'.
      split; [ assumption | ]. split; [ assumption | ]. split; [ assumption | ].
      split; [ lia | ].
      rewrite Hel', Hel, <- app_assoc. reflexivity.
Qed.

(** A full buffer of capacity 2^30 or more cannot grow: the doubled capacity
    is not an [int], and the request that results is never served. *)
Lemma append_full_overflow (alloc : allocator) (array : DynamicArray) (v : float) :
  size array = capacity array -> 2 ^ 30 <= capacity array <= CInt.INT_MAX ->
  append alloc array v = Exit EXIT_FAILURE.
Proof.
  intros Hfull Hcap. unfold append. change (2 ^ 30) with 1073741824 in Hcap.
  destruct (resize_array_grow alloc array Hfull ltac:(lia))
    as [(Hs & _) | (_ & ->)]; [ unfold CInt.INT_MAX in *; lia | reflexivity ].
Qed.

Lemma create_dynamic_array_eq (alloc : allocator) (c : Z) :
  0 <= c <= CInt.INT_MAX ->
  create_dynamic_array alloc c
  = if served alloc sizeof_DynamicArray && served alloc (8 * c)
    then Some {| data := replicate (Z.to_nat c) (junk alloc); size := 0; capacity := c |}
    else None.
Proof.
  intros H. unfold create_dynamic_array, malloc. rewrite size_request by exact H.
  destruct (served alloc sizeof_DynamicArray); cbn [andb]; [ | reflexivity ].
  destruct (served alloc (8 * c)); [ | reflexivity ].
  do 3 f_equal. unfold Double.sizeof_double. zdiv.
Qed.

Lemma create_well_formed (alloc : allocator) (c : Z) (a : DynamicArray) :
  0 <= c <= CInt.INT_MAX ->
  create_dynamic_array alloc c = Some a ->
  size a = 0 /\ capacity a = c /\ well_formed a.
Proof.
  intros H. rewrite create_dynamic_array_eq by exact H.
  destruct (_ && _); [ | discriminate ]. intros [= <-].
  unfold well_formed, Spec.invariant. cbn [data size capacity].
  rewrite length_replicate. lia.
Qed.

(** C10.  The invariant 0 <= size <= capacity holds after creation with a
    positive capacity (size 0, capacity as requested), and every append that
    completes preserves it, whether or not it doubles the capacity.
    Creation and append do complete when their requests for storage are
    served. *)
Theorem buffer_invariant_holds :
  (forall (alloc : allocator) (c : Z),
      0 < c <= CInt.INT_MAX ->
      (served alloc sizeof_DynamicArray = true -> served alloc (8 * c) = true ->
       exists a, create_dynamic_array alloc c = Some a) /\
      (forall a, create_dynamic_array alloc c = Some a ->
                 size a = 0 /\ capacity a = c /\ Spec.invariant a)) /\
  (forall (alloc : allocator) (array array' : DynamicArray) (v : float),
      Spec.invariant array -> capacity array <= CInt.INT_MAX ->
      append alloc array v = Ret array' ->
      Spec.invariant array' /\ capacity array' <= CInt.INT_MAX /\
      (size array = capacity array -> capacity array' = 2 * capacity array)) /\
  (forall (alloc : allocator) (array : DynamicArray) (v : float),
      well_formed array ->
      (size array = capacity array ->
       0 < capacity array /\ 2 * capacity array <= CInt.INT_MAX /\
       served alloc (16 * capacity array) = true) ->
      exists array', append alloc array v = Ret array' /\ well_formed array').
Proof.
  split; [ | split ].
  - intros alloc c Hc. split.
    + intros H1 H2. rewrite create_dynamic_array_eq, H1, H2 by lia. eauto.
    + intros a Ha. destruct (create_well_formed alloc c a) as (? & ? & ? & _); auto; lia.
  - intros alloc array array' v Hinv Hmax Happ.
    destruct (append_preserves_invariant alloc array array' v Hinv Hmax Happ) as [H1 H2].
    split; [ exact H1 | ]. split; [ exact H2 | ].
    intros Hfull.
    destruct (append_ret alloc array array' v Hinv Hmax Happ) as (_ & -> & _).
    cbn [capacity]. unfold grown_capacity. rewrite Hfull, Z.eqb_refl. reflexivity.
  - apply append_returns.
Qed.

Lemma buffer_invariant_holds_witness :
  Spec.invariant {| data := [1; 2; 3; 0]%float; size := 3; capacity := 4 |}.
Proof.
  destruct buffer_invariant_holds as (_ & H & _).
  apply (H (example_alloc 1000) (buffer_of [1; 2]%float 2) _ 3%float).
  - vm_compute. split; discriminate.
  - vm_compute. discriminate.
  - vm_compute. reflexivity.
Defined.

Lemma doubled_created (alloc : allocator) (a0 : DynamicArray) :
  create_dynamic_array alloc 1 = Some a0 ->
  well_formed a0 /\ doubled a0 /\ size a0 = 0 /\ elements a0 = [].
Proof.
  intros H.
  destruct (create_well_formed alloc 1 a0) as (Hs & Hc & Hwf);
    [ unfold CInt.INT_MAX; lia | exact H | ].
  split; [ exact Hwf | ].
  split; [ exists 0; rewrite Hc; split; [ lia | split; [ reflexivity | left; reflexivity ] ] | ].
  split; [ exact Hs | ]. unfold elements. now rewrite Hs.
Qed.

Lemma load_elements (array : DynamicArray) (i : nat) (v : float) :
  elements array !! i = Some v -> load (data array) (Z.of_nat i) = Ret v.
Proof.
  unfold elements. intros H. apply lookup_take_Some in H as [H _].
  apply load_lookup; [ lia | now rewrite Nat2Z.id ].
Qed.

(** C5, as amended.  An append that completes stores the value at index
    [size] and increments [size]; it doubles the capacity exactly when the
    buffer was full.  For every N from 1 to 2^30, appending N values to a
    buffer created with capacity 1 completes when each grow step is served,
    and yields size N, the smallest power of two >= N as capacity, and the
    N values in the order appended. *)
Theorem append_doubles_when_full :
  (forall (alloc : allocator) (array array' : DynamicArray) (v : float),
      well_formed array ->
      append alloc array v = Ret array' ->
      size array' = size array + 1 /\
      load (data array') (size array) = Ret v /\
      elements array' = elements array ++ [v] /\
      (size array = capacity array ->
       capacity array' = 2 * capacity array /\
       Z.of_nat (length (data array')) = 2 * capacity array) /\
      (size array <> capacity array ->
       capacity array' = capacity array /\
       length (data array') = length (data array))) /\
  (forall (alloc : allocator) (N : Z) (values : list float) (a0 : DynamicArray),
      1 <= N <= 2 ^ 30 ->
      Z.of_nat (length values) = N ->
      create_dynamic_array alloc 1 = Some a0 ->
      (forall k, 0 <= k -> 2 ^ k < N -> served alloc (16 * 2 ^ k) = true) ->
      exists a,
        append_all alloc a0 values = Ret a /\
        size a = N /\
        Spec.smallest_pow2_geq (capacity a) N /\
        elements a = values /\
        (forall i v, values !! i = Some v -> load (data a) (Z.of_nat i) = Ret v)).
Proof.
  split.
  - intros alloc array array' v Hwf Happ.
    pose proof (append_elements alloc array array' v Hwf Happ) as Hel.
    destruct Hwf as (Hinv & Hlen & Hmax).
    destruct (append_ret alloc array array' v Hinv Hmax Happ) as (Hi & -> & Hfull).
    unfold Spec.invariant in Hinv. cbn [data size capacity] in *.
    split; [ reflexivity | ].
    split; [ apply load_lookup; [ lia | apply list_lookup_insert_eq; lia ] | ].
    split; [ exact Hel | ].
    unfold grown, grown_capacity. rewrite length_insert.
    split; intros E.
    + rewrite E, Z.eqb_refl, length_resize. split; lia.
    + destruct (Z.eqb_spec (size array) (capacity array)); [ contradiction | auto ].
  - intros alloc N values a0 HN Hlen Hcreate Hserved.
    destruct (doubled_created alloc a0 Hcreate) as (Hwf & Hdbl & Hsize & Hel).
    destruct (append_all_doubling alloc values a0 Hwf Hdbl)
      as (a & Hall & Hwf' & Hdbl' & Hsize' & Hel').
    + rewrite Hsize, Hlen. lia.
    + intros k Hk Hrange. apply Hserved; [ exact Hk | lia ].
    + rewrite Hsize, Hlen in Hsize'. rewrite Hel in Hel'. cbn [app] in Hel'.
      exists a. split; [ exact Hall | ]. split; [ lia | ].
      split; [ replace N with (size a) by lia;
               apply doubled_smallest; [ apply Hwf' | exact Hdbl' | lia ] | ].
      split; [ exact Hel' | ].
      intros i v Hv. apply load_elements. now rewrite Hel'.
Qed.

Lemma append_doubles_when_full_witness :
  exists a,
    append_all (example_alloc 1000) {| data := [0%float]; size := 0; capacity := 1 |}
      [1; 2; 3; 4; 5]%float = Ret a /\
    size a = 5 /\
    Spec.smallest_pow2_geq (capacity a) 5 /\
    elements a = [1; 2; 3; 4; 5]%float /\
    (forall i v, [1; 2; 3; 4; 5]%float !! i = Some v -> load (data a) (Z.of_nat i) = Ret v).
Proof.
  destruct append_doubles_when_full as (_ & H).
  apply (H (example_alloc 1000) 5).
  - vm_compute. split; discriminate.
  - reflexivity.
  - reflexivity.
  - intros k Hk Hlt.
    assert (k < 3) by (apply pow2_lt_inv; [ lia | lia | change (2 ^ 3) with 8; lia ]).
    assert (Hcases : k = 0 \/ k = 1 \/ k = 2) by lia.
    destruct Hcases as [-> | [-> | ->]]; reflexivity.
Defined.

Lemma example_alloc_served (limit bytes : Z) :
  bytes <= limit -> bytes <= CInt.PTRDIFF_MAX ->
  served (example_alloc limit) bytes = true.
Proof.
  intros H1 H2. unfold served, example_alloc. cbn [grants].
  apply andb_true_intro. split; lia.
Qed.

(** C5, the claim as stated fails for N = 2^30 + 1: with an allocator that
    serves every request it can, the buffer created with capacity 1 reaches
    size = capacity = 2^30, and the next append ends the process, since
    twice that capacity is not an [int]. *)
Lemma append_past_int_range :
  create_dynamic_array (example_alloc CInt.PTRDIFF_MAX) 1
  = Some {| data := [0%float]; size := 0; capacity := 1 |} /\
  append_all (example_alloc CInt.PTRDIFF_MAX)
    {| data := [0%float]; size := 0; capacity := 1 |}
    (replicate (Z.to_nat 1073741825) 1%float)
  = Exit EXIT_FAILURE.
Proof.
  split; [ reflexivity | ].
  set (alloc := example_alloc CInt.PTRDIFF_MAX).
  set (a0 := {| data := [0%float]; size := 0; capacity := 1 |}).
  set (n := Z.to_nat 1073741824).
  assert (Hn : Z.of_nat n = 1073741824) by (unfold n; apply Z2Nat.id; discriminate).
  replace (Z.to_nat 1073741825) with (S n) by (unfold n; lia).
  rewrite replicate_S_end, append_all_app.
  destruct (doubled_created alloc a0 eq_refl) as (Hwf & Hdbl & Hsize & Hel).
  destruct (append_all_doubling alloc (replicate n 1%float) a0 Hwf Hdbl)
    as (a & -> & Hwf' & Hdbl' & Hsize' & _).
  - rewrite length_replicate, Hn, Hsize. discriminate.
  - intros k Hk [_ Hlt]. rewrite length_replicate, Hn, Hsize in Hlt.
    assert (k < 30) by (apply pow2_lt_inv; [ lia | lia | exact Hlt ]).
    assert (2 ^ k <= 2 ^ 29) by (apply Z.pow_le_mono_r; lia).
    change (2 ^ 29) with 536870912 in *.
    apply example_alloc_served; unfold CInt.PTRDIFF_MAX; lia.
  - cbn [obind]. rewrite length_replicate, Hn, Hsize in Hsize'.
    pose proof Hwf' as (Hinv & _ & Hmax). unfold Spec.invariant in Hinv.
    destruct (doubled_smallest a (proj1 Hwf') Hdbl') as (_ & _ & Hmin); [ lia | ].
    specialize (Hmin 30 ltac:(lia)). rewrite Hsize' in Hmin.
    change (2 ^ 30) with 1073741824 in Hmin. specialize (Hmin ltac:(lia)).
    cbn [append_all].
    rewrite append_full_overflow; [ reflexivity | lia | change (2 ^ 30) with 1073741824; lia ].
Qed.

(** ** Signs of rounded results

    The facts about doubles that hold for every operand are derived from
    the specification of binary64 arithmetic ([SpecFloat]) that the
    primitive operations are stated to implement. *)

Lemma binary_round_aux_sign (s : bool) (m e : Z) (l : location) :
  binary_round_aux prec emax s m e l = S754_nan \/
  has_sign s (binary_round_aux prec emax s m e l).
Proof.
  unfold binary_round_aux.
  destruct (shr_fexp prec emax m e l) as [mrs e'].
  destruct (shr_fexp prec emax _ e' loc_Exact) as [mrs' e''].
  destruct (shr_m mrs'); [ right; reflexivity | | left; reflexivity ].
  destruct (e'' <=? emax - prec); right; reflexivity.
Qed.

Lemma binary_round_sign (s : bool) (m : positive) (e : Z) :
  binary_round prec emax s m e = S754_nan \/
  has_sign s (binary_round prec emax s m e).
Proof.
  unfold binary_round. destruct (shl_align m e _) as [mz ez].
  apply binary_round_aux_sign.
Qed.

(** A rounded integer is positive only if the integer is. *)
Lemma binary_normalize_positive (m e : Z) :
  SFltb (S754_zero false) (binary_normalize prec emax m e false) = true -> 0 < m.
Proof.
  destruct m as [| p | p]; cbn [binary_normalize]; intros H; [ discriminate | lia | exfalso ].
  destruct (binary_round_sign true p e) as [E | E]; [ rewrite E in H; discriminate | ].
  destruct (binary_round prec emax true p e) as [s | s | | s m' e'];
    cbn in E; subst; discriminate.
Qed.

Lemma SFsub_positive_antisym (x y : spec_float) :
  SFltb (S754_zero false) (SF64sub x y) = true ->
  SFltb (S754_zero false) (SF64sub y x) = false.
Proof.
  unfold SF64sub.
  destruct x as [sx | sx | | sx mx ex], y as [sy | sy | | sy my ey];
    try (destruct sx, sy; cbn; congruence);
    try (destruct sx; cbn; congruence);
    try (destruct sy; cbn; congruence);
    try (cbn; congruence).
  cbn [SFsub]. intros H. apply binary_normalize_positive in H.
  destruct (SFltb _ (binary_normalize _ _ _ (Z.min ey ex) _)) eqn:E; [ exfalso | reflexivity ].
  apply binary_normalize_positive in E.
  rewrite (Z.min_comm ey ex) in E. lia.
Qed.

Lemma SFltb_zero_exclusive (x : spec_float) :
  SFltb (S754_zero false) x = true -> SFltb x (S754_zero false) = false.
Proof. destruct x as [s | s | | s m e]; try destruct s; cbn; congruence. Qed.

Lemma Prim2SF_zero : Prim2SF 0%float = S754_zero false.
Proof. reflexivity. Qed.

(** ** The comparison function *)

Lemma compare_double_values (a b : float) :
  compare_double a b = -1 \/ compare_double a b = 0 \/ compare_double a b = 1.
Proof.
  unfold compare_double. cbv zeta.
  destruct (0 <? a - b)%float; destruct (a - b <? 0)%float; cbn; auto.
Qed.

Lemma compare_double_positive (a b : float) :
  0 < compare_double a b <-> (0 <? a - b)%float = true.
Proof.
  unfold compare_double. cbv zeta.
  destruct (0 <? a - b)%float eqn:Hp; destruct (a - b <? 0)%float eqn:Hn; cbn;
    split; intros H; try lia; try congruence.
  rewrite ltb_spec, Prim2SF_zero in Hp. rewrite ltb_spec, Prim2SF_zero in Hn.
  apply SFltb_zero_exclusive in Hp. congruence.
Qed.

(** When [a] compares greater than [b], [b] does not compare greater than
    [a]: this holds for all doubles, NaN and infinities included. *)
Lemma compare_double_antisym (a b : float) :
  0 < compare_double a b -> compare_double b a <= 0.
Proof.
  intros H. apply compare_double_positive in H.
  destruct (Z_le_gt_dec (compare_double b a) 0) as [Hle | Hgt]; [ exact Hle | exfalso ].
  apply Z.gt_lt, compare_double_positive in Hgt.
  rewrite ltb_spec, sub_spec, Prim2SF_zero in H, Hgt.
  apply SFsub_positive_antisym in H. congruence.
Qed.

(** ** Merge sort *)

Section MergeSort.

Variable compar : float -> float -> Z.

Lemma merge_nil_r (b1 : list float) : merge compar b1 [] = b1.
Proof. destruct b1; reflexivity. Qed.

Lemma merge_cons (x1 x2 : float) (b1 b2 : list float) :
  merge compar (x1 :: b1) (x2 :: b2)
  = if compar x1 x2 <=? 0 then x1 :: merge compar b1 (x2 :: b2)
    else x2 :: merge compar (x1 :: b1) b2.
Proof. reflexivity. Qed.

Lemma merge_perm (b1 : list float) :
  forall b2, Permutation (b1 ++ b2) (merge compar b1 b2).
Proof.
  induction b1 as [| x1 b1 IH1]; intros b2; [ destruct b2; reflexivity | ].
  induction b2 as [| x2 b2 IH2].
  - rewrite merge_nil_r, app_nil_r. reflexivity.
  - rewrite merge_cons. destruct (compar x1 x2 <=? 0).
    + cbn [app]. apply perm_skip, IH1.
    + rewrite <- IH2. symmetry. apply (Permutation_middle (x1 :: b1) b2 x2).
Qed.

Lemma msort_with_tmp_perm (depth : nat) :
  forall b, Permutation b (msort_with_tmp depth compar b).
Proof.
  induction depth as [| depth IH]; intros b; cbn [msort_with_tmp]; [ reflexivity | ].
  destruct (length b <=? 1)%nat; [ reflexivity | ].
  cbv zeta. rewrite <- merge_perm, <- !IH, take_drop. reflexivity.
Qed.

Lemma msort_with_tmp_length (depth : nat) (b : list float) :
  length (msort_with_tmp depth compar b) = length b.
Proof. symmetry. apply Permutation_length, msort_with_tmp_perm. Qed.

(** Where the elements are in order already, in the first part all
    before all in the second, merging changes nothing. *)
Lemma merge_ordered (b1 : list float) :
  forall b2,
    (forall x y, In x b1 -> In y b2 -> before compar x y) ->
    merge compar b1 b2 = b1 ++ b2.
Proof.
  induction b1 as [| x1 b1 IH]; intros b2 H; [ destruct b2; reflexivity | ].
  destruct b2 as [| x2 b2]; [ now rewrite merge_nil_r, app_nil_r | ].
  rewrite merge_cons.
  destruct (Z.leb_spec (compar x1 x2) 0) as [_ | Hgt].
  - cbn [app]. f_equal. apply IH. intros x y Hx Hy. apply H; [ right | ]; assumption.
  - exfalso. specialize (H x1 x2 (or_introl eq_refl) (or_introl eq_refl)).
    unfold before in H. lia.
Qed.

Lemma StronglySorted_app_parts (l1 l2 : list float) :
  StronglySorted (before compar) (l1 ++ l2) ->
  StronglySorted (before compar) l1 /\ StronglySorted (before compar) l2 /\
  (forall x y, In x l1 -> In y l2 -> before compar x y).
Proof.
  induction l1 as [| a l1 IH]; cbn [app]; intros H.
  - split; [ constructor | ]. split; [ exact H | intros x y [] ].
  - apply StronglySorted_inv in H as [Hrest Hhead].
    destruct (IH Hrest) as (H1 & H2 & H12).
    rewrite Forall_app in Hhead. destruct Hhead as [Ha1 Ha2].
    split; [ constructor; assumption | ]. split; [ exact H2 | ].
    intros x y [<- | Hx] Hy; [ | now apply H12 ].
    rewrite List.Forall_forall in Ha2. now apply Ha2.
Qed.

(** Sorting what is in order changes nothing. *)
Lemma msort_with_tmp_ordered (depth : nat) :
  forall b, StronglySorted (before compar) b -> msort_with_tmp depth compar b = b.
Proof.
  induction depth as [| depth IH]; intros b H; cbn [msort_with_tmp]; [ reflexivity | ].
  destruct (length b <=? 1)%nat; [ reflexivity | ].
  cbv zeta. rewrite <- (take_drop (length b / 2) b) in H.
  apply StronglySorted_app_parts in H as (H1 & H2 & H12).
  rewrite (IH _ H1), (IH _ H2), (merge_ordered _ _ H12).
  apply take_drop.
Qed.

Hypothesis compar_total : forall x y, 0 < compar x y -> compar y x <= 0.

Lemma merge_sorted (b1 : list float) :
  forall b2, Sorted (before compar) b1 -> Sorted (before compar) b2 -> Sorted (before compar) (merge compar b1 b2).
Proof.
  induction b1 as [| x1 b1 IH1]; intros b2 H1 H2; [ destruct b2; assumption | ].
  induction b2 as [| x2 b2 IH2]; [ now rewrite merge_nil_r | ].
  apply Sorted_inv in H1 as [H1 Hd1]. pose proof H2 as H2'.
  apply Sorted_inv in H2' as [H2' Hd2].
  rewrite merge_cons. destruct (Z.leb_spec (compar x1 x2) 0) as [Hle | Hgt].
  - constructor; [ apply IH1; assumption | ].
    destruct b1 as [| y1 b1]; [ constructor; exact Hle | ].
    rewrite merge_cons. apply HdRel_inv in Hd1.
    destruct (compar y1 x2 <=? 0); constructor; assumption.
  - assert (Hx : before compar x2 x1) by (apply compar_total; lia).
    constructor; [ apply IH2; assumption | ].
    destruct b2 as [| y2 b2]; [ rewrite merge_nil_r; constructor; exact Hx | ].
    rewrite merge_cons. apply HdRel_inv in Hd2.
    destruct (compar x1 y2 <=? 0); constructor; assumption.
Qed.

(** The result is in order, as far as the comparison function tells. *)
Lemma msort_with_tmp_sorted (depth : nat) :
  forall b, (length b <= depth)%nat -> Sorted (before compar) (msort_with_tmp depth compar b).
Proof.
  induction depth as [| depth IH]; intros b Hlen; cbn [msort_with_tmp].
  - destruct b; [ constructor | cbn in Hlen; lia ].
  - destruct (Nat.leb_spec (length b) 1) as [Hsmall | Hbig].
    + destruct b as [| x [| y b]]; [ constructor | repeat constructor | cbn in Hsmall; lia ].
    + cbv zeta.
      pose proof (Nat.div_mod_eq (length b) 2) as Hdiv.
      pose proof (Nat.mod_upper_bound (length b) 2 ltac:(lia)) as Hmod.
      apply merge_sorted; apply IH; rewrite ?length_take, ?length_drop; lia.
Qed.

Lemma in_order_Sorted (l : list float) : in_order compar l <-> Sorted (before compar) l.
Proof.
  induction l as [| x [| y l] IH]; cbn [in_order].
  - split; constructor.
  - split; repeat constructor.
  - split.
    + intros [Hxy Hrest]. constructor; [ now apply IH | constructor; exact Hxy ].
    + intros H. apply Sorted_inv in H as [Hrest Hd]. apply HdRel_inv in Hd.
      split; [ exact Hd | now apply IH ].
Qed.

Lemma msort_with_tmp_in_order (depth : nat) (b : list float) :
  (length b <= depth)%nat -> in_order compar (msort_with_tmp depth compar b).
Proof. intros H. apply in_order_Sorted, msort_with_tmp_sorted, H. Qed.

End MergeSort.

(** ** Sorting the buffer *)

Lemma sort_array_returns (array : DynamicArray) :
  0 <= size array <= Z.of_nat (length (data array)) ->
  sort_array array
  = Ret {| data := msort_with_tmp (Z.to_nat (size array)) compare_double (elements array)
                     ++ drop (Z.to_nat (size array)) (data array);
           size := size array;
           capacity := capacity array |}.
Proof.
  intros H. unfold sort_array, qsort, elements.
  destruct (0 <=? size array) eqn:E1; [ | lia ].
  destruct (size array <=? Z.of_nat (length (data array))) eqn:E2; [ | lia ].
  reflexivity.
Qed.

(** The buffer after sorting. *)
Lemma sort_array_elements (array : DynamicArray) :
  0 <= size array <= Z.of_nat (length (data array)) ->
  exists sorted,
    sort_array array = Ret sorted /\
    size sorted = size array /\ capacity sorted = capacity array /\
    length (data sorted) = length (data array) /\
    drop (Z.to_nat (size array)) (data sorted)
    = drop (Z.to_nat (size array)) (data array) /\
    elements sorted
    = msort_with_tmp (Z.to_nat (size array)) compare_double (elements array).
Proof.
  intros H. rewrite sort_array_returns by exact H. eexists. split; [ reflexivity | ].
  assert (Hlen : length (msort_with_tmp (Z.to_nat (size array)) compare_double
                           (elements array))
                 = Z.to_nat (size array)).
  { rewrite msort_with_tmp_length. unfold elements. rewrite length_take. lia. }
  cbn [size capacity data]. split; [ reflexivity | ]. split; [ reflexivity | ].
  split; [ rewrite length_app, Hlen, length_drop; lia | ].
  split; [ apply drop_app_length'; symmetry; exact Hlen | ].
  unfold elements at 1. cbn [size data]. apply take_app_length'. symmetry. exact Hlen.
Qed.

(** ** Ingestion *)

(** An append to a well-formed buffer with room for at least one element
    either completes or ends the process; it never leaves the block. *)
Lemma append_total (alloc : allocator) (array : DynamicArray) (v : float) :
  well_formed array -> 0 < capacity array ->
  (exists array', append alloc array v = Ret array' /\
                  well_formed array' /\ 0 < capacity array') \/
  append alloc array v = Exit EXIT_FAILURE.
Proof.
  intros Hwf Hpos. pose proof Hwf as (Hinv & Hlen & Hmax). unfold Spec.invariant in Hinv.
  destruct (Z.eq_dec (size array) (capacity array)) as [E | E].
  - destruct (resize_array_grow alloc array E ltac:(lia))
      as [(Hdbl & Hserved & _) | (_ & Hexit)].
    + left. destruct (append_returns alloc array v Hwf) as (array' & Happ & Hwf'); [ auto | ].
      exists array'. split; [ exact Happ | ]. split; [ exact Hwf' | ].
      destruct (append_ret alloc array array' v (proj1 Hwf) Hmax Happ) as (_ & -> & _).
      cbn [capacity]. unfold grown_capacity. destruct (_ =? _); lia.
    + right. unfold append. now rewrite Hexit.
  - left. destruct (append_returns alloc array v Hwf) as (array' & Happ & Hwf'); [ contradiction | ].
    exists array'. split; [ exact Happ | ]. split; [ exact Hwf' | ].
    destruct (append_ret alloc array array' v (proj1 Hwf) Hmax Happ) as (_ & -> & _).
    cbn [capacity]. unfold grown_capacity. destruct (_ =? _); lia.
Qed.

Lemma append_all_total (alloc : allocator) (values : list float) :
  forall array,
    well_formed array -> 0 < capacity array ->
    (exists array', append_all alloc array values = Ret array') \/
    append_all alloc array values = Exit EXIT_FAILURE.
Proof.
  induction values as [| v values IH]; intros array Hwf Hpos; cbn [append_all].
  - left. eauto.
  - destruct (append_total alloc array v Hwf Hpos) as [(array' & -> & Hwf' & Hpos') | ->];
      cbn [obind]; auto.
Qed.

Section ReadLoop.

Variable env : environment.
Hypothesis scan_consumes : consuming (env_fscanf_lf env).

(** Every stream decomposes into the values converted and the point where
    the conversion first fails. *)
Lemma scans_exists (file : FILE) : exists vs, scans (env_fscanf_lf env) file vs.
Proof.
  remember (length file) as n eqn:Hn.
  revert file Hn. induction n as [n IH] using lt_wf_ind. intros file ->.
  destruct (env_fscanf_lf env file) as [[v file'] |] eqn:E.
  - destruct (IH (length file') (scan_consumes _ _ _ E) file' eq_refl) as [vs Hvs].
    exists (v :: vs). econstructor; eassumption.
  - exists []. now constructor.
Qed.

Lemma scans_unique (file : FILE) (vs ws : list float) :
  scans (env_fscanf_lf env) file vs -> scans (env_fscanf_lf env) file ws -> vs = ws.
Proof.
  intros H. revert ws. induction H as [s Hs | s v s' vs Hs _ IH]; intros ws Hw.
  - inversion Hw; subst; congruence.
  - inversion Hw as [? Hs' | ? v' s'' ws' Hs' Hrest]; subst; [ congruence | ].
    rewrite Hs in Hs'. injection Hs' as <- <-. f_equal. now apply IH.
Qed.

(** The loop appends the values the stream holds, in order, and ends at
    the first conversion that fails; the budget is never exhausted. *)
Lemma read_loop_appends (file : FILE) (vs : list float) :
  scans (env_fscanf_lf env) file vs ->
  forall (fuel : nat) (array : DynamicArray),
    (length file <= fuel)%nat ->
    read_loop fuel env file array = append_all (env_alloc env) array vs.
Proof.
  induction 1 as [s Hs | s v s' vs Hs _ IH]; intros fuel array Hfuel.
  - destruct fuel; cbn [read_loop append_all]; now rewrite Hs.
  - pose proof (scan_consumes _ _ _ Hs) as Hlt.
    destruct fuel as [| fuel]; [ lia | ].
    cbn [read_loop append_all]. rewrite Hs.
    destruct (append (env_alloc env) array v); cbn [obind]; auto.
    apply IH. lia.
Qed.

Lemma read_data_from_file_opened (filename : string) (file : FILE)
    (vs : list float) (array : DynamicArray) :
  fopen env filename = Some file ->
  scans (env_fscanf_lf env) file vs ->
  read_data_from_file env filename array
  = (a <~ append_all (env_alloc env) array vs ; Ret (1, a)).
Proof.
  intros Hopen Hscans. unfold read_data_from_file. rewrite Hopen.
  now rewrite (read_loop_appends file vs Hscans).
Qed.

End ReadLoop.

(** *** The decimal scanner consumes what it converts *)

Lemma skip_space_length (s : FILE) : (length (Scan.skip_space s) <= length s)%nat.
Proof.
  induction s as [| c s IH]; cbn [Scan.skip_space]; [ lia | ].
  destruct (Scan.isspace c); cbn [length]; lia.
Qed.

Lemma scan_digits_length (s : FILE) :
  forall (acc : Z) (n : nat) (a : Z) (n' : nat) (r : FILE),
    Scan.scan_digits s acc n = (a, n', r) ->
    (length r + n' = length s + n)%nat.
Proof.
  induction s as [| c s IH]; intros acc n a n' r; cbn [Scan.scan_digits].
  - intros [= <- <- <-]. reflexivity.
  - destruct (Scan.digit_of c) as [d |].
    + intros H. apply IH in H. cbn [length]. lia.
    + intros [= <- <- <-]. reflexivity.
Qed.

Lemma scan_sign_length (s r : FILE) (neg : bool) :
  Scan.scan_sign s = (neg, r) -> (length r <= length s)%nat.
Proof.
  destruct s as [| c s]; cbn [Scan.scan_sign].
  - intros [= <- <-]. lia.
  - destruct (Ascii.eqb c "-"); [ intros [= <- <-]; cbn [length]; lia | ].
    destruct (Ascii.eqb c "+"); intros [= <- <-]; cbn [length]; lia.
Qed.

Lemma scan_fraction_length (s r : FILE) (acc a : Z) (nf : nat) :
  Scan.scan_fraction s acc = (a, nf, r) -> (length r + nf <= length s)%nat.
Proof.
  destruct s as [| c s]; cbn [Scan.scan_fraction].
  - intros [= <- <- <-]. lia.
  - destruct (Ascii.eqb c ".").
    + intros H. apply scan_digits_length in H. cbn [length]. lia.
    + intros [= <- <- <-]. lia.
Qed.

Lemma scan_exponent_length (s r : FILE) (x : Z) :
  Scan.scan_exponent s = Some (x, r) -> (length r <= length s)%nat.
Proof.
  destruct s as [| c s]; cbn [Scan.scan_exponent].
  - intros [= <- <-]. lia.
  - destruct (Ascii.eqb c "e" || Ascii.eqb c "E").
    + destruct (Scan.scan_sign s) as [neg s1] eqn:E1.
      destruct (Scan.scan_digits s1 0 0) as [[y n] s2] eqn:E2.
      apply scan_sign_length in E1. apply scan_digits_length in E2.
      destruct n; [ discriminate | ]. intros [= <- <-]. cbn [length]. lia.
    + intros [= <- <-]. lia.
Qed.

Lemma fscanf_lf_consuming : consuming Scan.fscanf_lf.
Proof.
  intros s v s'. unfold Scan.fscanf_lf.
  pose proof (skip_space_length s) as H0.
  destruct (Scan.scan_sign (Scan.skip_space s)) as [neg s1] eqn:E1.
  destruct (Scan.scan_digits s1 0 0) as [[ip ni] s2] eqn:E2.
  destruct (Scan.scan_fraction s2 ip) as [[m nf] s3] eqn:E3.
  apply scan_sign_length in E1. apply scan_digits_length in E2.
  apply scan_fraction_length in E3.
  destruct (ni + nf)%nat eqn:En; [ discriminate | ].
  destruct (Scan.scan_exponent s3) as [[x s4] |] eqn:E4; [ | discriminate ].
  apply scan_exponent_length in E4. intros [= <- <-]. lia.
Qed.

Lemma append_well_formed (alloc : allocator) (array array' : DynamicArray) (v : float) :
  well_formed array -> append alloc array v = Ret array' -> well_formed array'.
Proof.
  intros Hwf Happ. pose proof Hwf as (Hinv & Hlen & Hmax).
  destruct (append_preserves_invariant alloc array array' v Hinv Hmax Happ) as [Hinv' Hmax'].
  split; [ exact Hinv' | ]. split; [ | exact Hmax' ].
  destruct (append_ret alloc array array' v Hinv Hmax Happ) as (_ & -> & _).
  cbn [data capacity]. rewrite length_insert. unfold grown, grown_capacity.
  destruct (_ =? _); [ rewrite length_resize | ]; unfold Spec.invariant in *; lia.
Qed.

Lemma append_all_elements (alloc : allocator) (values : list float) :
  forall array array',
    well_formed array ->
    append_all alloc array values = Ret array' ->
    well_formed array' /\ elements array' = elements array ++ values.
Proof.
  induction values as [| v values IH]; intros array array' Hwf; cbn [append_all].
  - intros [= <-]. now rewrite app_nil_r.
  - destruct (append alloc array v) as [array1 | | |] eqn:Happ; try discriminate.
    cbn [obind]. intros Hall.
    destruct (IH array1 array' (append_well_formed _ _ _ _ Hwf Happ) Hall) as [Hwf' Hel].
    split; [ exact Hwf' | ].
    rewrite Hel, (append_elements alloc array array1 v Hwf Happ), <- app_assoc.
    reflexivity.
Qed.

(** C4.  [read_data_from_file] returns 0 exactly when the file cannot be
    opened.  When it can, the values the stream holds up to the first
    conversion that fails are appended in order, nothing is reported about
    the rest, and 1 is returned (unless a grow step ended the process).  For
    a file holding "10 20 20 30 abc 40" the buffer ends with the four
    values 10, 20, 20, 30, and the report shows mean, median and mode
    20.000. *)
Theorem ingestion_stops_at_first_failure :
  (forall (env : environment) (filename : string) (array : DynamicArray),
      (fopen env filename = None ->
       read_data_from_file env filename array = Ret (0, array)) /\
      (forall r array',
          read_data_from_file env filename array = Ret (r, array') ->
          (r = 0 <-> fopen env filename = None) /\ (r = 0 \/ r = 1))) /\
  (forall (env : environment) (filename : string) (file : FILE) (array : DynamicArray),
      consuming (env_fscanf_lf env) ->
      fopen env filename = Some file ->
      exists vs,
        scans (env_fscanf_lf env) file vs /\
        read_data_from_file env filename array
        = (a <~ append_all (env_alloc env) array vs ; Ret (1, a)) /\
        (well_formed array -> 0 < capacity array ->
         (exists array',
             read_data_from_file env filename array = Ret (1, array') /\
             elements array' = elements array ++ vs) \/
         read_data_from_file env filename array = Exit EXIT_FAILURE)) /\
  (let env := example_env 1000 "data.txt" "10 20 20 30 abc 40" in
   scans Scan.fscanf_lf (list_ascii_of_string "10 20 20 30 abc 40")
     [10; 20; 20; 30]%float /\
   exists array0 array sorted,
     create_dynamic_array (env_alloc env) 20 = Some array0 /\
     read_data_from_file env "data.txt" array0 = Ret (1, array) /\
     size array = 4 /\ elements array = [10; 20; 20; 30]%float /\
     compute_mean sorted = Ret 20%float /\
     compute_median sorted = Ret 20%float /\
     compute_mode sorted = Ret 20%float /\
     main 10 env ["basicstats"; "data.txt"]%string
     = Ret (EXIT_SUCCESS,
            "Results:
--------
Num values: 4
Mean: 20.000
Median: 20.000
Mode: 20.000
Standard Deviation: 7.071
Harmonic Mean: 17.143
Unused array capacity: 16
"%string,
            Some sorted)).
Proof.
  split; [ | split ].
  - intros env filename array. unfold read_data_from_file. split.
    + intros ->. reflexivity.
    + intros r array'. destruct (fopen env filename) as [file |].
      * destruct (read_loop _ _ _ _); cbn [obind]; intros [= <- <-].
        split; [ split; discriminate | auto ].
      * intros [= <- <-]. split; [ split; reflexivity | auto ].
  - intros env filename file array Hcons Hopen.
    destruct (scans_exists env Hcons file) as [vs Hvs].
    exists vs. split; [ exact Hvs | ].
    pose proof (read_data_from_file_opened env Hcons filename file vs array Hopen Hvs) as Hread.
    split; [ exact Hread | ].
    intros Hwf Hpos. rewrite Hread.
    destruct (append_all_total (env_alloc env) vs array Hwf Hpos) as [[array' Hall] | ->];
      [ left | right; reflexivity ].
    exists array'. rewrite Hall. split; [ reflexivity | ].
    now apply (append_all_elements (env_alloc env) vs array array').
  - cbv zeta. split.
    + repeat (eapply scans_value; [ vm_compute; reflexivity | ]).
      apply scans_stop. vm_compute. reflexivity.
    + do 3 eexists. repeat split; vm_compute; reflexivity.
Qed.

Lemma ingestion_stops_at_first_failure_witness :
  exists vs,
    scans Scan.fscanf_lf (list_ascii_of_string "1.5 -2e1 x 7") vs /\
    read_data_from_file (example_env 1000 "in.txt" "1.5 -2e1 x 7") "in.txt"
      (buffer_of [] 1)
    = (a <~ append_all (example_alloc 1000) (buffer_of [] 1) vs ; Ret (1, a)).
Proof.
  destruct ingestion_stops_at_first_failure as (_ & H & _).
  destruct (H (example_env 1000 "in.txt" "1.5 -2e1 x 7") "in.txt"%string
              (list_ascii_of_string "1.5 -2e1 x 7") (buffer_of [] 1))
    as (vs & Hvs & Hread & _).
  - exact fscanf_lf_consuming.
  - reflexivity.
  - exists vs. split; [ exact Hvs | exact Hread ].
Defined.

(** ** Exact subtraction near one

    The loop of [babylonian_sqrt] is entered when [value - 1.0 > 0.000001]
    holds in binary64 arithmetic.  For values up to the double [1 + 0.000001]
    the difference is either not positive or computed without rounding, which
    settles the test for all of them at once. *)

Lemma digits2_pos_bounds (m : positive) :
  2 ^ (Zpos (digits2_pos m) - 1) <= Zpos m < 2 ^ Zpos (digits2_pos m).
Proof.
  induction m as [m IH | m IH |]; cbn [digits2_pos]; [ | | cbn; lia ].
  - rewrite Pos2Z.inj_succ, (Pos2Z.inj_xI m).
    replace (Z.succ (Zpos (digits2_pos m)) - 1) with (Zpos (digits2_pos m) - 1 + 1) by lia.
    rewrite Z.pow_succ_r, Z.pow_add_r by lia. change (2 ^ 1) with 2.
    revert IH. generalize (2 ^ (Zpos (digits2_pos m) - 1)) (2 ^ Zpos (digits2_pos m)).
    intros lo hi IH. lia.
  - rewrite Pos2Z.inj_succ, (Pos2Z.inj_xO m).
    replace (Z.succ (Zpos (digits2_pos m)) - 1) with (Zpos (digits2_pos m) - 1 + 1) by lia.
    rewrite Z.pow_succ_r, Z.pow_add_r by lia. change (2 ^ 1) with 2.
    revert IH. generalize (2 ^ (Zpos (digits2_pos m) - 1)) (2 ^ Zpos (digits2_pos m)).
    intros lo hi IH. lia.
Qed.

Lemma digits2_pos_le (m : positive) (k : Z) :
  0 <= k -> Zpos m < 2 ^ k -> Zpos (digits2_pos m) <= k.
Proof.
  intros Hk H. pose proof (digits2_pos_bounds m) as [Hlo _].
  assert (Zpos (digits2_pos m) - 1 < k) by (apply pow2_lt_inv; lia). lia.
Qed.

Lemma iter_xO_value (m k : positive) :
  Zpos (Pos.iter xO m k) = Zpos m * 2 ^ Zpos k.
Proof.
  change (Pos.iter xO m k) with (shift_pos k m).
  rewrite shift_pos_correct. change (Z.pow_pos 2 k) with (2 ^ Zpos k). lia.
Qed.

Lemma iter_xO_digits (m k : positive) :
  digits2_pos (Pos.iter xO m k) = (digits2_pos m + k)%positive.
Proof.
  induction k as [| k IH] using Pos.peano_ind.
  - cbn [Pos.iter digits2_pos]. lia.
  - rewrite Pos.iter_succ. cbn [digits2_pos]. rewrite IH. lia.
Qed.

(** A mantissa of 53 digits with an exponent in range is a double as it
    stands: rounding leaves it alone. *)
Lemma binary_round_aux_canonical (s : bool) (m : positive) (e : Z) :
  Zpos (digits2_pos m) = 53 -> -1074 <= e <= 971 ->
  binary_round_aux prec emax s (Zpos m) e loc_Exact = S754_finite s m e.
Proof.
  intros Hd He. unfold binary_round_aux, shr_fexp, fexp, Zdigits2.
  rewrite Hd. cbn [shr_record_of_loc].
  replace (Z.max (53 + e - prec) (SpecFloat.emin prec emax) - e) with 0
    by (unfold prec, SpecFloat.emin, emax; lia).
  cbn [shr shr_m loc_of_shr_record round_nearest_even]. rewrite Hd.
  replace (Z.max (53 + e - prec) (SpecFloat.emin prec emax) - e) with 0
    by (unfold prec, SpecFloat.emin, emax; lia).
  cbn [shr shr_m].
  destruct (Z.leb_spec e (emax - prec)) as [_ | H]; [ reflexivity | ].
  unfold prec, emax in H. lia.
Qed.

(** A positive integer of at most 53 digits, scaled by a power of two that
    keeps it in the normal range, is represented exactly: its mantissa is
    shifted to 53 digits. *)
Lemma binary_round_exact (s : bool) (m : positive) (e : Z) :
  Zpos (digits2_pos m) < 53 ->
  -1074 <= Zpos (digits2_pos m) + e - 53 <= 971 ->
  exists m',
    binary_round prec emax s m e
    = S754_finite s m' (Zpos (digits2_pos m) + e - 53) /\
    Zpos m' = Zpos m * 2 ^ (53 - Zpos (digits2_pos m)).
Proof.
  intros Hd He. unfold binary_round, fexp, shl_align.
  replace (Z.max (Zpos (digits2_pos m) + e - prec) (SpecFloat.emin prec emax))
    with (Zpos (digits2_pos m) + e - 53) by (unfold prec, SpecFloat.emin, emax; lia).
  destruct (Zpos (digits2_pos m) + e - 53 - e) as [| k | k] eqn:Ek; try lia.
  exists (Pos.iter xO m k). split.
  - apply binary_round_aux_canonical; [ | exact He ].
    rewrite iter_xO_digits. lia.
  - rewrite iter_xO_value. f_equal. f_equal. lia.
Qed.

Lemma SFltb_above_positive (mx : positive) (ex : Z) (r : spec_float) :
  SFltb (S754_finite false mx ex) r = true -> SFltb (S754_zero false) r = true.
Proof.
  destruct r as [s | s | | s m e]; try destruct s; cbn; auto; congruence.
Qed.

Lemma valid_binary_digits (s : bool) (m : positive) (e : Z) :
  valid_binary (S754_finite s m e) = true -> Zpos m < 2 ^ 53.
Proof.
  cbn [SpecFloat.valid_binary]. unfold bounded, canonical_mantissa, fexp.
  intros H. apply andb_prop in H as [H _]. apply Z.eqb_eq in H.
  pose proof (digits2_pos_bounds m) as [_ Hhi].
  assert (Zpos (digits2_pos m) <= 53) by (unfold prec in H; lia).
  assert (2 ^ Zpos (digits2_pos m) <= 2 ^ 53) by (apply Z.pow_le_mono_r; lia).
  lia.
Qed.


Lemma compare_cont_Eq_spec (m c : positive) :
  CompareSpec (Zpos m = Zpos c) (Zpos m < Zpos c) (Zpos c < Zpos m)
    (PosDef.Pos.compare_cont Eq m c).
Proof.
  change (PosDef.Pos.compare_cont Eq m c) with (Pos.compare m c).
  destruct (Pos.compare_spec m c); constructor; lia.
Qed.

(** The order of two positive finite doubles, read off their exponents and
    mantissas. *)
Lemma SFleb_finite (m1 m2 : positive) (e1 e2 : Z) :
  SFleb (S754_finite false m1 e1) (S754_finite false m2 e2) = true ->
  e1 < e2 \/ (e1 = e2 /\ Zpos m1 <= Zpos m2).
Proof.
  unfold SFleb, SFcompare.
  destruct (Z.compare_spec e1 e2); [ | auto | discriminate ].
  destruct (compare_cont_Eq_spec m1 m2); try discriminate; intros _; right; lia.
Qed.

Lemma SFltb_finite (m1 m2 : positive) (e1 e2 : Z) :
  SFltb (S754_finite false m1 e1) (S754_finite false m2 e2) = true ->
  e1 < e2 \/ (e1 = e2 /\ Zpos m1 < Zpos m2).
Proof.
  unfold SFltb, SFcompare.
  destruct (Z.compare_spec e1 e2); [ | auto | discriminate ].
  destruct (compare_cont_Eq_spec m1 m2); try discriminate; intros _; right; lia.
Qed.

Lemma SFleb_finite_intro (m1 m2 : positive) (e1 e2 : Z) :
  e1 < e2 \/ (e1 = e2 /\ Zpos m1 <= Zpos m2) ->
  SFleb (S754_finite false m1 e1) (S754_finite false m2 e2) = true.
Proof.
  unfold SFleb, SFcompare. intros H.
  destruct (Z.compare_spec e1 e2); [ | reflexivity | lia ].
  destruct (compare_cont_Eq_spec m1 m2); try reflexivity; lia.
Qed.

Lemma shl_align_same (m : positive) (e : Z) : shl_align m e e = (m, e).
Proof. unfold shl_align. now rewrite Z.sub_diag. Qed.

Lemma shl_align_lower (m : positive) (e e' : Z) :
  e' < e ->
  exists k, Zpos k = e - e' /\ shl_align m e e' = (Pos.iter xO m k, e').
Proof.
  intros H. unfold shl_align.
  destruct (e' - e) as [| k | k] eqn:E; try lia.
  exists k. split; [ lia | reflexivity ].
Qed.

(** The test of the loop on entry, on the specification side: for a valid
    double [x] with [x <= 1 + 0.000001], [0.000001 < x - 1] is false. *)
Lemma sub_one_not_above (x : spec_float) :
  valid_binary x = true ->
  SFleb x (S754_finite false 4503604130970123 (-52)) = true ->
  SFltb (S754_finite false 4722366482869645 (-72))
        (SF64sub x (S754_finite false 4503599627370496 (-52))) = false.
Proof.
  intros Hv Hle. destruct x as [s | s | | s m e].
  - destruct s; reflexivity.
  - destruct s; [ reflexivity | discriminate ].
  - discriminate.
  - destruct (SFltb _ _) eqn:E; [ exfalso | reflexivity ].
    unfold SF64sub in E. cbn [SFsub] in E.
    pose proof (binary_normalize_positive _ _ (SFltb_above_positive _ _ _ E)) as Hpos.
    destruct s; [ cbn [cond_Zopp] in Hpos; lia | ].
    cbn [cond_Zopp] in *.
    pose proof (valid_binary_digits false m e Hv) as Hm.
    change (2 ^ 53) with 9007199254740992 in Hm.
    apply SFleb_finite in Hle. destruct Hle as [Hlt | [-> Hmc]].
    + (* a smaller exponent: the value is below 1 *)
      rewrite Z.min_l in Hpos by lia.
      rewrite shl_align_same in Hpos.
      destruct (shl_align_lower 4503599627370496 (-52) e Hlt) as (k & Hk & Hal).
      rewrite Hal in Hpos. cbn [fst] in Hpos. rewrite iter_xO_value in Hpos.
      assert (2 ^ 1 <= 2 ^ Zpos k) by (apply Z.pow_le_mono_r; lia).
      change (2 ^ 1) with 2 in *. nia.
    + (* the exponent of 1.0: the subtraction is exact *)
      rewrite Z.min_id in Hpos, E. rewrite !shl_align_same in Hpos, E.
      cbn [fst] in Hpos, E.
      destruct (Zpos m - 4503599627370496) as [| p | p] eqn:Ep; try lia.
      cbn [binary_normalize] in E.
      assert (Hd : Zpos (digits2_pos p) <= 33)
        by (apply digits2_pos_le; [ lia | change (2 ^ 33) with 8589934592; lia ]).
      destruct (binary_round_exact false p (-52)) as (m' & Hr & Hm'); [ lia | lia | ].
      rewrite Hr in E. apply SFltb_finite in E.
      destruct E as [He | [He Hlt]]; [ lia | ].
      replace (53 - Zpos (digits2_pos p)) with 20 in Hm' by lia.
      change (2 ^ 20) with 1048576 in Hm'. lia.
Qed.

Lemma Prim2SF_constants :
  Prim2SF 1 = S754_finite false 4503599627370496 (-52) /\
  Prim2SF 0.000001 = S754_finite false 4722366482869645 (-72) /\
  Prim2SF (1 + 0.000001) = S754_finite false 4503604130970123 (-52).
Proof. repeat split; vm_compute; reflexivity. Qed.

(** On entry to the loop of [babylonian_sqrt] the test fails for every
    double up to [1 + 0.000001]. *)
Lemma loop_not_entered (value : float) :
  (value <=? 1 + 0.000001)%float = true -> (0.000001 <? value - 1)%float = false.
Proof.
  destruct Prim2SF_constants as (H1 & He & Hc).
  intros H. rewrite leb_spec, Hc in H. rewrite ltb_spec, sub_spec, H1, He.
  apply sub_one_not_above; [ apply Prim2SF_valid | exact H ].
Qed.

Lemma babylonian_sqrt_not_entered (fuel : nat) (value : float) :
  (0.000001 <? value - 1)%float = false -> babylonian_sqrt fuel value = Ret value.
Proof.
  intros H. unfold babylonian_sqrt. destruct fuel; cbn [babylonian_loop]; now rewrite H.
Qed.

Lemma SFleb_negative (x : spec_float) (m : positive) (e : Z) :
  SFltb x (S754_zero false) = true -> SFleb x (S754_finite false m e) = true.
Proof.
  destruct x as [s | s | | s mx ex]; try destruct s; try discriminate; reflexivity.
Qed.

(** Negative doubles, and doubles whose exact value is at most 1 + 10^-6,
    are at most the double [1 + 0.000001]. *)
Lemma negative_below_threshold (value : float) :
  (value <? 0)%float = true -> (value <=? 1 + 0.000001)%float = true.
Proof.
  destruct Prim2SF_constants as (_ & _ & Hc).
  rewrite ltb_spec, leb_spec, Hc, Prim2SF_zero. apply SFleb_negative.
Qed.

Lemma threshold_value : (1 + (1 # 1000000) == 1000001 # 1000000)%Q.
Proof. reflexivity. Qed.

Lemma exact_value_below_threshold (value : float) (q : Q) :
  Double.to_Q value = Some q -> (q <= 1 + (1 # 1000000))%Q ->
  (value <=? 1 + 0.000001)%float = true.
Proof.
  destruct Prim2SF_constants as (_ & _ & Hc).
  unfold Double.to_Q. rewrite leb_spec, Hc.
  pose proof (Prim2SF_valid value) as Hv.
  destruct (Prim2SF value) as [s | s | | s m e]; try discriminate.
  - intros _ _. destruct s; reflexivity.
  - destruct s; [ intros _ _; reflexivity | ].
    intros Hq Hle. cbv beta iota zeta in Hq. rewrite threshold_value in Hle.
    apply SFleb_finite_intro.
    destruct (Z_lt_le_dec e (-52)) as [Hlt | Hge]; [ left; exact Hlt | right ].
    cbn [SpecFloat.valid_binary] in Hv. unfold bounded, canonical_mantissa, fexp in Hv.
    apply andb_prop in Hv as [Hcan _]. apply Z.eqb_eq in Hcan.
    unfold prec, SpecFloat.emin, emax in Hcan.
    pose proof (digits2_pos_bounds m) as [Hlo Hhi].
    destruct e as [| p | p].
    + exfalso. injection Hq as <-. unfold Qle in Hle. cbn [Qnum Qden inject_Z] in Hle.
      replace (Zpos (digits2_pos m)) with 53 in Hlo by lia.
      change (2 ^ (53 - 1)) with 4503599627370496 in Hlo. lia.
    + exfalso. injection Hq as <-. unfold Qle in Hle. cbn [Qnum Qden inject_Z] in Hle.
      replace (Zpos (digits2_pos m)) with 53 in Hlo by lia.
      change (2 ^ (53 - 1)) with 4503599627370496 in Hlo.
      pose proof (pow2_pos (Zpos p) ltac:(lia)). nia.
    + injection Hq as <-. unfold Qle in Hle. cbn [Qnum Qden] in Hle.
      rewrite Pos2Z.inj_pow in Hle.
      destruct (Z.eq_dec (Zneg p) (-52)) as [E | E].
      * split; [ exact E | ]. injection E as ->.
        change (2 ^ 52) with 4503599627370496 in Hle. lia.
      * exfalso.
        replace (Zpos (digits2_pos m)) with 53 in Hlo by lia.
        change (2 ^ (53 - 1)) with 4503599627370496 in Hlo.
        assert (Hp : 2 ^ Zpos p <= 2 ^ 51) by (apply Z.pow_le_mono_r; lia).
        change (2 ^ 51) with 2251799813685248 in Hp. nia.
Qed.

Lemma compute_stddev_elements (fuel : nat) (array : DynamicArray) (mean : float) :
  0 <= size array <= Z.of_nat (length (data array)) ->
  compute_stddev fuel array mean
  = babylonian_sqrt fuel (Spec.variance (elements array) mean).
Proof.
  intros H. unfold compute_stddev, Spec.variance, Spec.count, Spec.fsum.
  rewrite (for_range_fold array (fun s x => (s + (x - mean) * (x - mean))%float)) by exact H.
  cbn [obind]. rewrite fold_left_map_add. now rewrite length_elements.
Qed.

(** C2.  For every double up to [1 + 0.000001] -- every negative double,
    zero, and every double whose exact value is at most 1 + 10^-6 --
    [babylonian_sqrt] returns its argument unchanged, whatever the budget:
    the test [x - y > 0.000001] fails on entry.  So [compute_stddev] returns
    the mean of the squared deviations itself whenever that is at most
    [1 + 0.000001].  The double [1 + 0.000001] is the largest one whose
    exact value is at most 1 + 10^-6. *)
Theorem babylonian_sqrt_keeps_small_values :
  (forall (value : float) (fuel : nat),
      (value <=? 1 + 0.000001)%float = true ->
      babylonian_sqrt fuel value = Ret value) /\
  (forall (value : float) (q : Q) (fuel : nat),
      Double.to_Q value = Some q -> (q <= 1 + (1 # 1000000))%Q ->
      babylonian_sqrt fuel value = Ret value) /\
  (forall (value : float) (fuel : nat),
      (value <? 0)%float = true ->
      babylonian_sqrt fuel value = Ret value) /\
  (forall (fuel : nat) (array : DynamicArray) (mean : float),
      0 <= size array <= Z.of_nat (length (data array)) ->
      (Spec.variance (elements array) mean <=? 1 + 0.000001)%float = true ->
      compute_stddev fuel array mean = Ret (Spec.variance (elements array) mean)) /\
  (exists lo hi,
      Double.to_Q (1 + 0.000001) = Some lo /\
      Double.to_Q (next_up (1 + 0.000001)) = Some hi /\
      (lo <= 1 + (1 # 1000000))%Q /\ (1 + (1 # 1000000) < hi)%Q).
Proof.
  assert (H1 : forall value fuel,
             (value <=? 1 + 0.000001)%float = true ->
             babylonian_sqrt fuel value = Ret value).
  { intros value fuel H. apply babylonian_sqrt_not_entered, loop_not_entered, H. }
  split; [ exact H1 | ].
  split; [ intros value q fuel Hq Hle;
           apply H1, (exact_value_below_threshold value q Hq Hle) | ].
  split; [ intros value fuel Hneg; apply H1, negative_below_threshold, Hneg | ].
  split.
  - intros fuel array mean Hsize Hvar.
    rewrite compute_stddev_elements by exact Hsize. apply H1, Hvar.
  - eexists. eexists. split; [ vm_compute; reflexivity | ].
    split; [ vm_compute; reflexivity | ].
    split; [ vm_compute; discriminate | vm_compute; reflexivity ].
Qed.

Lemma babylonian_sqrt_keeps_small_values_witness :
  babylonian_sqrt 100 0.25 = Ret 0.25%float /\
  compute_stddev 100 (buffer_of [1; 2]%float 2) 1.5 = Ret 0.25%float.
Proof.
  destruct babylonian_sqrt_keeps_small_values as (Hsqrt & _ & _ & Hdev & _).
  split.
  - apply Hsqrt. vm_compute. reflexivity.
  - apply (Hdev 100%nat (buffer_of [1; 2]%float 2) 1.5%float).
    + vm_compute. split; discriminate.
    + vm_compute. reflexivity.
Defined.

(** ** Rounding never loses a non-zero value

    A non-zero integer multiple of a power of two not below the smallest
    subnormal rounds to a non-zero double of the same sign (or overflows to
    the infinity of that sign).  This is what makes the sign of a difference
    of two doubles tell their order. *)

Lemma shr_1_half (mrs : shr_record) :
  0 <= shr_m mrs -> shr_m (shr_1 mrs) = shr_m mrs / 2.
Proof.
  destruct mrs as [m r s]. cbn [shr_m]. intros Hm.
  destruct m as [| p | p]; [ reflexivity | | lia ].
  destruct p as [p | p |]; cbn [shr_1 shr_m].
  - rewrite (Pos2Z.inj_xI p). zdiv.
  - rewrite (Pos2Z.inj_xO p). zdiv.
  - reflexivity.
Qed.

Lemma iter_shr_1 (k : positive) :
  forall mrs : shr_record,
    0 <= shr_m mrs ->
    shr_m (SpecFloat.iter_pos shr_1 k mrs) = shr_m mrs / 2 ^ Zpos k.
Proof.
  assert (Hhalf : forall mrs, 0 <= shr_m mrs -> 0 <= shr_m (shr_1 mrs)).
  { intros mrs H. rewrite shr_1_half by exact H. apply Z.div_pos; lia. }
  induction k as [k IH | k IH |]; intros mrs Hm; cbn [SpecFloat.iter_pos];
    try pose proof (pow2_pos (Zpos k) ltac:(lia)) as Hp.
  - assert (H1 : 0 <= shr_m (shr_1 mrs)) by auto.
    assert (H2 : 0 <= shr_m (SpecFloat.iter_pos shr_1 k (shr_1 mrs))).
    { rewrite IH by exact H1. apply Z.div_pos; [ exact H1 | apply pow2_pos; lia ]. }
    rewrite IH by exact H2. rewrite IH by exact H1. rewrite shr_1_half by exact Hm.
    rewrite !Z.div_div by lia.
    f_equal. rewrite (Pos2Z.inj_xI k).
    replace (2 * Zpos k + 1) with (1 + Zpos k + Zpos k) by lia.
    rewrite !Z.pow_add_r by lia. change (2 ^ 1) with 2. lia.
  - assert (H2 : 0 <= shr_m (SpecFloat.iter_pos shr_1 k mrs)).
    { rewrite IH by exact Hm. apply Z.div_pos; [ exact Hm | apply pow2_pos; lia ]. }
    rewrite IH by exact H2. rewrite IH by exact Hm.
    rewrite Z.div_div by lia.
    f_equal. rewrite (Pos2Z.inj_xO k).
    replace (2 * Zpos k) with (Zpos k + Zpos k) by lia.
    rewrite Z.pow_add_r by lia. reflexivity.
  - rewrite shr_1_half by exact Hm. reflexivity.
Qed.

Lemma shr_record_of_loc_m (m : Z) (l : location) : shr_m (shr_record_of_loc m l) = m.
Proof. destruct l as [| []]; reflexivity. Qed.

Lemma shr_fexp_positive (m e : Z) (l : location) :
  0 < m -> -1074 <= e ->
  0 < shr_m (fst (shr_fexp prec emax m e l)) /\ -1074 <= snd (shr_fexp prec emax m e l).
Proof.
  intros Hm He. destruct m as [| p | p]; try lia.
  unfold shr_fexp, shr, fexp, Zdigits2, prec, SpecFloat.emin, emax.
  destruct (Z.max (Zpos (digits2_pos p) + e - 53) (3 - 1024 - 53) - e) as [| k | k] eqn:En;
    cbn [fst snd]; rewrite ?shr_record_of_loc_m; try (split; lia).
  rewrite iter_shr_1 by (rewrite shr_record_of_loc_m; lia).
  rewrite shr_record_of_loc_m. split; [ | lia ].
  pose proof (digits2_pos_bounds p) as [Hlo _].
  assert (Hk : Zpos k = Zpos (digits2_pos p) - 53) by lia.
  assert (2 ^ Zpos k <= 2 ^ (Zpos (digits2_pos p) - 1)) by (apply Z.pow_le_mono_r; lia).
  pose proof (pow2_pos (Zpos k) ltac:(lia)).
  apply Z.div_str_pos. lia.
Qed.

Lemma round_nearest_even_positive (m : Z) (l : location) :
  0 < m -> 0 < round_nearest_even m l.
Proof.
  intros Hm. destruct l as [| []]; cbn [round_nearest_even]; try lia.
  destruct (Z.even m); lia.
Qed.

Lemma binary_round_aux_nonzero (s : bool) (m e : Z) (l : location) :
  0 < m -> -1074 <= e ->
  (exists m' e', binary_round_aux prec emax s m e l = S754_finite s m' e') \/
  binary_round_aux prec emax s m e l = S754_infinity s.
Proof.
  intros Hm He. unfold binary_round_aux.
  pose proof (shr_fexp_positive m e l Hm He) as [H1 H2].
  destruct (shr_fexp prec emax m e l) as [mrs e']. cbn [fst snd] in H1, H2.
  pose proof (round_nearest_even_positive _ (loc_of_shr_record mrs) H1) as H3.
  pose proof (shr_fexp_positive _ e' loc_Exact H3 H2) as [H4 _].
  destruct (shr_fexp prec emax _ e' loc_Exact) as [mrs' e'']. cbn [fst] in H4.
  destruct (shr_m mrs') as [| p | p]; try lia.
  destruct (e'' <=? emax - prec); [ left; eauto | right; reflexivity ].
Qed.

Lemma binary_round_nonzero (s : bool) (m : positive) (e : Z) :
  -1074 <= e ->
  (exists m' e', binary_round prec emax s m e = S754_finite s m' e') \/
  binary_round prec emax s m e = S754_infinity s.
Proof.
  intros He. unfold binary_round, shl_align, fexp, prec, SpecFloat.emin, emax.
  destruct (Z.max (Zpos (digits2_pos m) + e - 53) (3 - 1024 - 53) - e) as [| k | k] eqn:Ek;
    apply binary_round_aux_nonzero; lia.
Qed.

(** The sign of a rounded integer is the sign of the integer. *)
Lemma binary_normalize_sign (m e : Z) :
  -1074 <= e ->
  SFltb (S754_zero false) (binary_normalize prec emax m e false) = (0 <? m) /\
  SFltb (binary_normalize prec emax m e false) (S754_zero false) = (m <? 0).
Proof.
  intros He. destruct m as [| p | p]; cbn [binary_normalize].
  - split; reflexivity.
  - destruct (binary_round_nonzero false p e He) as [(m' & e' & ->) | ->]; split; reflexivity.
  - destruct (binary_round_nonzero true p e He) as [(m' & e' & ->) | ->]; split; reflexivity.
Qed.

(** ** The order of two doubles and the sign of their difference *)

Lemma valid_binary_canonical (s : bool) (m : positive) (e : Z) :
  valid_binary (S754_finite s m e) = true ->
  -1074 <= e /\ Zpos m < 2 ^ 53 /\ (-1074 < e -> 2 ^ 52 <= Zpos m).
Proof.
  intros Hv. pose proof (valid_binary_digits s m e Hv) as Hm.
  cbn [SpecFloat.valid_binary] in Hv. unfold bounded, canonical_mantissa, fexp in Hv.
  apply andb_prop in Hv as [Hcan _]. apply Z.eqb_eq in Hcan.
  unfold prec, SpecFloat.emin, emax in Hcan.
  split; [ lia | ]. split; [ exact Hm | ].
  intros He. pose proof (digits2_pos_bounds m) as [Hlo _].
  replace (Zpos (digits2_pos m)) with 53 in Hlo by lia. exact Hlo.
Qed.

(** The mantissa of a double, scaled to a smaller or equal exponent. *)
Lemma shl_align_value (m : positive) (e ez : Z) :
  ez <= e -> Zpos (fst (shl_align m e ez)) = Zpos m * 2 ^ (e - ez).
Proof.
  intros H. destruct (Z.eq_dec ez e) as [-> | Hne].
  - rewrite shl_align_same, Z.sub_diag. cbn [fst]. change (2 ^ 0) with 1. lia.
  - destruct (shl_align_lower m e ez ltac:(lia)) as (k & Hk & ->).
    cbn [fst]. rewrite iter_xO_value, Hk. reflexivity.
Qed.

(** Two positive doubles compare as their mantissas scaled to the smaller
    of the two exponents. *)
Lemma SFcompare_positive_aligned (m1 m2 : positive) (e1 e2 : Z) :
  valid_binary (S754_finite false m1 e1) = true ->
  valid_binary (S754_finite false m2 e2) = true ->
  SFcompare (S754_finite false m1 e1) (S754_finite false m2 e2)
  = Some (Z.compare (Zpos m1 * 2 ^ (e1 - Z.min e1 e2)) (Zpos m2 * 2 ^ (e2 - Z.min e1 e2))).
Proof.
  intros H1 H2.
  apply valid_binary_canonical in H1 as (He1 & Hm1 & Hn1).
  apply valid_binary_canonical in H2 as (He2 & Hm2 & Hn2).
  change (2 ^ 53) with 9007199254740992 in *. change (2 ^ 52) with 4503599627370496 in *.
  cbn [SFcompare]. f_equal.
  destruct (Z.compare_spec e1 e2) as [-> | Hlt | Hgt].
  - rewrite Z.min_id, Z.sub_diag. change (2 ^ 0) with 1. rewrite !Z.mul_1_r.
    destruct (compare_cont_Eq_spec m1 m2) as [E | E | E]; symmetry.
    + now apply Z.compare_eq_iff.
    + now apply Z.compare_lt_iff.
    + now apply Z.compare_gt_iff.
  - rewrite Z.min_l, Z.sub_diag by lia. change (2 ^ 0) with 1. rewrite Z.mul_1_r.
    symmetry. apply Z.compare_lt_iff.
    assert (2 ^ 1 <= 2 ^ (e2 - e1)) by (apply Z.pow_le_mono_r; lia).
    change (2 ^ 1) with 2 in *. specialize (Hn2 ltac:(lia)). nia.
  - rewrite Z.min_r, Z.sub_diag by lia. change (2 ^ 0) with 1. rewrite Z.mul_1_r.
    symmetry. apply Z.compare_gt_iff.
    assert (2 ^ 1 <= 2 ^ (e1 - e2)) by (apply Z.pow_le_mono_r; lia).
    change (2 ^ 1) with 2 in *. specialize (Hn1 ltac:(lia)). nia.
Qed.

Lemma SFcompare_finite_aligned (s1 s2 : bool) (m1 m2 : positive) (e1 e2 : Z) :
  valid_binary (S754_finite s1 m1 e1) = true ->
  valid_binary (S754_finite s2 m2 e2) = true ->
  SFcompare (S754_finite s1 m1 e1) (S754_finite s2 m2 e2)
  = Some (Z.compare (cond_Zopp s1 (Zpos (fst (shl_align m1 e1 (Z.min e1 e2)))))
                    (cond_Zopp s2 (Zpos (fst (shl_align m2 e2 (Z.min e1 e2)))))).
Proof.
  intros H1 H2.
  pose proof (SFcompare_positive_aligned m1 m2 e1 e2 H1 H2) as Hpos.
  rewrite !shl_align_value by lia.
  set (A := Zpos m1 * 2 ^ (e1 - Z.min e1 e2)) in *.
  set (B := Zpos m2 * 2 ^ (e2 - Z.min e1 e2)) in *.
  assert (HA : 0 < A).
  { unfold A. apply Z.mul_pos_pos; [ lia | apply pow2_pos; lia ]. }
  assert (HB : 0 < B).
  { unfold B. apply Z.mul_pos_pos; [ lia | apply pow2_pos; lia ]. }
  destruct s1, s2; cbn [cond_Zopp].
  - rewrite Z.compare_opp, (Z.compare_antisym A B).
    cbn [SFcompare] in *. injection Hpos as Hpos. rewrite <- Hpos.
    f_equal. destruct (e1 ?= e2); reflexivity.
  - cbn [SFcompare]. f_equal. symmetry. apply Z.compare_lt_iff. lia.
  - cbn [SFcompare]. f_equal. symmetry. apply Z.compare_gt_iff. lia.
  - exact Hpos.
Qed.

Lemma sign_of_difference (a b : Z) :
  (0 <? a - b) = match a ?= b with Gt => true | _ => false end /\
  (a - b <? 0) = match a ?= b with Lt => true | _ => false end.
Proof.
  destruct (Z.compare_spec a b); split;
    try (apply Z.ltb_lt; lia); apply Z.ltb_ge; lia.
Qed.

(** The difference of two doubles is positive exactly when the first is
    the greater, and negative exactly when it is the smaller; this covers
    zeros, infinities and NaN. *)
Lemma SFsub_sign (x y : spec_float) :
  valid_binary x = true -> valid_binary y = true ->
  SFltb (S754_zero false) (SF64sub x y)
  = match SFcompare x y with Some Gt => true | _ => false end /\
  SFltb (SF64sub x y) (S754_zero false) = SFltb x y.
Proof.
  intros Hx Hy. unfold SF64sub.
  destruct x as [sx | sx | | sx mx ex], y as [sy | sy | | sy my ey];
    try (destruct sx, sy; split; reflexivity);
    try (destruct sx; split; reflexivity);
    try (destruct sy; split; reflexivity);
    try (split; reflexivity).
  cbn [SFsub].
  pose proof (valid_binary_canonical _ _ _ Hx) as (Hex & _).
  pose proof (valid_binary_canonical _ _ _ Hy) as (Hey & _).
  destruct (binary_normalize_sign
              (cond_Zopp sx (Zpos (fst (shl_align mx ex (Z.min ex ey))))
               - cond_Zopp sy (Zpos (fst (shl_align my ey (Z.min ex ey)))))
              (Z.min ex ey) ltac:(lia)) as [-> ->].
  unfold SFltb. rewrite (SFcompare_finite_aligned sx sy mx my ex ey Hx Hy).
  apply sign_of_difference.
Qed.

(** ** What [compare_double] computes *)

Lemma compare_cont_Eq_antisym (m1 m2 : positive) :
  PosDef.Pos.compare_cont Eq m2 m1 = CompOpp (PosDef.Pos.compare_cont Eq m1 m2).
Proof.
  change (PosDef.Pos.compare_cont Eq m2 m1) with (Pos.compare m2 m1).
  change (PosDef.Pos.compare_cont Eq m1 m2) with (Pos.compare m1 m2).
  apply Pos.compare_antisym.
Qed.

Lemma SFcompare_flip (x y : spec_float) :
  SFcompare y x = option_map CompOpp (SFcompare x y).
Proof.
  destruct x as [sx | sx | | sx mx ex], y as [sy | sy | | sy my ey];
    try (destruct sx, sy; reflexivity);
    try (destruct sx; reflexivity);
    try (destruct sy; reflexivity);
    try reflexivity.
  cbn [SFcompare option_map]. f_equal.
  rewrite (Z.compare_antisym ex ey), (compare_cont_Eq_antisym mx my).
  destruct sx, sy; try reflexivity; destruct (ex ?= ey); reflexivity.
Qed.

Lemma SFltb_flip (x y : spec_float) :
  SFltb y x = match SFcompare x y with Some Gt => true | _ => false end.
Proof.
  unfold SFltb. rewrite SFcompare_flip.
  destruct (SFcompare x y) as [[] |]; reflexivity.
Qed.

Lemma SFltb_exclusive (x y : spec_float) : SFltb x y = true -> SFltb y x = false.
Proof.
  rewrite (SFltb_flip x y). unfold SFltb. destruct (SFcompare x y) as [[] |]; congruence.
Qed.

(** [diff > 0] and [diff < 0] in [compare_double] are [b < a] and [a < b]. *)
Lemma difference_tests (a b : float) :
  (0 <? a - b)%float = (b <? a)%float /\ (a - b <? 0)%float = (a <? b)%float.
Proof.
  rewrite !ltb_spec, sub_spec, Prim2SF_zero.
  destruct (SFsub_sign (Prim2SF a) (Prim2SF b) (Prim2SF_valid a) (Prim2SF_valid b))
    as [-> ->].
  split; [ symmetry; apply SFltb_flip | reflexivity ].
Qed.

Lemma compare_double_order (a b : float) :
  compare_double a b = Z.b2z (b <? a)%float - Z.b2z (a <? b)%float.
Proof.
  unfold compare_double. cbv zeta.
  destruct (difference_tests a b) as [-> ->]. reflexivity.
Qed.

Lemma ltb_exclusive (a b : float) : (a <? b)%float = true -> (b <? a)%float = false.
Proof. rewrite !ltb_spec. apply SFltb_exclusive. Qed.

Lemma SFcompare_refl (x : spec_float) : x <> S754_nan -> SFcompare x x = Some Eq.
Proof.
  destruct x as [s | s | | s m e]; try destruct s; try reflexivity; try contradiction;
    intros _; cbn [SFcompare]; rewrite Z.compare_refl;
    change (PosDef.Pos.compare_cont Eq m m) with (Pos.compare m m);
    now rewrite Pos.compare_refl.
Qed.

Lemma is_nan_Prim2SF (a : float) : is_nan a = true <-> Prim2SF a = S754_nan.
Proof.
  unfold is_nan. rewrite FloatAxioms.eqb_spec. unfold SFeqb. split.
  - destruct (Prim2SF a) as [s | s | | s m e] eqn:E; try reflexivity;
      rewrite SFcompare_refl by discriminate; discriminate.
  - intros ->. reflexivity.
Qed.

Lemma ltb_nan (a b : float) :
  is_nan a = true \/ is_nan b = true -> (a <? b)%float = false.
Proof.
  rewrite !is_nan_Prim2SF, ltb_spec. intros [-> | ->]; [ reflexivity | ].
  destruct (Prim2SF a); reflexivity.
Qed.

(** X1.  [compare_double a b] is 1 exactly when [a > b], -1 exactly when
    [a < b], and 0 otherwise (equal values, the two zeros, or a NaN on
    either side); exchanging the arguments negates the result.  The
    subtraction it is built on never misreports the order. *)
Theorem compare_double_reports_the_order (a b : float) :
  (compare_double a b = 1 <-> (b <? a)%float = true) /\
  (compare_double a b = -1 <-> (a <? b)%float = true) /\
  (compare_double a b = 0 <-> (a <? b)%float = false /\ (b <? a)%float = false) /\
  compare_double b a = - compare_double a b /\
  (is_nan a = true \/ is_nan b = true -> compare_double a b = 0).
Proof.
  rewrite (compare_double_order a b), (compare_double_order b a).
  pose proof (ltb_exclusive a b) as Hab.
  assert (Hn : is_nan a = true \/ is_nan b = true ->
               (a <? b)%float = false /\ (b <? a)%float = false).
  { intros H. split; apply ltb_nan; tauto. }
  destruct (b <? a)%float, (a <? b)%float; cbn [Z.b2z];
    try (specialize (Hab eq_refl); discriminate);
    repeat split; intros; try lia; try discriminate; try tauto;
    destruct Hn as [? ?]; try assumption; discriminate.
Qed.

(** ** The order of doubles is a total preorder away from NaN *)

Lemma valid_binary_key (s : bool) (m : positive) (e : Z) :
  valid_binary (S754_finite s m e) = true ->
  0 < (e + 1075) * 2 ^ 53 + Zpos m < 3000 * 2 ^ 53 /\
  -1074 <= e /\ 0 < Zpos m < 2 ^ 53.
Proof.
  intros Hv. pose proof (valid_binary_canonical s m e Hv) as (He & Hm & _).
  cbn [SpecFloat.valid_binary] in Hv. unfold bounded in Hv.
  apply andb_prop in Hv as [_ Hmax]. apply Z.leb_le in Hmax. unfold emax, prec in Hmax.
  change (2 ^ 53) with 9007199254740992 in *. lia.
Qed.

(** Closes a goal that states the outcome of comparing two integers. *)
Ltac by_compare :=
  match goal with
  | |- (_ ?= _) = Lt => apply Z.compare_lt_iff
  | |- (_ ?= _) = Gt => apply Z.compare_gt_iff
  | |- (_ ?= _) = Eq => apply Z.compare_eq_iff
  end; lia.

Lemma SFcompare_order_key (x y : spec_float) :
  valid_binary x = true -> valid_binary y = true ->
  x <> S754_nan -> y <> S754_nan ->
  SFcompare x y = Some (order_key x ?= order_key y).
Proof.
  intros Hx Hy Hnx Hny.
  destruct x as [sx | sx | | sx mx ex], y as [sy | sy | | sy my ey];
    try contradiction;
    try (destruct sx, sy; reflexivity);
    try (destruct sx; reflexivity);
    try (destruct sy; reflexivity);
    try reflexivity.
  - (* zero, finite *)
    pose proof (valid_binary_key _ _ _ Hy) as (Hk & _).
    cbn [SFcompare order_key]. cbv zeta. f_equal. symmetry.
    change (2 ^ 53) with 9007199254740992 in *.
    destruct sy; by_compare.
  - (* infinity, finite *)
    pose proof (valid_binary_key _ _ _ Hy) as (Hk & _).
    cbn [SFcompare order_key]. cbv zeta. f_equal. symmetry.
    change (2 ^ 53) with 9007199254740992 in *.
    destruct sx, sy; by_compare.
  - (* finite, zero *)
    pose proof (valid_binary_key _ _ _ Hx) as (Hk & _).
    cbn [SFcompare order_key]. cbv zeta. f_equal. symmetry.
    change (2 ^ 53) with 9007199254740992 in *.
    destruct sx; by_compare.
  - (* finite, infinity *)
    pose proof (valid_binary_key _ _ _ Hx) as (Hk & _).
    cbn [SFcompare order_key]. cbv zeta. f_equal. symmetry.
    change (2 ^ 53) with 9007199254740992 in *.
    destruct sx, sy; by_compare.
  - (* finite, finite *)
    pose proof (valid_binary_key _ _ _ Hx) as (Hkx & _ & Hmx).
    pose proof (valid_binary_key _ _ _ Hy) as (Hky & _ & Hmy).
    cbn [SFcompare order_key]. cbv zeta. f_equal. symmetry.
    change (2 ^ 53) with 9007199254740992 in *.
    destruct sx, sy.
    + destruct (Z.compare_spec ex ey) as [-> | He | He];
        [ destruct (compare_cont_Eq_spec mx my); cbn [CompOpp] | | ];
        by_compare.
    + by_compare.
    + by_compare.
    + destruct (Z.compare_spec ex ey) as [-> | He | He];
        [ destruct (compare_cont_Eq_spec mx my) | | ];
        by_compare.
Qed.

Lemma SFleb_not_nan (x y : spec_float) :
  SFleb x y = true -> x <> S754_nan /\ y <> S754_nan.
Proof.
  destruct x as [sx | sx | | sx mx ex], y as [sy | sy | | sy my ey];
    try discriminate; split; discriminate.
Qed.

Lemma SFleb_order_key (x y : spec_float) :
  valid_binary x = true -> valid_binary y = true ->
  x <> S754_nan -> y <> S754_nan ->
  SFleb x y = (order_key x <=? order_key y) /\
  SFltb x y = (order_key x <? order_key y).
Proof.
  intros Hx Hy Hnx Hny. unfold SFleb, SFltb, Z.leb, Z.ltb.
  rewrite (SFcompare_order_key x y Hx Hy Hnx Hny).
  destruct (order_key x ?= order_key y); split; reflexivity.
Qed.

Lemma double_le_trans (x y z : float) :
  double_le x y -> double_le y z -> double_le x z.
Proof.
  unfold double_le. rewrite !leb_spec. intros Hxy Hyz.
  pose proof (SFleb_not_nan _ _ Hxy) as [Hnx Hny].
  pose proof (SFleb_not_nan _ _ Hyz) as [_ Hnz].
  pose proof (Prim2SF_valid x) as Hx. pose proof (Prim2SF_valid y) as Hy.
  pose proof (Prim2SF_valid z) as Hz.
  rewrite (proj1 (SFleb_order_key _ _ Hx Hy Hnx Hny)) in Hxy.
  rewrite (proj1 (SFleb_order_key _ _ Hy Hz Hny Hnz)) in Hyz.
  rewrite (proj1 (SFleb_order_key _ _ Hx Hz Hnx Hnz)). lia.
Qed.

(** Away from NaN, what [compare_double] does not call greater is less or
    equal. *)
Lemma compare_double_le (x y : float) :
  is_nan x = false -> is_nan y = false ->
  compare_double x y <= 0 -> double_le x y.
Proof.
  intros Hx Hy Hc. unfold double_le.
  assert (Hgt : (y <? x)%float = false).
  { destruct (y <? x)%float eqn:E; [ exfalso | reflexivity ].
    rewrite compare_double_order, E, (ltb_exclusive y x E) in Hc. cbn in Hc. lia. }
  assert (Hnx : Prim2SF x <> S754_nan).
  { intros H. apply is_nan_Prim2SF in H. congruence. }
  assert (Hny : Prim2SF y <> S754_nan).
  { intros H. apply is_nan_Prim2SF in H. congruence. }
  rewrite ltb_spec in Hgt. rewrite leb_spec.
  rewrite (proj2 (SFleb_order_key _ _ (Prim2SF_valid y) (Prim2SF_valid x) Hny Hnx)) in Hgt.
  rewrite (proj1 (SFleb_order_key _ _ (Prim2SF_valid x) (Prim2SF_valid y) Hnx Hny)).
  lia.
Qed.

Lemma in_order_sorted (l : list float) :
  Forall (fun v => is_nan v = false) l ->
  in_order compare_double l -> Sorted double_le l.
Proof.
  induction l as [| x l IH]; intros Hnan Hord; [ constructor | ].
  inversion Hnan as [| ? ? Hx Hl]; subst.
  destruct l as [| y l].
  - repeat constructor.
  - destruct Hord as [Hxy Hrest]. constructor; [ now apply IH | ].
    constructor. inversion Hl; subst. now apply compare_double_le.
Qed.

(** What is less or equal may stand before. *)
Lemma double_le_before (x y : float) :
  double_le x y -> before compare_double x y.
Proof.
  unfold double_le, before. intros Hle.
  rewrite compare_double_order.
  assert (Hgt : (y <? x)%float = false).
  { rewrite leb_spec in Hle. rewrite ltb_spec.
    pose proof (SFleb_not_nan _ _ Hle) as [Hnx Hny].
    rewrite (proj1 (SFleb_order_key _ _ (Prim2SF_valid x) (Prim2SF_valid y) Hnx Hny))
      in Hle.
    rewrite (proj2 (SFleb_order_key _ _ (Prim2SF_valid y) (Prim2SF_valid x) Hny Hnx)).
    lia. }
  rewrite Hgt. destruct (x <? y)%float; cbn; lia.
Qed.

(** Sorted data without a NaN are in ascending order. *)
Lemma msort_with_tmp_ascending (depth : nat) (l : list float) :
  (length l <= depth)%nat ->
  Forall (fun v => is_nan v = false) l ->
  StronglySorted double_le (msort_with_tmp depth compare_double l).
Proof.
  intros Hdepth Hnan.
  apply Sorted_StronglySorted; [ intros x y z; apply double_le_trans | ].
  apply in_order_sorted.
  - eapply Permutation_Forall; [ apply msort_with_tmp_perm | exact Hnan ].
  - apply msort_with_tmp_in_order; [ apply compare_double_antisym | exact Hdepth ].
Qed.

(** Data in ascending order are left as they are. *)
Lemma msort_with_tmp_fixed (depth : nat) (l : list float) :
  StronglySorted double_le l -> msort_with_tmp depth compare_double l = l.
Proof.
  intros H. apply msort_with_tmp_ordered.
  induction H as [| x l Hl IH Hx]; constructor; [ exact IH | ].
  eapply Forall_impl; [ | exact Hx ]. intros y. apply double_le_before.
Qed.

(** X2.  On a buffer that holds no NaN, [sort_array] completes and leaves
    the elements in ascending order: each one is [<=] every one after it.
    (With a NaN in the buffer this fails: [2, NaN, 1] is left as it is.) *)
Theorem sort_array_ascending :
  (forall array : DynamicArray,
      0 <= size array <= Z.of_nat (length (data array)) ->
      Forall (fun v => is_nan v = false) (elements array) ->
      exists sorted,
        sort_array array = Ret sorted /\
        Permutation (elements array) (elements sorted) /\
        StronglySorted double_le (elements sorted)) /\
  sort_array (buffer_of [2; nan; 1]%float 3) = Ret (buffer_of [2; nan; 1]%float 3).
Proof.
  split; [ | vm_compute; reflexivity ].
  intros array Hsize Hnan.
  destruct (sort_array_elements array Hsize) as (sorted & Hsort & _ & _ & _ & _ & Hel).
  exists sorted. split; [ exact Hsort | ]. rewrite Hel.
  split; [ apply msort_with_tmp_perm | ].
  apply msort_with_tmp_ascending; [ | exact Hnan ].
  unfold elements. rewrite length_take. lia.
Qed.

Lemma sort_array_ascending_witness :
  exists sorted,
    sort_array (buffer_of [3; 1; 2; 1]%float 6) = Ret sorted /\
    Permutation [3; 1; 2; 1]%float (elements sorted) /\
    StronglySorted double_le (elements sorted).
Proof.
  destruct sort_array_ascending as [H _].
  apply (H (buffer_of [3; 1; 2; 1]%float 6)).
  - vm_compute. split; discriminate.
  - vm_compute. repeat constructor.
Defined.

(** ** Sorting twice *)

(** C9, as amended.  For every non-empty buffer, sorting with
    [compare_double] yields a buffer of the same size and capacity whose
    elements are a permutation of the elements before (nothing added,
    removed or changed) and leaves the slots past [size] alone.  When the
    buffer holds no NaN, sorting the result again changes nothing. *)
Theorem sort_is_idempotent_permutation (array : DynamicArray) :
  0 < size array <= Z.of_nat (length (data array)) ->
  exists sorted,
    sort_array array = Ret sorted /\
    size sorted = size array /\ capacity sorted = capacity array /\
    Permutation (elements array) (elements sorted) /\
    drop (Z.to_nat (size array)) (data sorted) = drop (Z.to_nat (size array)) (data array) /\
    (Forall (fun v => is_nan v = false) (elements array) ->
     sort_array sorted = Ret sorted).
Proof.
  intros H.
  destruct (sort_array_elements array ltac:(lia))
    as (sorted & Hsort & Hsize & Hcap & Hlen & Hdrop & Hel).
  exists sorted. split; [ exact Hsort | ]. split; [ exact Hsize | ].
  split; [ exact Hcap | ].
  split; [ rewrite Hel; apply msort_with_tmp_perm | ].
  split; [ exact Hdrop | ].
  intros Hnan.
  rewrite sort_array_returns by lia.
  rewrite Hel, Hsize.
  rewrite msort_with_tmp_fixed.
  - rewrite <- Hel. unfold elements. rewrite Hsize, take_drop.
    destruct sorted as [d s c]. cbn [data size capacity] in *. subst. reflexivity.
  - apply msort_with_tmp_ascending; [ | exact Hnan ].
    unfold elements. rewrite length_take. lia.
Qed.

Lemma sort_is_idempotent_permutation_witness :
  exists sorted,
    sort_array (buffer_of [3; 1; 2; 1]%float 6) = Ret sorted /\
    size sorted = 4 /\ capacity sorted = 6 /\
    Permutation [3; 1; 2; 1]%float (elements sorted) /\
    drop 4 (data sorted) = [0; 0]%float /\
    sort_array sorted = Ret sorted.
Proof.
  destruct (sort_is_idempotent_permutation (buffer_of [3; 1; 2; 1]%float 6))
    as (sorted & H1 & H2 & H3 & H4 & H5 & H6).
  - vm_compute. split; [ reflexivity | discriminate ].
  - exists sorted. repeat (split; [ assumption | ]).
    apply H6. vm_compute. repeat constructor.
Defined.

(** With NaN among the elements a second sort may change the order again:
    [2, NaN, 1, 1, NaN, NaN] becomes [1, 2, NaN, 1, NaN, NaN], and that
    becomes [1, 1, 2, NaN, NaN, NaN]. *)
Lemma sort_twice_with_nan :
  exists sorted,
    sort_array (buffer_of [2; nan; 1; 1; nan; nan]%float 6) = Ret sorted /\
    elements sorted = [1; 2; nan; 1; nan; nan]%float /\
    sort_array sorted = Ret (buffer_of [1; 1; 2; nan; nan; nan]%float 6) /\
    sort_array sorted <> Ret sorted.
Proof.
  exists (buffer_of [1; 2; nan; 1; nan; nan]%float 6).
  split; [ vm_compute; reflexivity | ]. split; [ vm_compute; reflexivity | ].
  assert (Htwice : sort_array (buffer_of [1; 2; nan; 1; nan; nan]%float 6)
                   = Ret (buffer_of [1; 1; 2; nan; nan; nan]%float 6))
    by (vm_compute; reflexivity).
  split; [ exact Htwice | ].
  rewrite Htwice. intros H.
  apply (f_equal (fun r => match r with
                           | Ret b => (nth 1 (data b) 0 <? 1.5)%float
                           | _ => false
                           end)) in H.
  revert H. vm_compute. discriminate.
Qed.

(** ** The statistics of an empty buffer *)

Lemma compute_mean_empty (array : DynamicArray) :
  size array = 0 -> compute_mean array = Ret nan.
Proof. intros H. unfold compute_mean, for_range. rewrite H. reflexivity. Qed.

Lemma compute_median_empty (array : DynamicArray) :
  size array = 0 -> compute_median array = Undef.
Proof. intros H. unfold compute_median. rewrite H. reflexivity. Qed.

(** X3.  On a buffer with no element, [compute_mean], [compute_stddev] and
    [compute_harmonic_mean] divide zero by zero and return NaN, whatever the
    block holds and whatever mean is passed in. *)
Theorem empty_buffer_gives_nan (array : DynamicArray) (fuel : nat) (mean : float) :
  size array = 0 ->
  compute_mean array = Ret nan /\
  compute_stddev fuel array mean = Ret nan /\
  compute_harmonic_mean array = Ret nan.
Proof.
  intros H. split; [ apply compute_mean_empty, H | ].
  unfold compute_stddev, compute_harmonic_mean, for_range.
  rewrite H. cbn [Z.sub Z.opp Z.add Z.to_nat for_count obind].
  split; [ destruct fuel | ]; reflexivity.
Qed.

Lemma empty_buffer_gives_nan_witness :
  compute_mean (buffer_of [] 20) = Ret nan /\
  compute_stddev 3 (buffer_of [] 20) 7 = Ret nan /\
  compute_harmonic_mean (buffer_of [] 20) = Ret nan.
Proof. apply (empty_buffer_gives_nan (buffer_of [] 20) 3 7%float). reflexivity. Defined.

(** X4.  On a buffer with no element, [compute_median] reads the slot at
    index -1, outside the block, and [compute_mode] returns whatever slot 0
    holds (a slot that was never written), or reads outside the block when
    there is no slot at all. *)
Theorem empty_buffer_median_and_mode (array : DynamicArray) :
  size array = 0 ->
  compute_median array = Undef /\
  compute_mode array = load (data array) 0 /\
  (data array = [] -> compute_mode array = Undef).
Proof.
  intros H. split; [ apply compute_median_empty, H | ].
  unfold compute_mode, for_range. rewrite H.
  assert (Hmode : (first <~ load (data array) 0 ;
                   v <~ for_count (Z.to_nat (0 - 1)) 1 (mode_body array)
                          {| mode := first; max_count := 1; current_count := 1 |} ;
                   Ret (mode v)) = load (data array) 0).
  { destruct (load (data array) 0); reflexivity. }
  split; [ exact Hmode | ].
  intros Hd. rewrite Hmode, Hd. reflexivity.
Qed.

Lemma empty_buffer_median_and_mode_witness :
  compute_median (buffer_of [] 20) = Undef /\
  compute_mode (buffer_of [] 20) = Ret 0%float.
Proof.
  destruct (empty_buffer_median_and_mode (buffer_of [] 20) eq_refl) as (H1 & H2 & _).
  split; [ exact H1 | rewrite H2; reflexivity ].
Defined.

(** ** The driver *)

Lemma read_data_nothing_to_read (env : environment) (filename : string) (file : FILE)
    (array : DynamicArray) :
  fopen env filename = Some file ->
  env_fscanf_lf env file = None ->
  read_data_from_file env filename array = Ret (1, array).
Proof.
  intros Hopen Hscan. unfold read_data_from_file. rewrite Hopen.
  destruct (length file); cbn [read_loop]; rewrite Hscan; reflexivity.
Qed.

(** X5.  When the file opens but holds no number (it is empty, or starts
    with something that is not a number), [main] still sorts and computes:
    the mean is NaN and [compute_median] then reads [data[-1]], outside the
    block.  No report is written. *)
Theorem main_without_numbers (fuel : nat) (env : environment)
    (prog filename : string) (file : FILE) (array0 : DynamicArray) :
  create_dynamic_array (env_alloc env) 20 = Some array0 ->
  fopen env filename = Some file ->
  env_fscanf_lf env file = None ->
  main fuel env [prog; filename] = Undef.
Proof.
  intros Hcreate Hopen Hscan. unfold main. rewrite Hcreate.
  rewrite (read_data_nothing_to_read env filename file array0 Hopen Hscan).
  cbn [obind]. cbv iota beta.
  destruct (create_well_formed _ 20 array0 ltac:(unfold CInt.INT_MAX; lia) Hcreate)
    as (Hsize & Hcap & Hwf).
  change (1 =? 0) with false. cbv iota.
  rewrite sort_array_returns by (rewrite Hsize; lia).
  cbn [obind].
  rewrite compute_mean_empty by exact Hsize. cbn [obind].
  rewrite compute_median_empty by exact Hsize. reflexivity.
Qed.

Lemma main_without_numbers_witness :
  main 10 (example_env 1000 "empty.txt" "") ["basicstats"; "empty.txt"]%string = Undef /\
  main 10 (example_env 1000 "words.txt" "abc 40") ["basicstats"; "words.txt"]%string
  = Undef.
Proof.
  split.
  - eapply (main_without_numbers 10 (example_env 1000 "empty.txt" "")); reflexivity.
  - eapply (main_without_numbers 10 (example_env 1000 "words.txt" "abc 40")); reflexivity.
Defined.

(** X6.  [main] ends with [EXIT_FAILURE] and writes nothing to the standard
    output when it is not given exactly one argument, when the buffer cannot
    be created, and when the file cannot be opened.  Whenever [main] returns,
    either it failed in this way, or the status is [EXIT_SUCCESS] and the
    report was written. *)
Theorem main_exit_status (fuel : nat) (env : environment) :
  (forall argv, length argv <> 2%nat ->
                main fuel env argv = Ret (EXIT_FAILURE, EmptyString, None)) /\
  (forall prog filename,
      create_dynamic_array (env_alloc env) 20 = None ->
      main fuel env [prog; filename] = Ret (EXIT_FAILURE, EmptyString, None)) /\
  (forall prog filename array0,
      create_dynamic_array (env_alloc env) 20 = Some array0 ->
      fopen env filename = None ->
      main fuel env [prog; filename] = Ret (EXIT_FAILURE, EmptyString, None)) /\
  (forall argv status out buffer,
      main fuel env argv = Ret (status, out, buffer) ->
      (status = EXIT_FAILURE /\ out = EmptyString /\ buffer = None) \/
      (status = EXIT_SUCCESS /\ out <> EmptyString /\ exists array, buffer = Some array)).
Proof.
  split; [ | split; [ | split ] ].
  - intros argv Hlen. unfold main.
    destruct argv as [| a [| b [| c rest]]]; try reflexivity.
    cbn [length] in Hlen. lia.
  - intros prog filename Hcreate. unfold main. rewrite Hcreate. reflexivity.
  - intros prog filename array0 Hcreate Hopen. unfold main, read_data_from_file.
    rewrite Hcreate, Hopen. reflexivity.
  - intros argv status out buffer. unfold main.
    destruct argv as [| a [| b [| c rest]]]; try (intros [= <- <- <-]; left; auto).
    destruct (create_dynamic_array _ 20) as [array0 |];
      [ | intros [= <- <- <-]; left; auto ].
    destruct (read_data_from_file env b array0) as [[ok array] | | |];
      cbn [obind]; try discriminate.
    destruct (ok =? 0); [ intros [= <- <- <-]; left; auto | ].
    destruct (sort_array array) as [sorted | | |]; cbn [obind]; try discriminate.
    destruct (compute_mean sorted); cbn [obind]; try discriminate.
    destruct (compute_median sorted); cbn [obind]; try discriminate.
    destruct (compute_mode sorted); cbn [obind]; try discriminate.
    destruct (compute_stddev fuel sorted _); cbn [obind]; try discriminate.
    destruct (compute_harmonic_mean sorted); cbn [obind]; try discriminate.
    intros [= <- <- <-]. right. split; [ reflexivity | ]. split; [ discriminate | eauto ].
Qed.

Lemma main_exit_status_witness :
  main 10 (example_env 1000 "data.txt" "1 2") ["basicstats"]%string
  = Ret (EXIT_FAILURE, EmptyString, None) /\
  main 10 (example_env 1000 "data.txt" "1 2") ["basicstats"; "other.txt"]%string
  = Ret (EXIT_FAILURE, EmptyString, None).
Proof.
  destruct (main_exit_status 10 (example_env 1000 "data.txt" "1 2")) as (H1 & _ & H3 & _).
  split.
  - apply H1. cbn. lia.
  - eapply H3; reflexivity.
Defined.

(** ** The loop of [compute_mode] *)

Lemma obind_assoc {A B C : Type} (c : outcome A) (f : A -> outcome B)
    (g : B -> outcome C) :
  obind (obind c f) g = obind c (fun a => obind (f a) g).
Proof. destruct c; reflexivity. Qed.

(** The last pass of a counted loop. *)
Lemma for_count_last {S : Type} (body : Z -> S -> outcome S) (n : nat) :
  forall (i : Z) (s : S),
    for_count (Datatypes.S n) i body s
    = obind (for_count n i body s) (body (i + Z.of_nat n)).
Proof.
  induction n as [| n IH]; intros i s.
  - cbn [for_count obind]. rewrite Z.add_0_r. destruct (body i s); reflexivity.
  - change (for_count (Datatypes.S (Datatypes.S n)) i body s)
      with (obind (body i s) (for_count (Datatypes.S n) (i + 1) body)).
    change (for_count (Datatypes.S n) i body s)
      with (obind (body i s) (for_count n (i + 1) body)).
    rewrite obind_assoc. destruct (body i s) as [s' | | |]; cbn [obind]; try reflexivity.
    rewrite IH. do 2 f_equal. lia.
Qed.

Lemma load_ret (b : block) (i : Z) (v : float) :
  load b i = Ret v -> 0 <= i /\ b !! Z.to_nat i = Some v.
Proof.
  unfold load. destruct (Z.leb_spec 0 i); [ | discriminate ].
  destruct (b !! Z.to_nat i); [ | discriminate ]. intros [= ->]. auto.
Qed.

Lemma load_in_elements (array : DynamicArray) (i : Z) (v : float) :
  i < size array -> load (data array) i = Ret v -> In v (elements array).
Proof.
  intros Hi Hl. apply load_ret in Hl as [H0 Hv].
  apply list_elem_of_In, (list_elem_of_lookup_2 _ (Z.to_nat i)).
  unfold elements. rewrite lookup_take_lt by lia. exact Hv.
Qed.

(** The loop stays inside the block and, throughout, [mode] is one of the
    elements. *)
Lemma mode_loop_member (array : DynamicArray) (n : nat) :
  forall (i : Z) (v : mode_vars),
    1 <= i -> i + Z.of_nat n <= size array ->
    size array <= Z.of_nat (length (data array)) ->
    In (mode v) (elements array) ->
    exists v', for_count n i (mode_body array) v = Ret v' /\
               In (mode v') (elements array).
Proof.
  induction n as [| n IH]; intros i v Hi Hn Hlen Hin.
  - exists v. split; [ reflexivity | exact Hin ].
  - cbn [for_count]. unfold mode_body at 1.
    destruct (load_in_bounds (data array) i) as (cur & _ & ->); [ lia | ].
    destruct (load_in_bounds (data array) (i - 1)) as (prev & _ & Hprev); [ lia | ].
    rewrite Hprev. cbn [obind].
    destruct (cur =? prev)%float; [ | destruct (current_count v >? max_count v) ];
      cbn [obind]; apply IH; try lia; cbn [mode]; try exact Hin.
    apply (load_in_elements array (i - 1)); [ lia | exact Hprev ].
Qed.

(** X7.  For a buffer with at least one element [compute_mode] returns, and
    what it returns is one of the buffer's elements. *)
Theorem compute_mode_is_an_element (array : DynamicArray) :
  1 <= size array <= Z.of_nat (length (data array)) ->
  exists r, compute_mode array = Ret r /\ In r (elements array).
Proof.
  intros Hsize. unfold compute_mode, for_range.
  destruct (load_in_bounds (data array) 0) as (first & _ & Hfirst); [ lia | ].
  rewrite Hfirst. cbn [obind].
  destruct (mode_loop_member array (Z.to_nat (size array - 1)) 1
              {| mode := first; max_count := 1; current_count := 1 |})
    as (v & -> & Hin); try lia.
  - cbn [mode]. apply (load_in_elements array 0); [ lia | exact Hfirst ].
  - exists (mode v). split; [ reflexivity | exact Hin ].
Qed.

Lemma compute_mode_is_an_element_witness :
  exists r, compute_mode (buffer_of [1; 1; 2; 3; 3; 3]%float 8) = Ret r /\
            In r (elements (buffer_of [1; 1; 2; 3; 3; 3]%float 8)).
Proof.
  apply (compute_mode_is_an_element (buffer_of [1; 1; 2; 3; 3; 3]%float 8)).
  vm_compute. split; discriminate.
Defined.

(** Shortening the buffer by a last element that equals its predecessor. *)
Lemma compute_mode_drop_last (d : block) (n c c' : Z) (a b : float) :
  1 <= n ->
  load d n = Ret a -> load d (n - 1) = Ret b -> (a =? b)%float = true ->
  compute_mode {| data := d; size := n + 1; capacity := c |}
  = compute_mode {| data := d; size := n; capacity := c' |}.
Proof.
  intros Hn Ha Hb Heq. unfold compute_mode, for_range. cbn [data size].
  destruct (load d 0) as [first | | |]; cbn [obind]; try reflexivity.
  replace (Z.to_nat (n + 1 - 1)) with (Datatypes.S (Z.to_nat (n - 1))) by lia.
  rewrite for_count_last.
  change (mode_body {| data := d; size := n + 1; capacity := c |})
    with (mode_body {| data := d; size := n; capacity := c' |}).
  destruct (for_count _ 1 _ _) as [v | | |]; cbn [obind]; try reflexivity.
  unfold mode_body. cbn [data].
  replace (1 + Z.of_nat (Z.to_nat (n - 1))) with n by lia.
  rewrite Ha, Hb. cbn [obind]. rewrite Heq. reflexivity.
Qed.

(** X8.  The run that ends the buffer has no part in the result: when every
    element from index [m] on equals its predecessor, [compute_mode] gives
    what it gives for the first [m] elements alone.  In particular a buffer
    of equal elements yields the first of them. *)
Theorem compute_mode_ignores_final_run (array : DynamicArray) (m : Z) :
  1 <= m <= size array ->
  (forall i, m <= i < size array ->
             exists a b, load (data array) i = Ret a /\
                         load (data array) (i - 1) = Ret b /\
                         (a =? b)%float = true) ->
  compute_mode array
  = compute_mode {| data := data array; size := m; capacity := capacity array |}.
Proof.
  destruct array as [d n c]. cbn [data size capacity]. intros Hm Hrun.
  assert (Hind : forall k : nat,
             m + Z.of_nat k <= n ->
             compute_mode {| data := d; size := m + Z.of_nat k; capacity := c |}
             = compute_mode {| data := d; size := m; capacity := c |}).
  { induction k as [| k IH]; intros Hk.
    - rewrite Z.add_0_r. reflexivity.
    - destruct (Hrun (m + Z.of_nat k)) as (a & b & Ha & Hb & Heq); [ lia | ].
      replace (m + Z.of_nat (Datatypes.S k)) with (m + Z.of_nat k + 1) by lia.
      rewrite (compute_mode_drop_last d (m + Z.of_nat k) c c a b) by (assumption || lia).
      apply IH. lia. }
  specialize (Hind (Z.to_nat (n - m))).
  replace (m + Z.of_nat (Z.to_nat (n - m))) with n in Hind by lia.
  apply Hind. lia.
Qed.

Lemma compute_mode_ignores_final_run_witness :
  compute_mode (buffer_of [1; 1; 2; 3; 3; 3]%float 8)
  = compute_mode {| data := data (buffer_of [1; 1; 2; 3; 3; 3]%float 8);
                    size := 4;
                    capacity := capacity (buffer_of [1; 1; 2; 3; 3; 3]%float 8) |}.
Proof.
  apply (compute_mode_ignores_final_run (buffer_of [1; 1; 2; 3; 3; 3]%float 8) 4).
  - cbn. lia.
  - cbn [size buffer_of length Z.of_nat]. intros i Hi.
    assert (Hcases : i = 4 \/ i = 5) by lia.
    destruct Hcases as [-> | ->]; exists 3%float, 3%float; repeat split; reflexivity.
Defined.

(** ** The loop of [babylonian_sqrt] *)

(** What the loop returns is the last [x], and the loop condition is false
    for it and the last [y]. *)
Lemma babylonian_loop_ret (fuel : nat) (value e : float) :
  forall x y r,
    babylonian_loop fuel value x y e = Ret r ->
    (r = x /\ (e <? x - y)%float = false) \/
    ((e <? x - y)%float = true /\ (e <? r - value / r)%float = false).
Proof.
  induction fuel as [| fuel IH]; intros x y r; cbn [babylonian_loop];
    destruct (e <? x - y)%float eqn:Hguard; try discriminate.
  - intros [= <-]. left. auto.
  - intros H. right. split; [ reflexivity | ].
    apply IH in H as [[-> Hend] | [_ Hend]]; exact Hend.
  - intros [= <-]. left. auto.
Qed.

(** X9.  When [babylonian_sqrt] returns [r], either the loop was never
    entered and [r] is the argument itself, or the loop ended on
    [x - y > 0.000001] being false with [x = r] and [y = value / r]: the
    result exceeds the quotient of the argument by it by no more than
    0.000001 (or the difference is a NaN). *)
Theorem babylonian_sqrt_postcondition (fuel : nat) (value r : float) :
  babylonian_sqrt fuel value = Ret r ->
  (r = value /\ (0.000001 <? value - 1)%float = false) \/
  ((0.000001 <? value - 1)%float = true /\
   (0.000001 <? r - value / r)%float = false).
Proof. unfold babylonian_sqrt. apply babylonian_loop_ret. Qed.

Lemma babylonian_sqrt_postcondition_witness :
  (0.000001 <? 1.4142135623746899 - 2 / 1.4142135623746899)%float = false /\
  (0.25 = 0.25 /\ (0.000001 <? 0.25 - 1) = false)%float.
Proof.
  split.
  - destruct (babylonian_sqrt_postcondition 10 2 1.4142135623746899) as [[H _] | [_ H]].
    + vm_compute. reflexivity.
    + exfalso. revert H. vm_compute. discriminate.
    + exact H.
  - destruct (babylonian_sqrt_postcondition 10 0.25 0.25) as [H | [H _]].
    + vm_compute. reflexivity.
    + exact H.
    + exfalso. revert H. vm_compute. discriminate.
Defined.

(** The loop with a budget of [k] more iterations, after [k] passes. *)
Lemma babylonian_loop_after (k : nat) (value e : float) :
  forall fuel x y x' y',
    babylonian_after k value x y e = Some (x', y') ->
    babylonian_loop (k + fuel) value x y e = babylonian_loop fuel value x' y' e.
Proof.
  induction k as [| k IH]; intros fuel x y x' y'; cbn [babylonian_after].
  - intros [= -> ->]. reflexivity.
  - destruct (e <? x - y)%float eqn:Hguard; [ | discriminate ].
    intros H. cbn [Nat.add babylonian_loop]. rewrite Hguard. apply IH. exact H.
Qed.

(** With a smaller budget the loop has not ended either. *)
Lemma babylonian_loop_budget (k : nat) (value e : float) :
  forall fuel x y x' y',
    babylonian_after k value x y e = Some (x', y') ->
    (e <? x' - y')%float = true ->
    (fuel <= k)%nat ->
    babylonian_loop fuel value x y e = Loops.
Proof.
  induction k as [| k IH]; intros fuel x y x' y'; cbn [babylonian_after].
  - intros [= -> ->] Hguard Hfuel. assert (fuel = 0%nat) as -> by lia.
    cbn [babylonian_loop]. rewrite Hguard. reflexivity.
  - destruct (e <? x - y)%float eqn:Hguard; [ | discriminate ].
    intros H Hguard' Hfuel. destruct fuel as [| fuel]; cbn [babylonian_loop]; rewrite Hguard.
    + reflexivity.
    + apply (IH fuel _ _ x' y' H Hguard'). lia.
Qed.

(** A pass that changes neither [x] nor [y] while the loop condition holds
    is repeated for ever. *)
Lemma babylonian_loop_stalled (value x y e : float) (fuel : nat) :
  (e <? x - y)%float = true ->
  ((x + y) / 2)%float = x ->
  (value / x)%float = y ->
  babylonian_loop fuel value x y e = Loops.
Proof.
  intros Hguard Hx Hy. induction fuel as [| fuel IH]; cbn [babylonian_loop]; rewrite Hguard.
  - reflexivity.
  - cbv zeta. rewrite Hx, Hy. exact IH.
Qed.

(** X10.  The loop of [babylonian_sqrt] need not end.  When, after some
    passes, [x - y] is still above 0.000001 while [(x + y) / 2] rounds to
    [x] again and [value / x] is [y], no budget of iterations is enough.
    This happens for the argument 3e20: after 39 passes [x] and [y] are two
    neighbouring doubles near 1.7e10, 0.0000038 apart. *)
Theorem babylonian_sqrt_stalls (value x y : float) (k : nat) :
  babylonian_after k value value 1 0.000001 = Some (x, y) ->
  (0.000001 <? x - y)%float = true ->
  ((x + y) / 2)%float = x ->
  (value / x)%float = y ->
  forall fuel, babylonian_sqrt fuel value = Loops.
Proof.
  intros Hafter Hguard Hx Hy fuel. unfold babylonian_sqrt.
  destruct (Nat.le_gt_cases fuel k) as [Hle | Hgt].
  - exact (babylonian_loop_budget k value _ fuel _ _ x y Hafter Hguard Hle).
  - replace fuel with (k + (fuel - k))%nat by lia.
    rewrite (babylonian_loop_after k value _ _ _ _ x y Hafter).
    apply babylonian_loop_stalled; assumption.
Qed.

Lemma babylonian_sqrt_stalls_witness :
  babylonian_sqrt 1000 3e20 = Loops.
Proof.
  apply (babylonian_sqrt_stalls 3e20 17320508075.688774 17320508075.68877 39);
    vm_compute; reflexivity.
Defined.

(** ** Growth of the buffer *)

(** X11.  On a well-formed buffer with a positive capacity,
    [resize_array_if_needed] either returns a well-formed buffer with the
    same size and the same elements and with room for one more, its
    capacity unchanged if there was room and doubled if the buffer was
    full; or it ends the process with [EXIT_FAILURE], which happens only on
    a full buffer whose doubled capacity is not an [int] or whose request
    for storage is not served. *)
Theorem resize_array_if_needed_makes_room (alloc : allocator) (array : DynamicArray) :
  well_formed array -> 0 < capacity array ->
  (exists array',
      resize_array_if_needed alloc array = Ret array' /\
      well_formed array' /\
      size array' = size array /\
      elements array' = elements array /\
      size array' < capacity array' /\
      capacity array' = (if size array =? capacity array
                         then 2 * capacity array else capacity array)) \/
  (resize_array_if_needed alloc array = Exit EXIT_FAILURE /\
   size array = capacity array /\
   (CInt.INT_MAX < 2 * capacity array \/ served alloc (16 * capacity array) = false)).
Proof.
  intros (Hinv & Hlen & Hmax) Hpos. unfold Spec.invariant in Hinv.
  destruct (Z.eqb_spec (size array) (capacity array)) as [Hfull | Hroom].
  - destruct (resize_array_grow alloc array Hfull ltac:(lia))
      as [(Hdbl & Hserved & ->) | (Hwhy & ->)]; [ left | right; auto ].
    eexists. split; [ reflexivity | ].
    unfold well_formed, Spec.invariant, elements. cbn [data size capacity].
    rewrite length_resize.
    repeat split; try lia.
    rewrite take_resize_le by lia. apply resize_le. lia.
  - left. exists array. rewrite resize_array_no_grow by exact Hroom.
    unfold well_formed, Spec.invariant. repeat split; try lia.
Qed.

Lemma resize_array_if_needed_makes_room_witness :
  exists array',
    resize_array_if_needed (example_alloc 1000) (buffer_of [1; 2]%float 2) = Ret array' /\
    size array' = 2 /\ capacity array' = 4 /\ elements array' = [1; 2]%float.
Proof.
  destruct (resize_array_if_needed_makes_room (example_alloc 1000)
              (buffer_of [1; 2]%float 2)) as [(array' & Hret & _ & Hs & He & _ & Hc) | (H & _)].
  - unfold well_formed, Spec.invariant. vm_compute. repeat split; discriminate.
  - reflexivity.
  - exists array'. repeat split; assumption.
  - exfalso. revert H. vm_compute. discriminate.
Defined.

(** The request for the block of a negative capacity, converted to
    [size_t], is beyond what any allocation serves. *)
Lemma negative_size_request (c : Z) :
  CInt.INT_MIN <= c < 0 ->
  CInt.PTRDIFF_MAX < CInt.size_mul (CInt.to_size_t c) Double.sizeof_double.
Proof.
  unfold CInt.size_mul, CInt.to_size_t, Double.sizeof_double, CInt.INT_MIN,
    CInt.PTRDIFF_MAX.
  intros H. zdiv.
Qed.

(** X12.  [create_dynamic_array] gives a usable buffer only for a positive
    capacity.  With a negative capacity it returns NULL, since the size of
    the block converted to [size_t] is never served.  With capacity 0 the
    buffer it may return takes no element: the first append doubles 0 to 0
    and calls [realloc(data, 0)], and what follows is the library's choice.
    If [realloc] returns NULL and leaves the block allocated, the process
    ends with [EXIT_FAILURE]; if it returns a block with no slot, [data[0]]
    is written outside it; if it frees the block and returns NULL (glibc),
    [free_dynamic_array] frees the block a second time. *)
Theorem create_dynamic_array_needs_positive_capacity (alloc : allocator) :
  (forall c, CInt.INT_MIN <= c < 0 -> create_dynamic_array alloc c = None) /\
  (forall array v,
      create_dynamic_array alloc 0 = Some array ->
      append alloc array v
      = match realloc_zero alloc with
        | ZeroNull => Exit EXIT_FAILURE
        | ZeroBlock | ZeroFree => Undef
        end).
Proof.
  split.
  - intros c Hc. unfold create_dynamic_array, malloc.
    destruct (served alloc sizeof_DynamicArray); [ | reflexivity ].
    destruct (served alloc (CInt.size_mul _ _)) eqn:Hserved; [ | reflexivity ].
    apply served_bound in Hserved. pose proof (negative_size_request c Hc). lia.
  - intros array v Hcreate.
    destruct (create_well_formed alloc 0 array ltac:(unfold CInt.INT_MAX; lia) Hcreate)
      as (Hsize & Hcap & _).
    rewrite (append_empty alloc array v Hsize Hcap).
    destruct (realloc_zero alloc); reflexivity.
Qed.

Lemma create_dynamic_array_needs_positive_capacity_witness :
  create_dynamic_array (example_alloc 1000) (-1) = None /\
  create_dynamic_array (example_alloc 1000) 0
  = Some {| data := []; size := 0; capacity := 0 |} /\
  append (example_alloc 1000) {| data := []; size := 0; capacity := 0 |} 1 = Undef.
Proof.
  destruct (create_dynamic_array_needs_positive_capacity (example_alloc 1000))
    as (Hneg & Hzero).
  split; [ apply Hneg; unfold CInt.INT_MIN; lia | ].
  split; [ reflexivity | ].
  apply (Hzero {| data := []; size := 0; capacity := 0 |} 1%float). reflexivity.
Defined.

Lemma scale_pow2_lt_inv (c0 j k : Z) :
  0 < c0 -> 0 <= j -> 0 <= k -> c0 * 2 ^ j < c0 * 2 ^ k -> j < k.
Proof.
  intros Hc Hj Hk H. apply pow2_lt_inv; try assumption. nia.
Qed.

(** Appending to a buffer that grew from capacity [c0]: as long as the
    final size is at most [c0 * 2^K], itself an [int], and every grow step
    on the way is served, all appends complete. *)
Lemma append_all_grown_from (alloc : allocator) (c0 K : Z) (values : list float) :
  0 < c0 -> 0 <= K -> c0 * 2 ^ K <= CInt.INT_MAX ->
  forall array,
    well_formed array -> grown_from c0 array ->
    size array + Z.of_nat (length values) <= c0 * 2 ^ K ->
    (forall k, 0 <= k ->
               size array <= c0 * 2 ^ k < size array + Z.of_nat (length values) ->
               served alloc (16 * (c0 * 2 ^ k)) = true) ->
    exists array',
      append_all alloc array values = Ret array' /\
      well_formed array' /\ grown_from c0 array' /\
      size array' = size array + Z.of_nat (length values) /\
      elements array' = elements array ++ values.
Proof.
  intros Hc0 HK Hlimit.
  induction values as [| v values IH]; intros array Hwf Hgrown HN Hserved.
  - exists array. cbn [append_all length]. rewrite app_nil_r.
    split; [ reflexivity | ]. split; [ assumption | ]. split; [ assumption | ].
    split; [ lia | reflexivity ].
  - cbn [length] in *. cbn [append_all].
    pose proof Hwf as (Hinv & Hlen & Hmax). unfold Spec.invariant in Hinv.
    pose proof Hgrown as (k & Hk & Hcap & Htight).
    pose proof (pow2_pos k Hk) as Hpow.
    destruct (append_returns alloc array v Hwf) as (array1 & Happ & Hwf1).
    { intros Hfull.
      assert (k < K) by (apply (scale_pow2_lt_inv c0); lia).
      assert (2 ^ (k + 1) <= 2 ^ K) by (apply Z.pow_le_mono_r; lia).
      rewrite pow2_succ in * by lia.
      repeat split; [ nia | nia | ].
      rewrite Hcap. apply Hserved; [ exact Hk | lia ]. }
    rewrite Happ. cbn [obind].
    pose proof (append_elements alloc array array1 v Hwf Happ) as Hel.
    destruct (append_ret alloc array array1 v (proj1 Hwf) Hmax Happ) as (_ & Heq & Hfull).
    assert (Hsize1 : size array1 = size array + 1) by (rewrite Heq; reflexivity).
    assert (Hcap1 : capacity array1 = grown_capacity array) by (rewrite Heq; reflexivity).
    destruct (IH array1) as (array' & Hall & Hwf' & Hgrown' & Hsize' & Hel'); try assumption.
    + unfold grown_from, grown_capacity in *. rewrite Hsize1, Hcap1.
      destruct (Z.eqb_spec (size array) (capacity array)) as [E | E].
      * exists (k + 1). rewrite pow2_succ by lia.
        replace (k + 1 - 1) with k by lia. repeat split; lia.
      * exists k. repeat split; try assumption. destruct Htight; [ left | right ]; lia.
    + lia.
    + intros j Hj Hrange. apply Hserved; [ exact Hj | lia ].
    + exists array'.
      split; [ assumption | ]. split; [ assumption | ]. split; [ assumption | ].
      split; [ lia | ].
      rewrite Hel', Hel, <- app_assoc. reflexivity.
Qed.

(** Reading into the buffer [main] creates. *)
Lemma read_data_created (env : environment) (filename : string)
    (file : FILE) (values : list float) (array0 : DynamicArray) :
  consuming (env_fscanf_lf env) ->
  create_dynamic_array (env_alloc env) 20 = Some array0 ->
  fopen env filename = Some file ->
  scans (env_fscanf_lf env) file values ->
  Z.of_nat (length values) <= 1342177280 ->
  (forall k, 0 <= k -> 20 * 2 ^ k < Z.of_nat (length values) ->
             served (env_alloc env) (16 * (20 * 2 ^ k)) = true) ->
  exists array,
    read_data_from_file env filename array0 = Ret (1, array) /\
    well_formed array /\ grown_from 20 array /\
    size array = Z.of_nat (length values) /\
    elements array = values.
Proof.
  intros Hcons Hcreate Hopen Hscans HN Hserved.
  destruct (create_well_formed _ 20 array0 ltac:(unfold CInt.INT_MAX; lia) Hcreate)
    as (Hsize & Hcap & Hwf).
  rewrite (read_data_from_file_opened env Hcons filename file values array0 Hopen Hscans).
  destruct (append_all_grown_from (env_alloc env) 20 26 values) with (array := array0)
    as (array & -> & Hwf' & Hgrown & Hsize' & Hel);
    try assumption; try lia.
  - unfold CInt.INT_MAX. change (2 ^ 26) with 67108864. lia.
  - exists 0. rewrite Hcap. repeat split; lia.
  - intros j Hj Hrange. apply Hserved; [ exact Hj | lia ].
  - exists array. cbn [obind]. rewrite Hsize in Hsize'.
    split; [ reflexivity | ]. split; [ exact Hwf' | ]. split; [ exact Hgrown | ].
    split; [ lia | ].
    rewrite Hel. unfold elements. rewrite Hsize. reflexivity.
Qed.

(** X13.  [main] creates its buffer with capacity 20.  When the file holds
    N values, N at most 20 * 2^26 = 1342177280, and each grow step on the
    way is served, [read_data_from_file] returns 1 with the N values in
    the buffer in the order read, and the capacity is 20 * 2^k for the
    least k with N <= 20 * 2^k. *)
Theorem read_data_grows_from_twenty (env : environment) (filename : string)
    (file : FILE) (values : list float) (array0 : DynamicArray) :
  consuming (env_fscanf_lf env) ->
  create_dynamic_array (env_alloc env) 20 = Some array0 ->
  fopen env filename = Some file ->
  scans (env_fscanf_lf env) file values ->
  Z.of_nat (length values) <= 1342177280 ->
  (forall k, 0 <= k -> 20 * 2 ^ k < Z.of_nat (length values) ->
             served (env_alloc env) (16 * (20 * 2 ^ k)) = true) ->
  exists array k,
    read_data_from_file env filename array0 = Ret (1, array) /\
    well_formed array /\
    size array = Z.of_nat (length values) /\
    elements array = values /\
    0 <= k /\ capacity array = 20 * 2 ^ k /\
    (forall j, 0 <= j -> Z.of_nat (length values) <= 20 * 2 ^ j -> k <= j).
Proof.
  intros Hcons Hcreate Hopen Hscans HN Hserved.
  destruct (read_data_created env filename file values array0
              Hcons Hcreate Hopen Hscans HN Hserved)
    as (array & Hread & Hwf & (k & Hk & Hcap & Htight) & Hsize & Hel).
  exists array, k. repeat (split; [ assumption | ]).
  intros j Hj Hfit. destruct Htight as [-> | Htight]; [ lia | ].
  destruct (Z.eq_dec k 0) as [-> | Hnz]; [ lia | ].
  assert (k - 1 < j); [ | lia ].
  apply (scale_pow2_lt_inv 20); lia.
Qed.

Lemma read_data_grows_from_twenty_witness :
  let contents := "1 2 3 4 5 6 7 8 9 10 11 12 13 14 15 16 17 18 19 20 21"%string in
  exists array k,
    read_data_from_file (example_env 1000 "data.txt" contents) "data.txt"
      (buffer_of [] 20)
    = Ret (1, array) /\
    size array = 21 /\ capacity array = 20 * 2 ^ k /\
    (forall j, 0 <= j -> 21 <= 20 * 2 ^ j -> k <= j).
Proof.
  intros contents.
  destruct (read_data_grows_from_twenty (example_env 1000 "data.txt" contents)
              "data.txt"%string (list_ascii_of_string contents)
              [1; 2; 3; 4; 5; 6; 7; 8; 9; 10; 11; 12; 13; 14; 15; 16; 17; 18; 19; 20; 21]%float
              (buffer_of [] 20))
    as (array & k & Hread & _ & Hsize & _ & _ & Hcap & Hleast).
  - exact fscanf_lf_consuming.
  - reflexivity.
  - reflexivity.
  - repeat (eapply scans_value; [ vm_compute; reflexivity | ]).
    apply scans_stop. vm_compute. reflexivity.
  - cbn. lia.
  - intros k Hk Hlt. cbn [length Z.of_nat Pos.of_succ_nat Pos.succ] in Hlt.
    destruct (Z.eq_dec k 0) as [-> | Hnz]; [ reflexivity | exfalso ].
    assert (2 ^ 1 <= 2 ^ k) by (apply Z.pow_le_mono_r; lia).
    change (2 ^ 1) with 2 in *. lia.
  - exists array, k. repeat split; assumption.
Defined.

(** ** The report *)

Lemma compute_median_returns (array : DynamicArray) :
  0 < size array <= Z.of_nat (length (data array)) ->
  size array <= CInt.INT_MAX ->
  exists median, compute_median array = Ret median.
Proof.
  intros Hsize Hmax.
  destruct (int_half (size array)) as [Hdiv Hrem]; [ lia | ].
  unfold compute_median. rewrite Hdiv, Hrem.
  destruct (Z.eqb_spec (size array mod 2) 0) as [Hpar | Hpar].
  - assert (Hn : 2 <= size array).
    { destruct (Z.eq_dec (size array) 1) as [E | E]; [ rewrite E in Hpar; discriminate | lia ]. }
    rewrite int_sub_small by (unfold CInt.INT_MIN, CInt.INT_MAX in *; zdiv).
    destruct (load_in_bounds (data array) (size array / 2 - 1)) as (a & _ & ->); [ zdiv | ].
    destruct (load_in_bounds (data array) (size array / 2)) as (b & _ & ->); [ zdiv | ].
    eexists. reflexivity.
  - destruct (load_in_bounds (data array) (size array / 2)) as (c & _ & ->); [ zdiv | ].
    eexists. reflexivity.
Qed.

(** X14.  When the file holds N values, N from 1 to 1342177280, none of
    them a NaN, and the requests for storage are served, [main] computes
    every statistic on the values in ascending order: the mean and the
    harmonic mean are the sums taken in that order, the median and the
    mode are read from the sorted buffer, and the report shows N and the
    buffer's capacity.  The only step that may fail to complete is the
    loop of [babylonian_sqrt], run on the mean of the squared
    deviations. *)
Theorem main_reports_on_sorted_values (fuel : nat) (env : environment)
    (prog filename : string) (file : FILE) (values : list float)
    (array0 : DynamicArray) :
  consuming (env_fscanf_lf env) ->
  create_dynamic_array (env_alloc env) 20 = Some array0 ->
  fopen env filename = Some file ->
  scans (env_fscanf_lf env) file values ->
  1 <= Z.of_nat (length values) <= 1342177280 ->
  (forall k, 0 <= k -> 20 * 2 ^ k < Z.of_nat (length values) ->
             served (env_alloc env) (16 * (20 * 2 ^ k)) = true) ->
  Forall (fun v => is_nan v = false) values ->
  exists sorted median mode,
    size sorted = Z.of_nat (length values) /\
    Permutation values (elements sorted) /\
    StronglySorted double_le (elements sorted) /\
    compute_median sorted = Ret median /\
    compute_mode sorted = Ret mode /\
    let mean := Spec.mean (elements sorted) in
    main fuel env [prog; filename]
    = (stddev <~ babylonian_sqrt fuel (Spec.variance (elements sorted) mean) ;
       Ret (EXIT_SUCCESS,
            print_statistics (env_nan_sign env)
              (Z.of_nat (length values)) (capacity sorted)
              mean median mode stddev (Spec.harmonic_mean (elements sorted)),
            Some sorted)).
Proof.
  intros Hcons Hcreate Hopen Hscans HN Hserved Hnan.
  destruct (read_data_created env filename file values array0
              Hcons Hcreate Hopen Hscans (proj2 HN) Hserved)
    as (array & Hread & (Hinv & Hlen & Hmax) & _ & Hsize & Hel).
  unfold Spec.invariant in Hinv.
  destruct (sort_array_elements array ltac:(lia))
    as (sorted & Hsort & Hsize' & Hcap' & Hlen' & _ & Hel').
  rewrite Hel in Hel'.
  assert (Hbounds : 0 < size sorted <= Z.of_nat (length (data sorted))) by lia.
  destruct (compute_median_returns sorted Hbounds ltac:(lia)) as (median & Hmedian).
  assert (Hmode : exists mode, compute_mode sorted = Ret mode).
  { unfold compute_mode, for_range.
    destruct (load_in_bounds (data sorted) 0) as (first & _ & Hfirst); [ lia | ].
    rewrite Hfirst. cbn [obind].
    destruct (mode_loop_member sorted (Z.to_nat (size sorted - 1)) 1
                {| mode := first; max_count := 1; current_count := 1 |})
      as (v & -> & _); try lia.
    - cbn [mode]. apply (load_in_elements sorted 0); [ lia | exact Hfirst ].
    - eexists. reflexivity. }
  destruct Hmode as (mode & Hmode).
  exists sorted, median, mode.
  split; [ lia | ].
  split; [ rewrite Hel'; apply msort_with_tmp_perm | ].
  split; [ rewrite Hel'; apply msort_with_tmp_ascending; [ lia | exact Hnan ] | ].
  split; [ exact Hmedian | ]. split; [ exact Hmode | ].
  cbv zeta. unfold main. rewrite Hcreate, Hread. cbn [obind]. cbv iota beta.
  change (1 =? 0) with false. cbv iota.
  rewrite Hsort. cbn [obind].
  rewrite compute_mean_elements by lia. cbn [obind].
  rewrite Hmedian, Hmode. cbn [obind].
  rewrite compute_stddev_elements by lia.
  rewrite compute_harmonic_mean_elements by lia.
  rewrite Hsize', Hsize.
  destruct (babylonian_sqrt fuel _); reflexivity.
Qed.

Lemma main_reports_on_sorted_values_witness :
  exists sorted median mode,
    size sorted = 3 /\
    Permutation [3; 1; 2]%float (elements sorted) /\
    StronglySorted double_le (elements sorted) /\
    compute_median sorted = Ret median /\
    compute_mode sorted = Ret mode /\
    main 10 (example_env 1000 "data.txt" "3 1 2") ["basicstats"; "data.txt"]%string
    = (stddev <~ babylonian_sqrt 10
                   (Spec.variance (elements sorted) (Spec.mean (elements sorted))) ;
       Ret (EXIT_SUCCESS,
            print_statistics (fun _ => true) 3 (capacity sorted)
              (Spec.mean (elements sorted)) median mode stddev
              (Spec.harmonic_mean (elements sorted)),
            Some sorted)).
Proof.
  apply (main_reports_on_sorted_values 10 (example_env 1000 "data.txt" "3 1 2")
           "basicstats"%string "data.txt"%string (list_ascii_of_string "3 1 2")
           [3; 1; 2]%float (buffer_of [] 20)).
  - exact fscanf_lf_consuming.
  - reflexivity.
  - reflexivity.
  - repeat (eapply scans_value; [ vm_compute; reflexivity | ]).
    apply scans_stop. vm_compute. reflexivity.
  - cbn. lia.
  - intros k Hk Hlt. exfalso. cbn [length Z.of_nat Pos.of_succ_nat Pos.succ] in Hlt.
    pose proof (pow2_pos k Hk). lia.
  - repeat constructor.
Defined.

(** ** What [compute_mode] computes *)

Lemma eqb_sym (a b : float) : (a =? b)%float = (b =? a)%float.
Proof.
  rewrite !FloatAxioms.eqb_spec. unfold SFeqb.
  rewrite (SFcompare_flip (Prim2SF a) (Prim2SF b)).
  destruct (SFcompare (Prim2SF a) (Prim2SF b)) as [[] |]; reflexivity.
Qed.

Lemma runs_cons (x : float) (l : list float) :
  Spec.runs (x :: l)
  = match Spec.runs l with
    | (y, n) :: rs => if (x =? y)%float then (x, n + 1) :: rs
                      else (x, 1) :: (y, n) :: rs
    | [] => [(x, 1)]
    end.
Proof. reflexivity. Qed.

(** The first run of a list starts with its first element. *)
Lemma runs_head (x : float) (l : list float) :
  exists n rs, Spec.runs (x :: l) = (x, n) :: rs /\ 1 <= n <= Z.of_nat (length (x :: l)).
Proof.
  revert x. induction l as [| y l IH]; intros x.
  - exists 1, []. split; [ reflexivity | cbn; lia ].
  - destruct (IH y) as (n & rs & Hruns & Hn). rewrite runs_cons, Hruns.
    cbn [length] in *.
    destruct (x =? y)%float; eexists _, _; (split; [ reflexivity | lia ]).
Qed.

(** The loop from index [i] on, when the elements still to be visited are
    [rest], the element before them is [prev], and the run that [prev]
    belongs to has [current_count] elements so far: the runs that end
    before the last one are compared, in order, with the best so far. *)
Lemma mode_loop_runs (array : DynamicArray) (rest : list float) :
  forall (i : Z) (prev : float) (v : mode_vars),
    1 <= i ->
    data array !! Z.to_nat (i - 1) = Some prev ->
    (forall j x, rest !! j = Some x -> data array !! (Z.to_nat i + j)%nat = Some x) ->
    (forall a b, In a (prev :: rest) -> In b (prev :: rest) ->
                 (a =? b)%float = true -> a = b) ->
    1 <= current_count v ->
    current_count v + Z.of_nat (length rest) <= CInt.INT_MAX ->
    exists n rs v',
      Spec.runs (prev :: rest) = (prev, n) :: rs /\
      for_count (length rest) i (mode_body array) v = Ret v' /\
      (mode v', max_count v')
      = Spec.longest (removelast ((prev, current_count v - 1 + n) :: rs))
          (mode v, max_count v).
Proof.
  induction rest as [| x rest IH]; intros i prev v Hi Hprev Hrest Hid Hcur Hmax.
  - exists 1, [], v. repeat split; reflexivity.
  - cbn [length] in Hmax.
    assert (Hx : load (data array) i = Ret x).
    { apply load_lookup; [ lia | ]. specialize (Hrest 0%nat x eq_refl).
      now rewrite Nat.add_0_r in Hrest. }
    assert (Hp : load (data array) (i - 1) = Ret prev) by (apply load_lookup; [ lia | exact Hprev ]).
    cbn [length for_count]. unfold mode_body at 1. rewrite Hx, Hp. cbn [obind].
    assert (Hrest' : forall j y, rest !! j = Some y ->
                                 data array !! (Z.to_nat (i + 1) + j)%nat = Some y).
    { intros j y Hj. specialize (Hrest (S j) y Hj).
      replace (Z.to_nat (i + 1) + j)%nat with (Z.to_nat i + S j)%nat by lia. exact Hrest. }
    assert (Hprev' : data array !! Z.to_nat (i + 1 - 1) = Some x).
    { specialize (Hrest 0%nat x eq_refl). rewrite Nat.add_0_r in Hrest.
      replace (i + 1 - 1) with i by lia. exact Hrest. }
    assert (Hid' : forall a b, In a (x :: rest) -> In b (x :: rest) ->
                               (a =? b)%float = true -> a = b).
    { intros a b Ha Hb. apply Hid; right; assumption. }
    rewrite runs_cons.
    destruct (x =? prev)%float eqn:Heq.
    + assert (x = prev) as -> by (apply Hid; [ right; left | left | ]; auto).
      destruct (IH (i + 1) prev
                  {| mode := mode v; max_count := max_count v;
                     current_count := CInt.add (current_count v) 1 |})
        as (n & rs & v' & Hruns & Hloop & Hbest); try assumption; try lia;
        cbn [current_count mode max_count] in *;
        try (rewrite int_add_small by (unfold CInt.INT_MIN, CInt.INT_MAX in *; lia); lia).
      rewrite int_add_small in Hbest by (unfold CInt.INT_MIN, CInt.INT_MAX in *; lia).
      rewrite Hruns, Heq.
      exists (n + 1), rs, v'. split; [ reflexivity | ]. split; [ exact Hloop | ].
      rewrite Hbest.
      replace (current_count v - 1 + (n + 1)) with (current_count v + 1 - 1 + n) by lia.
      reflexivity.
    + destruct (runs_head x rest) as (n & rs & Hruns & Hn).
      rewrite Hruns. rewrite eqb_sym in Heq. rewrite Heq.
      exists 1, ((x, n) :: rs).
      replace (current_count v - 1 + 1) with (current_count v) by lia.
      change (removelast ((prev, current_count v) :: (x, n) :: rs))
        with ((prev, current_count v) :: removelast ((x, n) :: rs)).
      cbn [Spec.longest snd].
      rewrite Z.gtb_ltb.
      destruct (max_count v <? current_count v).
      * destruct (IH (i + 1) x
                    {| mode := prev; max_count := current_count v; current_count := 1 |})
          as (n' & rs' & v' & Hruns' & Hloop & Hbest); try assumption; try lia;
          cbn [current_count mode max_count] in *; try lia.
        rewrite Hruns in Hruns'. injection Hruns' as <- <-.
        exists v'. split; [ reflexivity | ]. split; [ exact Hloop | ].
        rewrite Hbest. reflexivity.
      * destruct (IH (i + 1) x
                    {| mode := mode v; max_count := max_count v; current_count := 1 |})
          as (n' & rs' & v' & Hruns' & Hloop & Hbest); try assumption; try lia;
          cbn [current_count mode max_count] in *; try lia.
        rewrite Hruns in Hruns'. injection Hruns' as <- <-.
        exists v'. split; [ reflexivity | ]. split; [ exact Hloop | ].
        rewrite Hbest. reflexivity.
Qed.

Lemma longest_app (rs rs' : list (float * Z)) :
  forall best, Spec.longest (rs ++ rs') best = Spec.longest rs' (Spec.longest rs best).
Proof.
  induction rs as [| r rs IH]; intros best; [ reflexivity | apply IH ].
Qed.

(** X15.  What [compute_mode] returns, for a buffer in which elements that
    compare equal are identical (it does not hold both zeros).  Let [best]
    be the value and length the loop ends with: those of the first longest
    run among the runs that end before the final one, or the first element
    with length 1 when there is no such run or none of them has two
    elements.  [compute_mode] returns the value of [best].  The mode, the
    value of the first longest run of all, is the value of the final run
    when that run is strictly longer than [best], and the value of [best]
    otherwise.  So [compute_mode] returns the mode exactly when the final
    run is not strictly longer than [best], or has the value of [best]. *)
Theorem compute_mode_best_earlier_run (array : DynamicArray) :
  1 <= size array <= Z.of_nat (length (data array)) ->
  size array <= CInt.INT_MAX ->
  (forall a b, In a (elements array) -> In b (elements array) ->
               (a =? b)%float = true -> a = b) ->
  exists first rest,
    elements array = first :: rest /\
    let all_runs := Spec.runs (elements array) in
    let best := Spec.longest (removelast all_runs) (first, 1) in
    let final := last all_runs (first, 1) in
    compute_mode array = Ret (fst best) /\
    Spec.mode (elements array)
    = Some (fst (if snd best <? snd final then final else best)) /\
    (Spec.mode (elements array) = Some (fst best) <->
     snd final <= snd best \/ fst final = fst best).
Proof.
  intros Hsize Hmax Hid.
  destruct (elements array) as [| first rest] eqn:Hel.
  { pose proof (length_elements array ltac:(lia)) as Hlen. rewrite Hel in Hlen.
    cbn [length] in Hlen. lia. }
  exists first, rest. split; [ reflexivity | ].
  pose proof (length_elements array ltac:(lia)) as Hlen. rewrite Hel in Hlen.
  cbn [length] in Hlen.
  assert (Hlookup : forall j x, (first :: rest) !! j = Some x -> data array !! j = Some x).
  { intros j x Hj. rewrite <- Hel in Hj. unfold elements in Hj.
    apply lookup_take_Some in Hj as [Hj _]. exact Hj. }
  destruct (mode_loop_runs array rest 1 first
              {| mode := first; max_count := 1; current_count := 1 |})
    as (n & rs & v' & Hruns & Hloop & Hbest); cbn [current_count mode max_count];
    try lia.
  { apply (Hlookup 0%nat). reflexivity. }
  { intros j x Hj. apply (Hlookup (S j)). exact Hj. }
  { exact Hid. }
  destruct (runs_head first rest) as (n' & rs' & Hruns' & Hn).
  rewrite Hruns in Hruns'. injection Hruns' as <- <-.
  cbn [current_count mode max_count] in Hbest.
  change (1 - 1 + n) with n in Hbest.
  cbv zeta. rewrite Hruns.
  assert (Hcode : compute_mode array
                  = Ret (fst (Spec.longest (removelast ((first, n) :: rs)) (first, 1)))).
  { unfold compute_mode, for_range.
    rewrite (load_lookup (data array) 0 first) by (try lia; apply (Hlookup 0%nat); reflexivity).
    cbn [obind].
    replace (Z.to_nat (size array - 1)) with (length rest) by lia.
    rewrite Hloop. cbn [obind]. rewrite <- Hbest. reflexivity. }
  assert (Hspec : Spec.mode (first :: rest)
                  = Some (fst (if snd (Spec.longest (removelast ((first, n) :: rs))
                                         (first, 1))
                                  <? snd (last ((first, n) :: rs) (first, 1))
                               then last ((first, n) :: rs) (first, 1)
                               else Spec.longest (removelast ((first, n) :: rs))
                                      (first, 1)))).
  { unfold Spec.mode. rewrite Hruns.
    destruct rs as [| r rs].
    + cbn [removelast last Spec.longest snd]. destruct (1 <? n); reflexivity.
    + change (removelast ((first, n) :: r :: rs))
        with ((first, n) :: removelast (r :: rs)).
      change (last ((first, n) :: r :: rs) (first, 1)) with (last (r :: rs) (first, 1)).
      rewrite (app_removelast_last (first, 1) (l := r :: rs)) at 1 by discriminate.
      rewrite longest_app. cbn [Spec.longest snd].
      assert (Hstart : (if 1 <? n then (first, n) else (first, 1)) = (first, n)).
      { destruct (Z.ltb_spec 1 n); [ reflexivity | ]. f_equal. lia. }
      rewrite Hstart. reflexivity. }
  split; [ exact Hcode | ]. split; [ exact Hspec | ].
  rewrite Hspec.
  destruct (Z.ltb_spec (snd (Spec.longest (removelast ((first, n) :: rs)) (first, 1)))
              (snd (last ((first, n) :: rs) (first, 1)))) as [Hlt | Hge].
  - split.
    + intros [= H]. right. exact H.
    + intros [H | H]; [ lia | rewrite H; reflexivity ].
  - split; [ intros _; left; lia | reflexivity ].
Qed.

Lemma compute_mode_best_earlier_run_witness :
  compute_mode (buffer_of [1; 1; 2; 3; 3; 3]%float 8) = Ret 1%float /\
  Spec.mode [1; 1; 2; 3; 3; 3]%float = Some 3%float.
Proof.
  destruct (compute_mode_best_earlier_run (buffer_of [1; 1; 2; 3; 3; 3]%float 8))
    as (first & rest & Hel & Hcode & Hspec & _).
  - vm_compute. split; discriminate.
  - vm_compute. discriminate.
  - intros a b Ha Hb.
    change (elements (buffer_of [1; 1; 2; 3; 3; 3]%float 8))
      with [1; 1; 2; 3; 3; 3]%float in Ha, Hb.
    cbn [In] in Ha, Hb.
    repeat (destruct Ha as [<- | Ha]; [ | ]); try contradiction;
      repeat (destruct Hb as [<- | Hb]; [ | ]); try contradiction;
      first [ reflexivity | vm_compute; discriminate ].
  - change (elements (buffer_of [1; 1; 2; 3; 3; 3]%float 8))
      with [1; 1; 2; 3; 3; 3]%float in Hel, Hcode, Hspec.
    injection Hel as <- <-.
    split; [ exact Hcode | exact Hspec ].
Defined.

(** ** The harmonic mean of data with a zero *)

Lemma shr_fexp_nonneg (m e : Z) (l : location) :
  0 <= m -> 0 <= shr_m (fst (shr_fexp prec emax m e l)).
Proof.
  intros Hm. unfold shr_fexp, shr.
  destruct (fexp prec emax (Zdigits2 m + e) - e) as [| k | k]; cbn [fst];
    rewrite ?shr_record_of_loc_m; try exact Hm.
  rewrite iter_shr_1 by (rewrite shr_record_of_loc_m; exact Hm).
  rewrite shr_record_of_loc_m. apply Z.div_pos; [ exact Hm | apply pow2_pos; lia ].
Qed.

Lemma round_nearest_even_nonneg (m : Z) (l : location) :
  0 <= m -> 0 <= round_nearest_even m l.
Proof.
  intros Hm. destruct l as [| []]; cbn [round_nearest_even]; try lia.
  destruct (Z.even m); lia.
Qed.

(** Rounding a non-negative integer multiple of a power of two gives a
    double with the sign asked for, never a NaN. *)
Lemma binary_round_aux_nonneg (s : bool) (m e : Z) (l : location) :
  0 <= m -> has_sign s (binary_round_aux prec emax s m e l).
Proof.
  intros Hm. unfold binary_round_aux.
  pose proof (shr_fexp_nonneg m e l Hm) as H1.
  destruct (shr_fexp prec emax m e l) as [mrs e']. cbn [fst] in H1.
  pose proof (round_nearest_even_nonneg _ (loc_of_shr_record mrs) H1) as H2.
  pose proof (shr_fexp_nonneg _ e' loc_Exact H2) as H3.
  destruct (shr_fexp prec emax _ e' loc_Exact) as [mrs' e'']. cbn [fst] in H3.
  destruct (shr_m mrs') as [| p | p]; try lia; [ reflexivity | ].
  destruct (e'' <=? emax - prec); reflexivity.
Qed.

Lemma binary_round_nonneg (s : bool) (m : positive) (e : Z) :
  has_sign s (binary_round prec emax s m e).
Proof.
  unfold binary_round. destruct (shl_align m e _) as [mz ez].
  apply binary_round_aux_nonneg. lia.
Qed.

(** The sum of two doubles that are neither negative nor NaN is neither,
    and it is [+infinity] when one of them is. *)
Lemma SFadd_nonneg (x y : spec_float) :
  has_sign false x -> has_sign false y ->
  has_sign false (SFadd prec emax x y) /\
  (x = S754_infinity false \/ y = S754_infinity false ->
   SFadd prec emax x y = S754_infinity false).
Proof.
  destruct x as [sx | sx | | sx mx ex], y as [sy | sy | | sy my ey];
    cbn [has_sign]; try contradiction; intros -> ->; cbn [SFadd has_sign];
    try (split; [ reflexivity | intros [H | H]; (reflexivity || discriminate) ]).
  split; [ | intros [H | H]; discriminate ].
  cbn [cond_Zopp]. cbn [Z.add binary_normalize]. apply binary_round_nonneg.
Qed.

(** The quotient of two doubles that are neither negative nor NaN, the
    first of them finite and not zero. *)
Lemma SFdiv_nonneg (mx : positive) (ex : Z) (y : spec_float) :
  has_sign false y ->
  has_sign false (SFdiv prec emax (S754_finite false mx ex) y) /\
  (y = S754_zero false ->
   SFdiv prec emax (S754_finite false mx ex) y = S754_infinity false) /\
  (y = S754_infinity false ->
   SFdiv prec emax (S754_finite false mx ex) y = S754_zero false).
Proof.
  destruct y as [sy | sy | | sy my ey]; cbn [has_sign]; try contradiction; intros ->;
    cbn [SFdiv xorb has_sign];
    try (split; [ reflexivity | split; intros H; (reflexivity || discriminate) ]).
  split; [ | split; discriminate ].
  unfold SFdiv_core_binary.
  set (e' := IntDef.Z.min _ _). set (sh := ex - ey - e').
  set (m' := match sh with 0 => Zpos mx | Zpos _ => IntDef.Z.shiftl (Zpos mx) sh
                      | Zneg _ => 0 end).
  assert (Hm' : 0 <= m').
  { subst m'. destruct sh as [| p | p] eqn:Hs; try lia.
    change (IntDef.Z.shiftl (Zpos mx) (Zpos p)) with (Z.shiftl (Zpos mx) (Zpos p)).
    apply Z.shiftl_nonneg. lia. }
  change (IntDef.Z.div_eucl m' (Zpos my)) with (Z.div_eucl m' (Zpos my)).
  pose proof (Z.div_pos m' (Zpos my) Hm' ltac:(lia)) as Hq.
  unfold Z.div in Hq. destruct (Z.div_eucl m' (Zpos my)) as [q r]. cbn [fst] in Hq.
  apply binary_round_aux_nonneg. exact Hq.
Qed.

Lemma Prim2SF_one : Prim2SF 1%float = S754_finite false 4503599627370496 (-52).
Proof. reflexivity. Qed.

(** The sum in [compute_harmonic_mean]. *)
Lemma reciprocal_sum_nonneg (l : list float) :
  forall s : float,
    has_sign false (Prim2SF s) ->
    Forall (fun v => has_sign false (Prim2SF v)) l ->
    has_sign false (Prim2SF (fold_left (fun acc x => (acc + 1 / x)%float) l s)) /\
    (Prim2SF s = S754_infinity false \/ In 0%float l ->
     Prim2SF (fold_left (fun acc x => (acc + 1 / x)%float) l s) = S754_infinity false).
Proof.
  induction l as [| x l IH]; intros s Hs Hl.
  - cbn [fold_left In]. split; [ exact Hs | intros [H | []]; exact H ].
  - inversion Hl as [| ? ? Hx Hl']; subst. cbn [fold_left].
    destruct (SFdiv_nonneg 4503599627370496 (-52) (Prim2SF x) Hx) as (Hq & Hzero & _).
    destruct (SFadd_nonneg (Prim2SF s) _ Hs Hq) as (Hsum & Hinf).
    assert (Hstep : Prim2SF (s + 1 / x)
                    = SFadd prec emax (Prim2SF s)
                        (SFdiv prec emax (S754_finite false 4503599627370496 (-52))
                           (Prim2SF x))).
    { rewrite add_spec, div_spec, Prim2SF_one. reflexivity. }
    destruct (IH (s + 1 / x)%float) as (Hall & Hallinf);
      [ rewrite Hstep; exact Hsum | exact Hl' | ].
    split; [ exact Hall | ].
    intros [Hsinf | [Hx0 | Hin]]; apply Hallinf; auto; left; rewrite Hstep; apply Hinf.
    + left. exact Hsinf.
    + right. apply Hzero. rewrite Hx0. reflexivity.
Qed.

(** A positive [int] converts to a finite positive double. *)
Lemma of_int_positive (n : Z) :
  1 <= n <= CInt.INT_MAX ->
  exists m e, Prim2SF (Double.of_int n) = S754_finite false m e.
Proof.
  intros Hn. unfold Double.of_int, CInt.INT_MAX in *.
  destruct (Z.ltb_spec n 0) as [Hneg | _]; [ lia | ].
  rewrite of_uint63_spec, Uint63.of_Z_spec.
  rewrite Z.mod_small by (change Uint63.wB with (2 ^ 63); lia).
  destruct n as [| p | p]; try lia. cbn [binary_normalize].
  assert (Hd : Zpos (digits2_pos p) <= 31) by (apply digits2_pos_le; lia).
  pose proof (digits2_pos_bounds p) as [Hlo _].
  destruct (binary_round_exact false p 0) as (m' & -> & _); [ lia | lia | ].
  eauto.
Qed.

(** X16.  When no element is negative, a negative zero or a NaN, and one
    element is zero, the reciprocal of that element is [+infinity], so is
    the sum of the reciprocals, and [compute_harmonic_mean] returns 0. *)
Theorem harmonic_mean_of_data_with_zero (array : DynamicArray) :
  1 <= size array <= Z.of_nat (length (data array)) ->
  size array <= CInt.INT_MAX ->
  Forall (fun v => has_sign false (Prim2SF v)) (elements array) ->
  In 0%float (elements array) ->
  compute_harmonic_mean array = Ret 0%float.
Proof.
  intros Hsize Hmax Hsign Hzero.
  rewrite compute_harmonic_mean_elements by lia. f_equal.
  unfold Spec.harmonic_mean, Spec.count, Spec.fsum.
  rewrite <- fold_left_map_add. rewrite length_elements by lia.
  destruct (reciprocal_sum_nonneg (elements array) 0%float) as (_ & Hinf);
    [ reflexivity | exact Hsign | ].
  specialize (Hinf (or_intror Hzero)).
  destruct (of_int_positive (size array)) as (m & e & Hn); [ lia | ].
  rewrite <- (SF2Prim_Prim2SF (_ / _)%float).
  rewrite div_spec, Hn, Hinf. reflexivity.
Qed.

Lemma harmonic_mean_of_data_with_zero_witness :
  compute_harmonic_mean (buffer_of [0; 1; 2.5; infinity]%float 4) = Ret 0%float.
Proof.
  apply harmonic_mean_of_data_with_zero.
  - vm_compute. split; discriminate.
  - vm_compute. discriminate.
  - change (elements (buffer_of [0; 1; 2.5; infinity]%float 4))
      with [0; 1; 2.5; infinity]%float.
    repeat constructor.
  - left. reflexivity.
Defined.

(** ** Ownership of storage *)

Lemma release_storage (m : Mem.memory) (h : Mem.handle) :
  Mem.owns m h ->
  Mem.release (Mem.storage h) m
  = Mem.Done tt {| Mem.live := [Mem.self h]; Mem.fresh := Mem.fresh m;
                   Mem.streams := Mem.streams m |}.
Proof.
  intros (Hlive & Hne & _). unfold Mem.release. rewrite Hlive.
  destruct (in_dec Nat.eq_dec _ _) as [_ | Hout]; [ | exfalso; apply Hout; left; reflexivity ].
  cbn [List.remove].
  destruct (Nat.eq_dec (Mem.storage h) (Mem.storage h)); [ | contradiction ].
  destruct (Nat.eq_dec (Mem.storage h) (Mem.self h)); [ contradiction | reflexivity ].
Qed.

(** [free_dynamic_array] on the buffer leaves no block live. *)
Lemma free_dynamic_array_owned (m : Mem.memory) (h : Mem.handle) :
  Mem.owns m h ->
  Mem.free_dynamic_array (Some h) m
  = Mem.Done tt {| Mem.live := []; Mem.fresh := Mem.fresh m;
                   Mem.streams := Mem.streams m |}.
Proof.
  intros Hown. unfold Mem.free_dynamic_array, Mem.bind.
  rewrite (release_storage m h Hown).
  unfold Mem.release. cbn [Mem.live Mem.fresh Mem.streams].
  destruct (in_dec Nat.eq_dec _ _) as [_ | Hout]; [ | exfalso; apply Hout; left; reflexivity ].
  cbn [List.remove].
  destruct (Nat.eq_dec (Mem.self h) (Mem.self h)); [ reflexivity | contradiction ].
Qed.


(** A grow step hands the block of the data over and owns the new one. *)
Lemma resize_keeps_ownership (alloc : allocator) (h : Mem.handle) (m : Mem.memory) :
  Mem.owns m h ->
  Mem.keeps_ownership m (Mem.resize_array_if_needed alloc h m) Mem.contents
    (resize_array_if_needed alloc (Mem.contents h))
    (fun h' m' => Mem.owns m' h').
Proof.
  intros Hown. pose proof Hown as (Hlive & Hne & Hs & Ha).
  unfold Mem.resize_array_if_needed, resize_array_if_needed, Mem.keeps_ownership.
  cbv zeta. destruct (size (Mem.contents h) =? capacity (Mem.contents h)).
  - unfold Mem.bind, Mem.reallocate.
    destruct (in_dec Nat.eq_dec _ _) as [_ | Hout];
      [ | exfalso; apply Hout; rewrite Hlive; left; reflexivity ].
    destruct (realloc alloc _ _) as [new_data | |].
    + cbn [Mem.ret Mem.contents]. split; [ reflexivity | ].
      split; [ | reflexivity ].
      unfold Mem.owns. cbn [Mem.live Mem.fresh Mem.storage Mem.self]. rewrite Hlive.
      cbn [List.remove].
      destruct (Nat.eq_dec (Mem.storage h) (Mem.storage h)); [ | contradiction ].
      destruct (Nat.eq_dec (Mem.storage h) (Mem.self h)); [ contradiction | ].
      repeat split; lia.
    + rewrite (free_dynamic_array_owned m h Hown). cbn [Mem.exit].
      repeat split; reflexivity.
    + (* the block is gone, and [free_dynamic_array] frees it again *)
      unfold Mem.free_dynamic_array, Mem.bind, Mem.release.
      cbn [Mem.live Mem.fresh Mem.streams]. rewrite Hlive. cbn [List.remove].
      destruct (Nat.eq_dec (Mem.storage h) (Mem.storage h)); [ | contradiction ].
      destruct (Nat.eq_dec (Mem.storage h) (Mem.self h)); [ contradiction | ].
      destruct (in_dec Nat.eq_dec (Mem.storage h) [Mem.self h]) as [[Hin | []] | _];
        [ exfalso; apply Hne; symmetry; exact Hin | reflexivity ].
  - cbn [Mem.ret]. repeat split; assumption.
Qed.

(** The read loop. *)
Lemma read_loop_keeps_ownership (env : environment) (fuel : nat) :
  forall (file : FILE) (h : Mem.handle) (m : Mem.memory),
    Mem.owns m h ->
    Mem.keeps_ownership m (Mem.read_loop fuel env file h m) Mem.contents
      (read_loop fuel env file (Mem.contents h))
      (fun h' m' => Mem.owns m' h').
Proof.
  induction fuel as [| fuel IH]; intros file h m Hown;
    cbn [Mem.read_loop read_loop];
    destruct (env_fscanf_lf env file) as [[value file'] |];
    try reflexivity;
    try (split; [ reflexivity | split; [ exact Hown | reflexivity ] ]).
  unfold append.
  pose proof (resize_keeps_ownership (env_alloc env) h m Hown) as Hstep.
  unfold Mem.keeps_ownership in Hstep. unfold Mem.bind at 1.
  destruct (Mem.resize_array_if_needed (env_alloc env) h m) as [h1 m1 | s m1 | |].
  - destruct Hstep as (-> & Hown1 & Hstreams1). cbn [obind].
    unfold Mem.bind at 1, Mem.lift, store.
    destruct (_ && _); cbn [obind]; [ | reflexivity ].
    specialize (IH file'
                  {| Mem.self := Mem.self h1; Mem.storage := Mem.storage h1;
                     Mem.contents :=
                       {| data := <[Z.to_nat (size (Mem.contents h1)) := value]>
                                    (data (Mem.contents h1));
                          size := CInt.add (size (Mem.contents h1)) 1;
                          capacity := capacity (Mem.contents h1) |} |}
                  m1 Hown1).
    unfold Mem.keeps_ownership in *. cbn [Mem.contents] in IH.
    destruct (Mem.read_loop fuel env file' _ m1) as [h2 m2 | s2 m2 | |]; try exact IH.
    + destruct IH as (H0 & H1 & H2).
      split; [ exact H0 | split; [ exact H1 | congruence ] ].
    + destruct IH as (H0 & H1 & H2).
      split; [ exact H0 | split; [ exact H1 | congruence ] ].
  - destruct Hstep as (-> & Hlive1 & Hstreams1). cbn [obind].
    unfold Mem.keeps_ownership. auto.
  - rewrite Hstep. reflexivity.
  - rewrite Hstep. reflexivity.
Qed.

Lemma read_data_keeps_ownership (env : environment) (filename : string)
    (h : Mem.handle) (m : Mem.memory) :
  Mem.owns m h -> Mem.streams m = 0%nat ->
  match Mem.read_data_from_file env filename h m with
  | Mem.Done (ok, h') m' =>
      read_data_from_file env filename (Mem.contents h) = Ret (ok, Mem.contents h') /\
      Mem.owns m' h' /\ Mem.streams m' = 0%nat
  | Mem.Exited s m' =>
      read_data_from_file env filename (Mem.contents h) = Exit s /\
      Mem.live m' = [] /\ Mem.streams m' = 1%nat
  | Mem.Fault => read_data_from_file env filename (Mem.contents h) = Undef
  | Mem.OutOfFuel => read_data_from_file env filename (Mem.contents h) = Loops
  end.
Proof.
  intros Hown Hstreams. unfold Mem.read_data_from_file, read_data_from_file.
  destruct (fopen env filename) as [file |]; [ | cbn; auto ].
  unfold Mem.bind at 1, Mem.open_stream.
  pose proof (read_loop_keeps_ownership env (length file) file h
                {| Mem.live := Mem.live m; Mem.fresh := Mem.fresh m;
                   Mem.streams := S (Mem.streams m) |} Hown) as Hloop.
  unfold Mem.keeps_ownership in Hloop. unfold Mem.bind at 1.
  destruct (Mem.read_loop (length file) env file h _) as [h' m' | s m' | |].
  - destruct Hloop as (-> & Hown' & Hs). cbn [Mem.streams] in Hs.
    unfold Mem.bind, Mem.close_stream. rewrite Hs. cbn [obind Mem.ret].
    split; [ reflexivity | ]. split; [ exact Hown' | exact Hstreams ].
  - destruct Hloop as (-> & Hlive & Hs). cbn [Mem.streams] in Hs.
    cbn [obind]. split; [ reflexivity | ]. split; [ exact Hlive | lia ].
  - rewrite Hloop. reflexivity.
  - rewrite Hloop. reflexivity.
Qed.

Lemma create_keeps_ownership (alloc : allocator) (c : Z) :
  match Mem.create_dynamic_array alloc c Mem.empty with
  | Mem.Done (Some h) m =>
      create_dynamic_array alloc c = Some (Mem.contents h) /\
      Mem.owns m h /\ Mem.streams m = 0%nat
  | Mem.Done None m =>
      create_dynamic_array alloc c = None /\ Mem.live m = [] /\ Mem.streams m = 0%nat
  | _ => False
  end.
Proof.
  unfold Mem.create_dynamic_array, create_dynamic_array, Mem.bind, Mem.allocate.
  destruct (malloc alloc sizeof_DynamicArray) as [b0 |]; [ | cbn; auto ].
  cbn [Mem.empty Mem.fresh Mem.live Mem.streams].
  destruct (malloc alloc (CInt.size_mul _ _)) as [b |].
  - cbn [Mem.ret Mem.contents]. split; [ reflexivity | ].
    unfold Mem.owns. cbn. repeat split; lia.
  - unfold Mem.release. cbn [Mem.live Mem.fresh Mem.streams].
    destruct (in_dec Nat.eq_dec _ _) as [_ | Hout];
      [ | exfalso; apply Hout; left; reflexivity ].
    cbn. auto.
Qed.

(** Only a grow step ends the process: the statistics and the sort never
    call [exit]. *)
Lemma load_no_exit (b : block) (i : Z) (s : Z) : load b i <> Exit s.
Proof. unfold load. destruct (0 <=? i); [ destruct (b !! Z.to_nat i) | ]; discriminate. Qed.

Lemma for_count_no_exit {S : Type} (body : Z -> S -> outcome S) (n : nat) :
  (forall i v s, body i v <> Exit s) ->
  forall i v s, for_count n i body v <> Exit s.
Proof.
  intros Hbody. induction n as [| n IH]; intros i v s; cbn [for_count]; [ discriminate | ].
  destruct (body i v) as [v' | s' | |] eqn:E; cbn [obind]; try discriminate.
  - apply IH.
  - exfalso. exact (Hbody i v s' E).
Qed.

Lemma fold_loop_no_exit (array : DynamicArray) (f : float -> float -> float)
    (lo hi : Z) (v : float) (s : Z) :
  for_range lo hi (fun i acc => x <~ load (data array) i ; Ret (f acc x)) v <> Exit s.
Proof.
  unfold for_range. apply for_count_no_exit. intros i acc s'.
  destruct (load (data array) i) eqn:E; cbn [obind]; try discriminate.
  exfalso. exact (load_no_exit _ _ _ E).
Qed.

Lemma babylonian_loop_no_exit (fuel : nat) (value e : float) :
  forall x y s, babylonian_loop fuel value x y e <> Exit s.
Proof.
  induction fuel as [| fuel IH]; intros x y s; cbn [babylonian_loop];
    destruct (e <? x - y)%float; try discriminate.
  apply IH.
Qed.

Lemma statistics_no_exit (fuel : nat) (array : DynamicArray) (mean : float) (s : Z) :
  sort_array array <> Exit s /\
  compute_mean array <> Exit s /\
  compute_median array <> Exit s /\
  compute_mode array <> Exit s /\
  compute_stddev fuel array mean <> Exit s /\
  compute_harmonic_mean array <> Exit s.
Proof.
  repeat split.
  - unfold sort_array, qsort. destruct (_ && _); discriminate.
  - unfold compute_mean.
    destruct (for_range _ _ _ _) eqn:E; cbn [obind]; try discriminate.
    exfalso. exact (fold_loop_no_exit array PrimFloat.add _ _ _ _ E).
  - unfold compute_median.
    destruct (_ =? 0); [ | apply load_no_exit ].
    destruct (load _ (CInt.sub _ 1)) eqn:E1; cbn [obind]; try discriminate;
      [ | exfalso; exact (load_no_exit _ _ _ E1) ].
    destruct (load _ (CInt.div _ 2)) eqn:E2; cbn [obind]; try discriminate.
    exfalso. exact (load_no_exit _ _ _ E2).
  - unfold compute_mode.
    destruct (load _ 0) eqn:E1; cbn [obind]; try discriminate;
      [ | exfalso; exact (load_no_exit _ _ _ E1) ].
    destruct (for_range _ _ _ _) eqn:E2; cbn [obind]; try discriminate.
    exfalso. revert E2. unfold for_range. apply for_count_no_exit.
    intros i v s'. unfold mode_body.
    destruct (load _ i) eqn:F1; cbn [obind]; try discriminate;
      [ | exfalso; exact (load_no_exit _ _ _ F1) ].
    destruct (load _ (i - 1)) eqn:F2; cbn [obind]; try discriminate;
      [ | exfalso; exact (load_no_exit _ _ _ F2) ].
    destruct (_ =? _)%float; [ | destruct (_ >? _) ]; discriminate.
  - unfold compute_stddev.
    destruct (for_range _ _ _ _) eqn:E; cbn [obind]; try discriminate.
    + apply babylonian_loop_no_exit.
    + exfalso.
      exact (fold_loop_no_exit array (fun acc x => (acc + (x - mean) * (x - mean))%float)
               _ _ _ _ E).
  - unfold compute_harmonic_mean.
    destruct (for_range _ _ _ _) eqn:E; cbn [obind]; try discriminate.
    exfalso. exact (fold_loop_no_exit array (fun acc x => (acc + 1 / x)%float) _ _ _ _ E).
Qed.

